(** * Firewall: the Python-to-JavaScript transpiler and the test harness of
      the [LeetCodeChallenge] scene

    A shallow embedding of [transpilePythonToJS], [evaluateUserCode],
    [runTests], [submitSolution], [showTestResults] and the failed-attempt
    counter of the [LeetCodeChallenge] scene, of the conversion of a
    challenge into a problem and the score of the [Game] scene, and of the
    jumps of [RunnerPlayer], together with the properties of the
    specification that concern them.

    Strings are sequences of code units in the range 0..255 ([ascii]);
    the regular expressions of the source are transcribed one by one into
    a small backtracking matcher that follows the host's matching order
    (leftmost match, greedy and lazy quantifiers, capture groups). *)

From Stdlib Require Import String Ascii List ZArith Bool Lia Arith.
From Stdlib Require QArith Qround Qminmax Lqa.
#[local] Set Warnings "-register-all".
Import ListNotations.
Local Open Scope string_scope.

(* ================================================================= *)
(** ** Characters and strings as the host sees them *)

Module Str.

Definition code (c : ascii) : nat := nat_of_ascii c.

(** [\s] and the characters removed by [trim]: TAB, LF, VT, FF, CR, SPACE
    and NBSP are the ones below code unit 256. *)
Definition isSpace (c : ascii) : bool :=
  let n := code c in
  (Nat.leb 9 n && Nat.leb n 13) || Nat.eqb n 32 || Nat.eqb n 160.

(** [\w] is [A-Za-z0-9_]. *)
Definition isWord (c : ascii) : bool :=
  let n := code c in
  (Nat.leb 48 n && Nat.leb n 57) || (Nat.leb 65 n && Nat.leb n 90)
  || (Nat.leb 97 n && Nat.leb n 122) || Nat.eqb n 95.

(** [.] matches everything but a line terminator. *)
Definition isLineTerminator (c : ascii) : bool :=
  let n := code c in Nat.eqb n 10 || Nat.eqb n 13.

Definition newline : ascii := ascii_of_nat 10.
Definition nl : string := String newline "".

Fixpoint take (n : nat) (s : string) : string :=
  match n, s with
  | S n', String c s' => String c (take n' s')
  | _, _ => ""
  end.

Fixpoint drop (n : nat) (s : string) : string :=
  match n, s with
  | S n', String _ s' => drop n' s'
  | _, _ => s
  end.

Fixpoint rev_onto (s acc : string) : string :=
  match s with
  | "" => acc
  | String c s' => rev_onto s' (String c acc)
  end.

Definition rev (s : string) : string := rev_onto s "".

Fixpoint dropWhile (p : ascii -> bool) (s : string) : string :=
  match s with
  | String c s' => if p c then dropWhile p s' else s
  | "" => ""
  end.

(** [s.trim()] *)
Definition trim (s : string) : string :=
  rev (dropWhile isSpace (rev (dropWhile isSpace s))).

(** [s.startsWith(p)] *)
Fixpoint startsWith (p s : string) : bool :=
  match p, s with
  | "", _ => true
  | String a p', String b s' => Ascii.eqb a b && startsWith p' s'
  | String _ _, "" => false
  end.

(** [s.endsWith(p)] *)
Definition endsWith (p s : string) : bool := startsWith (rev p) (rev s).

(** [s.includes(p)] *)
Fixpoint includes (p s : string) : bool :=
  startsWith p s ||
  match s with
  | "" => false
  | String _ s' => includes p s'
  end.

(** [s.repeat(n)] *)
Fixpoint repeat (s : string) (n : nat) : string :=
  match n with
  | O => ""
  | S n' => s ++ repeat s n'
  end.

(** [s.split(sep)] for a one-character separator. *)
Fixpoint splitOn (sep : ascii) (s : string) : list string :=
  match s with
  | "" => [""]
  | String c s' =>
      if Ascii.eqb c sep then "" :: splitOn sep s'
      else match splitOn sep s' with
           | [] => [String c ""]
           | w :: ws => String c w :: ws
           end
  end.

(** [s.replace(pat, by)] with a string pattern: the first occurrence only.
    The replacement strings built by the transpiler hold no [$]. *)
Fixpoint replaceFirst (pat by_ s : string) : string :=
  if startsWith pat s then by_ ++ drop (String.length pat) s
  else match s with
       | "" => ""
       | String c s' => String c (replaceFirst pat by_ s')
       end.

Fixpoint count (c : ascii) (s : string) : nat :=
  match s with
  | "" => 0
  | String d s' => (if Ascii.eqb c d then 1 else 0) + count c s'
  end.

Fixpoint filter (p : ascii -> bool) (s : string) : string :=
  match s with
  | "" => ""
  | String c s' => if p c then String c (filter p s') else filter p s'
  end.

End Str.

(* ================================================================= *)
(** ** Regular expressions with the host's backtracking order *)

Module Regex.

Inductive regex : Type :=
| Eps
| Class (p : ascii -> bool)            (* one character satisfying [p] *)
| Seq (r1 r2 : regex)
| Star (greedy : bool) (r : regex)     (* [r*] and [r*?] *)
| Group (n : nat) (r : regex)          (* the n-th capture group *)
| Bol                                  (* [^] *)
| Eol                                  (* [$] *)
| WordB.                               (* [\b] *)

Definition captures := list (nat * string).

Fixpoint cap (n : nat) (cs : captures) : string :=
  match cs with
  | [] => ""
  | (m, s) :: cs' => if Nat.eqb n m then s else cap n cs'
  end.

Definition isWordOpt (c : option ascii) : bool :=
  match c with Some a => Str.isWord a | None => false end.

Definition head (s : string) : option ascii :=
  match s with String c _ => Some c | "" => None end.

Definition cont (A : Type) : Type :=
  option ascii -> string -> captures -> option A.

(** The iterations of [r*] and [r*?], [step] matching one [r]: a greedy
    star tries one more iteration before it tries to go on, a lazy one the
    other way round; an iteration that consumes nothing is not taken.
    [fuel] bounds the iterations by the length of the text. *)
Fixpoint starLoop {A : Type}
    (step : option ascii -> string -> captures -> cont A -> option A)
    (greedy : bool) (k : cont A) (fuel : nat)
    (prev : option ascii) (s : string) (cs : captures) : option A :=
  match fuel with
  | O => k prev s cs
  | S fuel' =>
      let again :=
        fun (_ : unit) =>
          step prev s cs (fun prev' s' cs' =>
            if Nat.ltb (String.length s') (String.length s)
            then starLoop step greedy k fuel' prev' s' cs' else None) in
      if greedy then
        match again tt with
        | Some x => Some x
        | None => k prev s cs
        end
      else
        match k prev s cs with
        | Some x => Some x
        | None => again tt
        end
  end.

(** [rmatch r prev s cs k] matches [r] at the front of [s], [prev] being
    the character before it, and hands what is left to the continuation
    [k]; alternatives are tried in the host's order, so the first success
    is the host's match. *)
Fixpoint rmatch {A : Type} (r : regex) (prev : option ascii) (s : string)
    (cs : captures) (k : cont A) {struct r} : option A :=
  match r with
  | Eps => k prev s cs
  | Class p =>
      match s with
      | String c s' => if p c then k (Some c) s' cs else None
      | "" => None
      end
  | Seq r1 r2 =>
      rmatch r1 prev s cs (fun prev' s' cs' => rmatch r2 prev' s' cs' k)
  | Group n r1 =>
      rmatch r1 prev s cs (fun prev' s' cs' =>
        k prev' s' ((n, Str.take (String.length s - String.length s') s) :: cs'))
  | Star greedy r1 =>
      starLoop (rmatch r1) greedy k (String.length s) prev s cs
  | Bol => match prev with None => k prev s cs | Some _ => None end
  | Eol => match s with "" => k prev s cs | String _ _ => None end
  | WordB =>
      if xorb (isWordOpt prev) (isWordOpt (head s)) then k prev s cs else None
  end.

Record found : Type := mkFound {
  f_pre : string;          (* the text before the match *)
  f_text : string;         (* the matched text, [$&] *)
  f_caps : captures;       (* the groups *)
  f_last : option ascii;   (* the character before [f_post] *)
  f_post : string          (* the text after the match *)
}.

(** The leftmost match of [r] in [s], [s] being preceded by [prev] and by
    the reversed text [acc]. *)
Fixpoint searchFrom (r : regex) (prev : option ascii) (acc : string)
    (s : string) : option found :=
  match rmatch r prev s [] (fun p s' cs => Some (p, s', cs)) with
  | Some (p, s', cs) =>
      Some (mkFound (Str.rev acc)
              (Str.take (String.length s - String.length s') s) cs p s')
  | None =>
      match s with
      | "" => None
      | String c s' => searchFrom r (Some c) (String c acc) s'
      end
  end.

(** [s.match(r)] for a regular expression without the [g] flag. *)
Definition search (r : regex) (s : string) : option found :=
  searchFrom r None "" s.

Definition test (r : regex) (s : string) : bool :=
  match search r s with Some _ => true | None => false end.

(** [s.replace(r, template)] without the [g] flag. *)
Definition replace (r : regex) (tpl : found -> string) (s : string) : string :=
  match search r s with
  | Some f => f_pre f ++ tpl f ++ f_post f
  | None => s
  end.

(** [s.replace(r, template)] with the [g] flag: every match, left to
    right; after an empty match the host moves on by one character. *)
Fixpoint replaceAllFrom (fuel : nat) (r : regex) (tpl : found -> string)
    (prev : option ascii) (s : string) : string :=
  match fuel with
  | O => s
  | S fuel' =>
      match searchFrom r prev "" s with
      | None => s
      | Some f =>
          f_pre f ++ tpl f ++
          match f_text f, f_post f with
          | "", String c rest =>
              String c (replaceAllFrom fuel' r tpl (Some c) rest)
          | "", "" => ""
          | _, post => replaceAllFrom fuel' r tpl (f_last f) post
          end
      end
  end.

Definition replaceAll (r : regex) (tpl : found -> string) (s : string) : string :=
  replaceAllFrom (S (String.length s)) r tpl None s.

(** Building blocks. *)
Definition chr (c : ascii) : regex := Class (Ascii.eqb c).
Definition notchr (c : ascii) : regex := Class (fun d => negb (Ascii.eqb c d)).
Definition ws : regex := Class Str.isSpace.
Definition wd : regex := Class Str.isWord.
Definition dot : regex := Class (fun c => negb (Str.isLineTerminator c)).
Definition plus (r : regex) : regex := Seq r (Star true r).
Definition star (r : regex) : regex := Star true r.
Definition lazyStar (r : regex) : regex := Star false r.
Definition lazyPlus (r : regex) : regex := Seq r (Star false r).

Fixpoint lit (s : string) : regex :=
  match s with
  | "" => Eps
  | String c s' => Seq (chr c) (lit s')
  end.

Fixpoint seqs (rs : list regex) : regex :=
  match rs with
  | [] => Eps
  | [r] => r
  | r :: rs' => Seq r (seqs rs')
  end.

End Regex.

(* ================================================================= *)
(** ** Errors and host values *)

(** A computation that returns or throws [new Error(msg)]. *)
Inductive result (A : Type) : Type :=
| Ok (a : A)
| Err (msg : string).
Arguments Ok {A} a.
Arguments Err {A} msg.

Definition bind {A B : Type} (x : result A) (f : A -> result B) : result B :=
  match x with
  | Ok a => f a
  | Err m => Err m
  end.

(** [try { x } catch (error) { throw new Error(prefix + error.message) }] *)
Definition rethrow {A : Type} (prefix : string) (x : result A) : result A :=
  match x with
  | Ok a => Ok a
  | Err m => Err (prefix ++ m)
  end.

(** The values that travel through the harness: test inputs, expected
    values and what a compiled function returns.  Numbers are the integers
    of the fixtures. *)
Inductive JSValue : Type :=
| JSUndefined
| JSNull
| JSBool (b : bool)
| JSNumber (z : Z)
| JSString (s : string)
| JSArray (elems : list JSValue)
| JSObject (fields : list (string * JSValue)).

(** What a [throw] carries: an [Error] with its message, or any other value. *)
Inductive JSThrown : Type :=
| ErrorObject (message : string)
| ThrownValue (v : JSValue).

Inductive CallOutcome : Type :=
| Returns (v : JSValue)
| Throws (t : JSThrown).

(** A callable of the host: applied to the argument list of a call. *)
Definition Callable : Type := list JSValue -> CallOutcome.

(* ================================================================= *)
(** ** [transpilePythonToJS]: from the Python text to the JavaScript text *)

Module Transpiler.
Import Str Regex.

Definition dquote : ascii := ascii_of_nat 34.
Definition tripleDouble : string := String dquote (String dquote (String dquote EmptyString)).
Definition tripleSingle : string := "'''".

(** The source's regular expressions are quoted with blanks between their
    parts.  [def \s+ (\w+) \s* \( (.*?) \) :] *)
Definition functionRe : regex :=
  seqs [lit "def"; plus ws; Group 1 (plus wd); star ws; chr "("%char;
        Group 2 (lazyStar dot); lit "):"].

(** [^ ( \s* )] *)
Definition leadingSpaceRe : regex := seqs [Bol; Group 1 (star ws)].

(** [\b word \b] *)
Definition keywordRe (w : string) : regex := seqs [WordB; lit w; WordB].

(** [\b prefix], as in [\b self\.], [\b set\(\)] and [\b max\(] *)
Definition prefixRe (w : string) : regex := seqs [WordB; lit w].

(** [(\w+) \s+ in \s+ (\w+)] *)
Definition inCheckRe : regex :=
  seqs [Group 1 (plus wd); plus ws; lit "in"; plus ws; Group 2 (plus wd)].

(** [for \s+ (\w+) \s+ in \s+ (.+?) : \s* $] *)
Definition forLoopRe : regex :=
  seqs [lit "for"; plus ws; Group 1 (plus wd); plus ws; lit "in"; plus ws;
        Group 2 (lazyPlus dot); chr ":"%char; star ws; Eol].

(** [^ kw \s+ .+ : \s* $] for [if], [elif] and [while] *)
Definition blockTestRe (kw : string) : regex :=
  seqs [Bol; lit kw; plus ws; plus dot; chr ":"%char; star ws; Eol].

(** [kw \s+ (.+?) : \s* $] *)
Definition blockRe (kw : string) : regex :=
  seqs [lit kw; plus ws; Group 1 (lazyPlus dot); chr ":"%char; star ws; Eol].

(** [^ else: \s* $] and [else: \s* $] *)
Definition elseTestRe : regex := seqs [Bol; lit "else:"; star ws; Eol].
Definition elseRe : regex := seqs [lit "else:"; star ws; Eol].

(** [^ (.+?) \s+ if \s+ (.+?) \s+ else \s+ (.+) $] *)
Definition ternaryRe : regex :=
  seqs [Bol; Group 1 (lazyPlus dot); plus ws; lit "if"; plus ws;
        Group 2 (lazyPlus dot); plus ws; lit "else"; plus ws;
        Group 3 (plus dot); Eol].

(** [len\( ( [^)]+ ) \)] *)
Definition lenRe : regex :=
  seqs [lit "len("; Group 1 (plus (notchr ")"%char)); chr ")"%char].

Definition const (s : string) : found -> string := fun _ => s.
Definition group (n : nat) (f : found) : string := cap n (f_caps f).

(** The length of the leading blanks that [line.match] captures. *)
Definition indentOf (line : string) : nat :=
  match search leadingSpaceRe line with
  | Some f => String.length (group 1 f)
  | None => 0
  end.

(** The callback of [lines.filter] with its flag [skipDocstringForIndent]. *)
Fixpoint nonEmptyLines (skipDocstringForIndent : bool) (lines : list string)
  : list string :=
  match lines with
  | [] => []
  | line :: rest =>
      let trimmed := trim line in
      if String.eqb trimmed EmptyString || startsWith "#" trimmed
      then nonEmptyLines skipDocstringForIndent rest
      else if startsWith tripleDouble trimmed || startsWith tripleSingle trimmed
      then
        let delimiter := take 3 trimmed in
        if endsWith delimiter trimmed && Nat.ltb 6 (String.length trimmed)
        then nonEmptyLines skipDocstringForIndent rest
        else nonEmptyLines (negb skipDocstringForIndent) rest
      else if skipDocstringForIndent
      then nonEmptyLines skipDocstringForIndent rest
      else line :: nonEmptyLines skipDocstringForIndent rest
  end.

(** [Math.min(...xs)] of a non-empty list. *)
Definition minimum (xs : list nat) : nat :=
  match xs with
  | [] => 0
  | x :: xs' => fold_left Nat.min xs' x
  end.

Definition minIndentOf (lines : list string) : nat :=
  minimum (map indentOf (nonEmptyLines false lines)).

(** The loop variables of the scan over the body lines; [indentStack] is
    kept in array order, its top last.  [lastIndentLevel] is assigned in
    the loop and never read, so it has no field here. *)
Record scan : Type := mkScan {
  body : string;
  indentStack : list Z;
  inDocstring : bool;
  docstringDelimiter : string
}.

Definition closeBrace (depth : nat) : string := repeat "    " depth ++ "}" ++ nl.

(** [while (indentStack.length > 1 && relativeIndent < top) { pop; emit }] *)
Fixpoint closeBlocks (fuel : nat) (relativeIndent : Z) (stack : list Z)
    (out : string) : list Z * string :=
  match fuel with
  | O => (stack, out)
  | S fuel' =>
      if Nat.ltb 1 (List.length stack) && Z.ltb relativeIndent (last stack 0%Z)
      then
        let stack' := removelast stack in
        closeBlocks fuel' relativeIndent stack'
          (out ++ closeBrace (List.length stack'))
      else (stack, out)
  end.

(** [while (indentStack.length > 1) { pop; emit }] *)
Fixpoint closeAll (fuel : nat) (stack : list Z) (out : string) : string :=
  match fuel with
  | O => out
  | S fuel' =>
      if Nat.ltb 1 (List.length stack)
      then
        let stack' := removelast stack in
        closeAll fuel' stack' (out ++ closeBrace (List.length stack'))
      else out
  end.

(** The literal and keyword rewrites, in the order of the source. *)
Definition basicConversions (dedented : string) : string :=
  let s := replaceAll (keywordRe "True") (const "true") dedented in
  let s := replaceAll (keywordRe "False") (const "false") s in
  let s := replaceAll (keywordRe "None") (const "null") s in
  let s := replaceAll (keywordRe "and") (const "&&") s in
  let s := replaceAll (keywordRe "or") (const "||") s in
  let s := replaceAll (keywordRe "not") (const "!") s in
  let s := replaceAll (keywordRe "def") (const "function") s in
  let s := replaceAll (prefixRe "self.") (const "this.") s in
  replaceAll (prefixRe "set()") (const "new Set()") s.

(** ["x in collection"] outside a line that holds [for]. *)
Definition membership (jsLine : string) : string :=
  match search inCheckRe jsLine with
  | Some f =>
      if negb (includes "for" jsLine)
      then replaceFirst (f_text f) (group 2 f ++ ".has(" ++ group 1 f ++ ")") jsLine
      else jsLine
  | None => jsLine
  end.

(** [indentStack.push(x)] *)
Definition push (stack : list Z) (x : Z) : list Z := (stack ++ [x])%list.

(** The [for] / [if] / [elif] / [else] / [while] chain; only [for], [if]
    and [while] push a level. *)
Definition controlFlow (jsLine : string) (relativeIndent : Z) (stack : list Z)
  : string * list Z :=
  match search forLoopRe jsLine with
  | Some f =>
      ("for (const " ++ group 1 f ++ " of " ++ group 2 f ++ ") {",
       push stack (relativeIndent + 4))
  | None =>
      if test (blockTestRe "if") (trim jsLine) then
        (replace (blockRe "if") (fun f => "if (" ++ group 1 f ++ ") {") jsLine,
         push stack (relativeIndent + 4))
      else if test (blockTestRe "elif") (trim jsLine) then
        (replace (blockRe "elif") (fun f => "} else if (" ++ group 1 f ++ ") {") jsLine,
         stack)
      else if test elseTestRe (trim jsLine) then
        (replace elseRe (const "} else {") jsLine, stack)
      else if test (blockTestRe "while") (trim jsLine) then
        (replace (blockRe "while") (fun f => "while (" ++ group 1 f ++ ") {") jsLine,
         push stack (relativeIndent + 4))
      else (jsLine, stack)
  end.

(** ["a if condition else b"], with or without a leading [return]. *)
Definition ternary (jsLine : string) : string :=
  let hasReturn := startsWith "return" (trim jsLine) in
  let lineWithoutReturn :=
    if hasReturn then trim (drop 6 (trim jsLine)) else trim jsLine in
  match search ternaryRe lineWithoutReturn with
  | Some f =>
      let ternaryExpr :=
        "(" ++ group 2 f ++ ") ? (" ++ group 1 f ++ ") : (" ++ group 3 f ++ ")" in
      if hasReturn then "return " ++ ternaryExpr else ternaryExpr
  | None => jsLine
  end.

Definition builtins (jsLine : string) : string :=
  let s := replaceAll (prefixRe "max(") (const "Math.max(") jsLine in
  let s := replaceAll (prefixRe "min(") (const "Math.min(") s in
  let s := replaceAll (prefixRe "abs(") (const "Math.abs(") s in
  let s := replaceAll (prefixRe "round(") (const "Math.round(") s in
  let s := if includes "len(" s
           then replaceAll lenRe (fun f => group 1 f ++ ".length") s else s in
  let s := replaceAll (lit ".append(") (const ".push(") s in
  replaceAll (lit ".remove(") (const ".delete(") s.

Definition translateLine (dedented : string) (relativeIndent : Z)
    (stack : list Z) : string * list Z :=
  let (jsLine, stack') :=
    controlFlow (membership (basicConversions dedented)) relativeIndent stack in
  (builtins (ternary jsLine), stack').

(** One turn of the [for] loop over [lines]. *)
Definition processLine (minIndent : nat) (st : scan) (line : string) : scan :=
  let trimmed := trim line in
  if String.eqb trimmed EmptyString || startsWith "#" trimmed then st
  else if inDocstring st then
    if String.eqb trimmed (docstringDelimiter st)
       || endsWith (docstringDelimiter st) trimmed
    then mkScan (body st) (indentStack st) false EmptyString
    else st
  else if startsWith tripleDouble trimmed || startsWith tripleSingle trimmed then
    let delimiter := take 3 trimmed in
    if Nat.ltb 3 (String.length trimmed) && endsWith delimiter trimmed
       && Nat.ltb 6 (String.length trimmed)
    then st
    else mkScan (body st) (indentStack st) true delimiter
  else if String.eqb trimmed "pass" then st
  else
    let currentIndent := indentOf line in
    let dedented := drop minIndent line in
    let relativeIndent := (Z.of_nat currentIndent - Z.of_nat minIndent)%Z in
    let (stack1, body1) :=
      closeBlocks (List.length (indentStack st)) relativeIndent
        (indentStack st) (body st) in
    let (jsLine, stack2) := translateLine dedented relativeIndent stack1 in
    mkScan (body1 ++ jsLine ++ nl) stack2 (inDocstring st) (docstringDelimiter st).

Definition initialScan : scan := mkScan EmptyString [0%Z] false EmptyString.

(** The translated body: the scan over the lines after the first, then the
    remaining blocks closed, then the empty-body default. *)
Definition translateBody (pythonCode : string) : string :=
  let lines := tl (splitOn newline pythonCode) in
  let st := fold_left (processLine (minIndentOf lines)) lines initialScan in
  let out := closeAll (List.length (indentStack st)) (indentStack st) (body st) in
  if String.eqb (trim out) EmptyString then "return undefined;" else out.

(** The template literal [jsCode]. *)
Definition wrap (functionName params out : string) : string :=
  nl ++ repeat " " 16 ++ "return function " ++ functionName ++ "(" ++ params
     ++ ") {" ++ nl ++ repeat " " 20 ++ out ++ nl ++ repeat " " 16 ++ "};" ++ nl
     ++ repeat " " 12.

Record emitted : Type := mkEmitted {
  e_functionName : string;
  e_params : string;
  e_body : string;
  e_jsCode : string
}.

(** Everything of [transpilePythonToJS] up to [new Function(jsCode)]. *)
Definition emit (pythonCode : string) : result emitted :=
  match search functionRe pythonCode with
  | None => Err "Could not find Python function definition"
  | Some functionMatch =>
      let functionName := group 1 functionMatch in
      let params := group 2 functionMatch in
      let out := translateBody pythonCode in
      Ok (mkEmitted functionName params out (wrap functionName params out))
  end.

End Transpiler.

(* ================================================================= *)
(** ** The host runtime the scene relies on *)

(** What the code takes from the runtime: the clock [performance.now()]
    (its successive readings, in units of the timer's resolution),
    [JSON.stringify] (which yields [undefined] for some values),
    [String(v)], and [new Function(jsCode)()], which either throws or
    hands back the function that the text defines. *)
Record Host : Type := mkHost {
  now : nat -> Z;
  JSON_stringify : JSValue -> option string;
  toString : JSValue -> string;
  newFunction : string -> result Callable
}.

Definition withClock (h : Host) (clock : nat -> Z) : Host :=
  mkHost clock (JSON_stringify h) (toString h) (newFunction h).

(** The function that [transpilePythonToJS] returns: a callable that
    carries the name and the raw parameter list of the [def] header. *)
Record CompiledFunction : Type := mkCompiled {
  fn_name : string;
  fn_params : string;
  fn_call : Callable
}.

Record TestCase : Type := mkTestCase {
  tc_input : JSValue;
  tc_expected : JSValue
}.

Record TestResult : Type := mkTestResult {
  passed : bool;
  input : JSValue;
  expected : JSValue;
  actual : JSValue;
  error : option string;          (* [null] or the message *)
  executionTime : Z
}.

(** The fields of [LeetCodeProblem] that the scene reads when it runs code. *)
Record LeetCodeProblem : Type := mkProblem {
  parameters : list string;
  testCases : list TestCase;
  hiddenTestCases : option (list TestCase)
}.

(** What a run leaves behind outside its return value: how often the clock
    was read and with which argument lists the user function was called,
    oldest call first. *)
Record World : Type := mkWorld {
  reads : nat;
  calls : list (list JSValue)
}.

Module Harness.

Section WithHost.
Variable h : Host.

Definition transpilePythonToJS (pythonCode : string) : result CompiledFunction :=
  rethrow "Python transpilation error: "
    (bind (Transpiler.emit pythonCode) (fun e =>
     bind (newFunction h (Transpiler.e_jsCode e)) (fun fn =>
     Ok (mkCompiled (Transpiler.e_functionName e) (Transpiler.e_params e) fn)))).

Definition evaluateUserCode (code : string) : result CompiledFunction :=
  rethrow "Compilation error: " (transpilePythonToJS code).

(** [let args] of the per-case callback: the input is spread when it is an
    array as long as [problem.parameters], and wrapped otherwise. *)
Definition callArgs (problem : LeetCodeProblem) (testCase : TestCase)
  : list JSValue :=
  match tc_input testCase with
  | JSArray elems =>
      if Nat.eqb (List.length elems) (List.length (parameters problem))
      then elems
      else [tc_input testCase]
  | _ => [tc_input testCase]
  end.

(** [error instanceof Error ? error.message : String(error)] *)
Definition errorMessage (t : JSThrown) : string :=
  match t with
  | ErrorObject message => message
  | ThrownValue v => toString h v
  end.

Definition sameText (a b : option string) : bool :=
  match a, b with
  | Some x, Some y => String.eqb x y
  | None, None => true
  | _, _ => false
  end.

(** The callback given to [map]: one case, with its [try] and [catch]. *)
Definition runCase (userFunction : Callable) (problem : LeetCodeProblem)
    (w : World) (testCase : TestCase) : TestResult * World :=
  let startTime := now h (reads w) in
  let args := callArgs problem testCase in
  let w1 := mkWorld (S (reads w)) (calls w ++ [args])%list in
  match userFunction args with
  | Returns result =>
      let executionTime := (now h (reads w1) - startTime)%Z in
      (mkTestResult
         (sameText (JSON_stringify h result) (JSON_stringify h (tc_expected testCase)))
         (tc_input testCase) (tc_expected testCase) result None executionTime,
       mkWorld (S (reads w1)) (calls w1))
  | Throws t =>
      (mkTestResult false (tc_input testCase) (tc_expected testCase) JSNull
         (Some (errorMessage t)) 0%Z,
       w1)
  end.

(** [cases.map(callback)], the cases visited from left to right. *)
Fixpoint runCases (userFunction : Callable) (problem : LeetCodeProblem)
    (w : World) (cases : list TestCase) : list TestResult * World :=
  match cases with
  | [] => ([], w)
  | testCase :: rest =>
      let (r, w1) := runCase userFunction problem w testCase in
      let (rs, w2) := runCases userFunction problem w1 rest in
      (r :: rs, w2)
  end.

End WithHost.

End Harness.

(* ================================================================= *)
(** ** The [LeetCodeChallenge] scene *)

Module Scene.
Import Harness.

Definition MAX_ATTEMPTS : Z := 3.

(** What the scene puts on screen or asks of the scene manager. *)
Inductive Shown : Type :=
| ShowTestResults (results : list TestResult) (isSubmission : bool)
    (attemptsRemaining : option Z)
| ShowError (message : string)
| ShowSuccess
| DeductScore (points : Z).

(** [Running] from [create] until the scene stops itself; [Closed] after
    [closeChallenge] (the game resumes); [GameOver] after
    [triggerGameOver] (the game is stopped and the GameOver scene
    started). *)
Inductive Phase : Type := Idle | Running | Closed | GameOver.

Record LeetCodeChallenge : Type := mkScene {
  problem : LeetCodeProblem;
  failedAttempts : Z;
  phase : Phase;
  closePending : bool;            (* the 2000 ms [delayedCall] is armed *)
  world : World;
  shown : list Shown
}.

Definition show (s : LeetCodeChallenge) (x : Shown) : LeetCodeChallenge :=
  mkScene (problem s) (failedAttempts s) (phase s) (closePending s) (world s)
    (shown s ++ [x])%list.

Definition setWorld (s : LeetCodeChallenge) (w : World) : LeetCodeChallenge :=
  mkScene (problem s) (failedAttempts s) (phase s) (closePending s) w (shown s).

(** [create(data)] *)
Definition create (s : LeetCodeChallenge) (data : LeetCodeProblem)
  : LeetCodeChallenge :=
  mkScene data 0 Running false (world s) (shown s).

Definition triggerGameOver (s : LeetCodeChallenge) : LeetCodeChallenge :=
  mkScene (problem s) (failedAttempts s) GameOver false (world s) (shown s).

Definition closeChallenge (s : LeetCodeChallenge) : LeetCodeChallenge :=
  mkScene (problem s) (failedAttempts s) Closed false (world s) (shown s).

Definition allTests (p : LeetCodeProblem) : list TestCase :=
  (testCases p ++ match hiddenTestCases p with Some l => l | None => [] end)%list.

Section WithHost.
Variable h : Host.

Definition runTests (s : LeetCodeChallenge) (code : string) : LeetCodeChallenge :=
  match evaluateUserCode h code with
  | Ok userFunction =>
      let (results, w) :=
        runCases h (fn_call userFunction) (problem s) (world s)
          (testCases (problem s)) in
      show (setWorld s w) (ShowTestResults results false None)
  | Err message => show s (ShowError message)
  end.

Definition submitSolution (s : LeetCodeChallenge) (code : string)
  : LeetCodeChallenge :=
  match evaluateUserCode h code with
  | Ok userFunction =>
      let (results, w) :=
        runCases h (fn_call userFunction) (problem s) (world s)
          (allTests (problem s)) in
      let s1 := setWorld s w in
      let allPassed := forallb passed results in
      if allPassed then
        let s2 := show s1 ShowSuccess in
        mkScene (problem s2) (failedAttempts s2) (phase s2) true (world s2) (shown s2)
      else
        let s2 :=
          mkScene (problem s1) (failedAttempts s1 + 1) (phase s1)
            (closePending s1) (world s1) (shown s1) in
        let attemptsRemaining := (MAX_ATTEMPTS - failedAttempts s2)%Z in
        if Z.geb (failedAttempts s2) MAX_ATTEMPTS
        then triggerGameOver s2
        else show s2 (ShowTestResults results true (Some attemptsRemaining))
  | Err message => show s (ShowError message)
  end.

Definition skipProblem (s : LeetCodeChallenge) (confirmSkip : bool)
  : LeetCodeChallenge :=
  if confirmSkip then closeChallenge (show s (DeductScore 100)) else s.

(** What can happen to the scene: it is launched with a problem, one of its
    three buttons is pressed with the editor holding [code], or the delay
    armed by an accepted submission runs out. *)
Inductive Event : Type :=
| Launch (data : LeetCodeProblem)
| PressRunTests (code : string)
| PressSubmit (code : string)
| PressSkip (confirmSkip : bool)
| DelayElapsed.

(** Buttons and timers belong to the running scene; a stopped scene reacts
    to nothing but a new launch. *)
Definition step (s : LeetCodeChallenge) (e : Event) : LeetCodeChallenge :=
  match e, phase s with
  | Launch data, _ => create s data
  | PressRunTests code, Running => runTests s code
  | PressSubmit code, Running => submitSolution s code
  | PressSkip confirmSkip, Running => skipProblem s confirmSkip
  | DelayElapsed, Running => if closePending s then closeChallenge s else s
  | _, _ => s
  end.

Definition run (s : LeetCodeChallenge) (es : list Event) : LeetCodeChallenge :=
  fold_left step es s.

End WithHost.

(** The scene as its constructor leaves it. *)
Definition fresh (p : LeetCodeProblem) : LeetCodeChallenge :=
  mkScene p 0 Idle false (mkWorld 0 []) [].

End Scene.

(* ================================================================= *)
(** ** A fragment of the host language, to run emitted code

    The scene hands the emitted text to [new Function].  To evaluate
    emitted code inside this development, the fragment of JavaScript that
    the examples below emit is given a reader and an evaluator: a function
    expression whose body is made of [return], [if]/[else] and
    [for (const x of e)] over expressions built from integer literals,
    variables, the literals [true], [false], [null] and [undefined],
    parentheses, one unary minus before a primary expression, [<], [>] and
    the conditional operator.  A
    [return] and its expression stand on one line.  Text outside the
    fragment is refused as a syntax error; an operation on values the
    fragment does not cover throws. *)

Module JSFragment.
Import Str.

Inductive token : Type :=
| TIdent (x : string)
| TNum (z : Z)
| TPunct (c : ascii).

Definition isDigit (c : ascii) : bool :=
  let n := code c in Nat.leb 48 n && Nat.leb n 57.

Definition isIdentStart (c : ascii) : bool :=
  isWord c && negb (isDigit c).

Definition isPunct (c : ascii) : bool :=
  existsb (Ascii.eqb c)
    ["("; ")"; "{"; "}"; ";"; "?"; ":"; "<"; ">"; "-"; ","]%char.

Fixpoint spanWhile (p : ascii -> bool) (s : string) : string * string :=
  match s with
  | String c s' =>
      if p c then let (a, b) := spanWhile p s' in (String c a, b) else ("", s)
  | "" => ("", "")
  end.

Fixpoint digitsValue (acc : Z) (s : string) : Z :=
  match s with
  | String c s' => digitsValue (10 * acc + Z.of_nat (code c - 48)) s'
  | "" => acc
  end.

Fixpoint lex (fuel : nat) (s : string) : option (list token) :=
  match fuel with
  | O => None
  | S fuel' =>
      match s with
      | "" => Some []
      | String c s' =>
          if isSpace c then lex fuel' s'
          else if isDigit c then
            let (ds, rest) := spanWhile isDigit s in
            option_map (cons (TNum (digitsValue 0 ds))) (lex fuel' rest)
          else if isIdentStart c then
            let (x, rest) := spanWhile isWord s in
            option_map (cons (TIdent x)) (lex fuel' rest)
          else if isPunct c then option_map (cons (TPunct c)) (lex fuel' s')
          else None
      end
  end.

Definition tokens (s : string) : option (list token) :=
  lex (S (String.length s)) s.

Inductive expr : Type :=
| ENum (z : Z)
| EVar (x : string)
| EBool (b : bool)
| ENull
| EUndefined
| ENeg (e : expr)
| ELt (a b : expr)
| EGt (a b : expr)
| ECond (c a b : expr).

Inductive stmt : Type :=
| SReturn (e : option expr)
| SIf (c : expr) (thenB : list stmt) (elseB : option (list stmt))
| SForOf (x : string) (e : expr) (loopB : list stmt).

Definition isKeyword (x : string) : bool :=
  existsb (String.eqb x)
    ["return"; "if"; "else"; "for"; "const"; "of"; "function";
     "true"; "false"; "null"; "undefined"].

Definition expect (c : ascii) (ts : list token) : option (list token) :=
  match ts with
  | TPunct d :: ts' => if Ascii.eqb c d then Some ts' else None
  | _ => None
  end.

Definition expectWord (w : string) (ts : list token) : option (list token) :=
  match ts with
  | TIdent x :: ts' => if String.eqb w x then Some ts' else None
  | _ => None
  end.

Definition andThen {A B : Type} (x : option A) (f : A -> option B) : option B :=
  match x with Some a => f a | None => None end.

(** Expressions, lowest precedence first: conditional, relational, unary,
    primary. *)
Fixpoint parseExpr (fuel : nat) (ts : list token) : option (expr * list token) :=
  match fuel with
  | O => None
  | S fuel' =>
      let primary (ts : list token) : option (expr * list token) :=
        match ts with
        | TNum z :: ts' => Some (ENum z, ts')
        | TIdent x :: ts' =>
            if String.eqb x "true" then Some (EBool true, ts')
            else if String.eqb x "false" then Some (EBool false, ts')
            else if String.eqb x "null" then Some (ENull, ts')
            else if String.eqb x "undefined" then Some (EUndefined, ts')
            else if isKeyword x then None
            else Some (EVar x, ts')
        | TPunct c :: ts' =>
            if Ascii.eqb c "(" then
              andThen (parseExpr fuel' ts') (fun '(e, ts1) =>
              andThen (expect ")" ts1) (fun ts2 => Some (e, ts2)))
            else None
        | [] => None
        end in
      let unary (ts : list token) : option (expr * list token) :=
        match ts with
        | TPunct c :: ts' =>
            if Ascii.eqb c "-" then
              andThen (primary ts') (fun '(e, ts1) => Some (ENeg e, ts1))
            else primary ts
        | _ => primary ts
        end in
      let relational (ts : list token) : option (expr * list token) :=
        andThen (unary ts) (fun '(a, ts1) =>
          match ts1 with
          | TPunct c :: ts2 =>
              if Ascii.eqb c ">" then
                andThen (unary ts2) (fun '(b, ts3) => Some (EGt a b, ts3))
              else if Ascii.eqb c "<" then
                andThen (unary ts2) (fun '(b, ts3) => Some (ELt a b, ts3))
              else Some (a, ts1)
          | _ => Some (a, ts1)
          end) in
      andThen (relational ts) (fun '(c, ts1) =>
        match ts1 with
        | TPunct q :: ts2 =>
            if Ascii.eqb q "?" then
              andThen (parseExpr fuel' ts2) (fun '(a, ts3) =>
              andThen (expect ":" ts3) (fun ts4 =>
              andThen (parseExpr fuel' ts4) (fun '(b, ts5) =>
              Some (ECond c a b, ts5))))
            else Some (c, ts1)
        | _ => Some (c, ts1)
        end)
  end.

(** Statements up to the closing brace of their block. *)
Fixpoint parseBlock (fuel : nat) (ts : list token)
  : option (list stmt * list token) :=
  match fuel with
  | O => None
  | S fuel' =>
      let braced (ts : list token) : option (list stmt * list token) :=
        andThen (expect "{" ts) (fun ts1 =>
        andThen (parseBlock fuel' ts1) (fun '(b, ts2) =>
        andThen (expect "}" ts2) (fun ts3 => Some (b, ts3)))) in
      let optSemi (ts : list token) : list token :=
        match expect ";" ts with Some ts' => ts' | None => ts end in
      let more (s : stmt) (ts : list token) : option (list stmt * list token) :=
        andThen (parseBlock fuel' ts) (fun '(ss, ts') => Some (s :: ss, ts')) in
      match ts with
      | TIdent x :: ts1 =>
          if String.eqb x "return" then
            match ts1 with
            | TPunct c :: _ =>
                if Ascii.eqb c "}" || Ascii.eqb c ";"
                then more (SReturn None) (optSemi ts1)
                else andThen (parseExpr (S (List.length ts1)) ts1) (fun '(e, ts2) =>
                     more (SReturn (Some e)) (optSemi ts2))
            | _ => andThen (parseExpr (S (List.length ts1)) ts1) (fun '(e, ts2) =>
                   more (SReturn (Some e)) (optSemi ts2))
            end
          else if String.eqb x "if" then
            andThen (expect "(" ts1) (fun ts2 =>
            andThen (parseExpr (S (List.length ts2)) ts2) (fun '(c, ts3) =>
            andThen (expect ")" ts3) (fun ts4 =>
            andThen (braced ts4) (fun '(thenB, ts5) =>
              match expectWord "else" ts5 with
              | Some ts6 =>
                  andThen (braced ts6) (fun '(elseB, ts7) =>
                  more (SIf c thenB (Some elseB)) ts7)
              | None => more (SIf c thenB None) ts5
              end))))
          else if String.eqb x "for" then
            andThen (expect "(" ts1) (fun ts2 =>
            andThen (expectWord "const" ts2) (fun ts3 =>
              match ts3 with
              | TIdent v :: ts4 =>
                  if isKeyword v then None else
                  andThen (expectWord "of" ts4) (fun ts5 =>
                  andThen (parseExpr (S (List.length ts5)) ts5) (fun '(e, ts6) =>
                  andThen (expect ")" ts6) (fun ts7 =>
                  andThen (braced ts7) (fun '(loopB, ts8) =>
                  more (SForOf v e loopB) ts8))))
              | _ => None
              end))
          else None
      | TPunct c :: _ => if Ascii.eqb c "}" then Some ([], ts) else None
      | _ => None
      end
  end.

Fixpoint parseParams (fuel : nat) (ts : list token)
  : option (list string * list token) :=
  match fuel, ts with
  | S fuel', TIdent x :: TPunct c :: ts' =>
      if isKeyword x then None
      else if Ascii.eqb c "," then
        andThen (parseParams fuel' ts') (fun '(xs, ts2) => Some (x :: xs, ts2))
      else if Ascii.eqb c ")" then Some ([x], TPunct c :: ts')
      else None
  | _, _ => None
  end.

Record program : Type := mkProgram {
  p_name : string;
  p_params : list string;
  p_body : list stmt
}.

(** [return function name(params) { body };] *)
Definition parseProgram (ts : list token) : option program :=
  andThen (expectWord "return" ts) (fun ts1 =>
  andThen (expectWord "function" ts1) (fun ts2 =>
    match ts2 with
    | TIdent name :: ts3 =>
        if isKeyword name then None else
        andThen (expect "(" ts3) (fun ts4 =>
        andThen (match expect ")" ts4 with
                 | Some _ => Some ([], ts4)
                 | None => parseParams (List.length ts4) ts4
                 end) (fun '(params, ts5) =>
        andThen (expect ")" ts5) (fun ts6 =>
        andThen (expect "{" ts6) (fun ts7 =>
        andThen (parseBlock (S (List.length ts7)) ts7) (fun '(b, ts8) =>
        andThen (expect "}" ts8) (fun ts9 =>
          match ts9 with
          | [] => Some (mkProgram name params b)
          | [TPunct c] =>
              if Ascii.eqb c ";" then Some (mkProgram name params b) else None
          | _ => None
          end))))))
    | _ => None
    end)).

(** Evaluation.  [None] stands for an operation outside the fragment. *)
Definition env : Type := list (string * JSValue).

Fixpoint lookup (x : string) (rho : env) : option JSValue :=
  match rho with
  | [] => None
  | (y, v) :: rho' => if String.eqb x y then Some v else lookup x rho'
  end.

Definition truthy (v : JSValue) : bool :=
  match v with
  | JSUndefined | JSNull => false
  | JSBool b => b
  | JSNumber z => negb (Z.eqb z 0)
  | JSString s => negb (String.eqb s EmptyString)
  | JSArray _ | JSObject _ => true
  end.

Fixpoint eval (rho : env) (e : expr) : option JSValue :=
  match e with
  | ENum z => Some (JSNumber z)
  | EVar x => lookup x rho
  | EBool b => Some (JSBool b)
  | ENull => Some JSNull
  | EUndefined => Some JSUndefined
  | ENeg a =>
      match eval rho a with
      | Some (JSNumber z) => Some (JSNumber (- z))
      | _ => None
      end
  | ELt a b =>
      match eval rho a, eval rho b with
      | Some (JSNumber x), Some (JSNumber y) => Some (JSBool (Z.ltb x y))
      | _, _ => None
      end
  | EGt a b =>
      match eval rho a, eval rho b with
      | Some (JSNumber x), Some (JSNumber y) => Some (JSBool (Z.gtb x y))
      | _, _ => None
      end
  | ECond c a b =>
      match eval rho c with
      | Some v => if truthy v then eval rho a else eval rho b
      | None => None
      end
  end.

(** How a statement ends: it falls through, returns, or leaves the fragment. *)
Inductive flow : Type :=
| Next
| Return (v : JSValue)
| Outside.

Fixpoint exec (rho : env) (s : stmt) {struct s} : flow :=
  let block := fix block (rho : env) (ss : list stmt) {struct ss} : flow :=
    match ss with
    | [] => Next
    | s' :: ss' =>
        match exec rho s' with
        | Next => block rho ss'
        | f => f
        end
    end in
  match s with
  | SReturn None => Return JSUndefined
  | SReturn (Some e) =>
      match eval rho e with Some v => Return v | None => Outside end
  | SIf c thenB elseB =>
      match eval rho c with
      | Some v =>
          if truthy v then block rho thenB
          else match elseB with
               | Some ss => block rho ss
               | None => Next
               end
      | None => Outside
      end
  | SForOf x e loopB =>
      match eval rho e with
      | Some (JSArray elems) =>
          (fix each (elems : list JSValue) : flow :=
             match elems with
             | [] => Next
             | v :: rest =>
                 match block ((x, v) :: rho) loopB with
                 | Next => each rest
                 | f => f
                 end
             end) elems
      | _ => Outside
      end
  end.

Fixpoint execBlock (rho : env) (ss : list stmt) : flow :=
  match ss with
  | [] => Next
  | s :: ss' =>
      match exec rho s with
      | Next => execBlock rho ss'
      | f => f
      end
  end.

(** Parameters bound to the arguments of the call, [undefined] when the
    call has fewer. *)
Fixpoint bindArgs (params : list string) (args : list JSValue) : env :=
  match params with
  | [] => []
  | x :: params' =>
      match args with
      | [] => (x, JSUndefined) :: bindArgs params' []
      | v :: args' => (x, v) :: bindArgs params' args'
      end
  end.

Definition callProgram (p : program) : Callable := fun args =>
  match execBlock (bindArgs (p_params p) args) (p_body p) with
  | Next => Returns JSUndefined
  | Return v => Returns v
  | Outside => Throws (ErrorObject "operation outside the modelled fragment")
  end.

(** [new Function(jsCode)()] on the fragment. *)
Definition newFunction (jsCode : string) : result Callable :=
  match andThen (tokens jsCode) parseProgram with
  | Some p => Ok (callProgram p)
  | None => Err "SyntaxError: text outside the modelled fragment"
  end.

End JSFragment.

(* ================================================================= *)
(** ** A concrete runtime for the examples *)

Module Runtime.
Import Str.

Fixpoint digitsOf (fuel : nat) (n : nat) (acc : string) : string :=
  match fuel with
  | O => acc
  | S fuel' =>
      let acc' := String (ascii_of_nat (48 + Nat.modulo n 10)) acc in
      if Nat.ltb n 10 then acc' else digitsOf fuel' (Nat.div n 10) acc'
  end.

(** The decimal text of an integer. *)
Definition decimal (z : Z) : string :=
  let n := Z.to_nat (Z.abs z) in
  let ds := digitsOf (S n) n EmptyString in
  if Z.ltb z 0 then String "-" ds else ds.

Definition quote : string := String Transpiler.dquote EmptyString.

(** A string literal of JSON; the two characters that need a backslash in
    the texts used here are the quote and the backslash itself. *)
Fixpoint escape (s : string) : string :=
  match s with
  | EmptyString => EmptyString
  | String c s' =>
      if Ascii.eqb c Transpiler.dquote || Ascii.eqb c "\"
      then String "\" (String c (escape s'))
      else String c (escape s')
  end.

Fixpoint join (sep : string) (xs : list string) : string :=
  match xs with
  | [] => EmptyString
  | [x] => x
  | x :: xs' => x ++ sep ++ join sep xs'
  end.

(** [JSON.stringify]: [undefined] has no text, stands as [null] inside an
    array and is left out of an object. *)
Fixpoint stringify (v : JSValue) : option string :=
  match v with
  | JSUndefined => None
  | JSNull => Some "null"
  | JSBool b => Some (if b then "true" else "false")
  | JSNumber z => Some (decimal z)
  | JSString s => Some (quote ++ escape s ++ quote)
  | JSArray elems =>
      Some ("[" ++ join ","
              (map (fun e => match stringify e with
                             | Some t => t
                             | None => "null"
                             end) elems) ++ "]")
  | JSObject fields =>
      Some ("{" ++ join ","
              ((fix each (fs : list (string * JSValue)) : list string :=
                  match fs with
                  | [] => []
                  | (k, e) :: fs' =>
                      match stringify e with
                      | Some t => (quote ++ escape k ++ quote ++ ":" ++ t) :: each fs'
                      | None => each fs'
                      end
                  end) fields) ++ "}")
  end.

(** [String(v)] *)
Fixpoint text (v : JSValue) : string :=
  match v with
  | JSUndefined => "undefined"
  | JSNull => "null"
  | JSBool b => if b then "true" else "false"
  | JSNumber z => decimal z
  | JSString s => s
  | JSArray elems =>
      join "," (map (fun e => match e with
                              | JSUndefined | JSNull => EmptyString
                              | _ => text e
                              end) elems)
  | JSObject _ => "[object Object]"
  end.

(** A clock that advances by 3 units between two readings. *)
Definition ticking (n : nat) : Z := (1000 + 3 * Z.of_nat n)%Z.

Definition host : Host := mkHost ticking stringify text JSFragment.newFunction.

End Runtime.

(* ================================================================= *)
(** ** Sources used in the examples *)

Module Sources.
Import Str.

Definition lines (ls : list string) : string := Runtime.join nl ls.

(** A three-level nesting, if / for / if. *)
Definition nested : string :=
  lines ["def f(x):";
         "    if x > 0:";
         "        for i in x:";
         "            if i > 1:";
         "                return i"].

(** An [if] with its [else]. *)
Definition ifElse : string :=
  lines ["def f(x):";
         "    if x > 0:";
         "        return 1";
         "    else:";
         "        return 2"].

(** A conditional expression behind [return]. *)
Definition absolute : string :=
  lines ["def f(x):";
         "    return x if x > 0 else -x"].

(** The identity on one parameter. *)
Definition identity : string :=
  lines ["def f(x):";
         "    return x"].

(** A text without any [def] header. *)
Definition noHeader : string := "x = 1".

(** A conditional expression whose first operand is one itself. *)
Definition nestedConditional : string :=
  lines ["def f(p, q):";
         "    return (1 if p else 2) if q else 3"].

(** A function that appends to the list it is given and counts it. *)
Definition appender : string :=
  lines ["def f(nums):";
         "    nums.append(0)";
         "    return len(nums)"].

(** A function that counts the list it is given. *)
Definition counter : string :=
  lines ["def f(nums):";
         "    return len(nums)"].

End Sources.

(* ================================================================= *)
(** ** Notions used in the statements *)

Module Notions.
Import Harness.

(** The parameter count that the header of the compiled function declares:
    the entries of its raw parameter list. *)
Definition declaredParamCount (fn : CompiledFunction) : nat :=
  if String.eqb (Str.trim (fn_params fn)) EmptyString then 0
  else List.length (Str.splitOn "," (fn_params fn)).

(** The case's share of a result that does not depend on the clock. *)
Definition verdict (r : TestResult) : bool * JSValue * option string :=
  (passed r, actual r, error r).

(** The result recorded for a case whose call threw [t]. *)
Definition failedResult (h : Host) (testCase : TestCase) (t : JSThrown)
  : TestResult :=
  mkTestResult false (tc_input testCase) (tc_expected testCase) JSNull
    (Some (errorMessage h t)) 0.

(** The argument list the arity rule asks for, [k] being the parameter
    count it compares with. *)
Inductive ArgsFor (k : nat) (v : JSValue) : list JSValue -> Prop :=
| Spread : forall elems,
    v = JSArray elems -> List.length elems = k -> ArgsFor k v elems
| WrapArray : forall elems,
    v = JSArray elems -> List.length elems <> k -> ArgsFor k v [v]
| WrapValue :
    (forall elems, v <> JSArray elems) -> ArgsFor k v [v].

(** The braces of a text, in order. *)
Definition braces (s : string) : string :=
  Str.filter (fun c => Ascii.eqb c "{" || Ascii.eqb c "}") s.

(** Every closing brace closes a block opened before it in the same text,
    and none stays open: [depth] counts the open blocks. *)
Fixpoint balancedFrom (depth : nat) (s : string) : bool :=
  match s with
  | EmptyString => Nat.eqb depth 0
  | String c s' =>
      if Ascii.eqb c "{" then balancedFrom (S depth) s'
      else if Ascii.eqb c "}" then
        match depth with
        | O => false
        | S d => balancedFrom d s'
        end
      else balancedFrom depth s'
  end.

Definition balanced (s : string) : bool := balancedFrom 0 s.

(** The last character of [w] when it has one, [prev] otherwise: the
    character that stands before what follows [w]. *)
Fixpoint lastOr (prev : option ascii) (w : string) : option ascii :=
  match w with
  | EmptyString => prev
  | String c w' => lastOr (Some c) w'
  end.

Fixpoint allChars (p : ascii -> bool) (s : string) : bool :=
  match s with
  | EmptyString => true
  | String c s' => p c && allChars p s'
  end.

Definition notBlank (c : option ascii) : bool :=
  match c with
  | Some a => negb (Str.isSpace a)
  | None => false
  end.

(** An operand of [a if cond else b]: a non-empty text on one line that
    neither starts nor ends with a blank. *)
Definition operand (s : string) : bool :=
  notBlank (Regex.head s) && notBlank (lastOr None s)
  && allChars (fun c => negb (Str.isLineTerminator c)) s.

(** [s] starts with [w] and a blank behind it. *)
Fixpoint aloneAt (w s : string) {struct w} : bool :=
  match w, s with
  | EmptyString, String c _ => Str.isSpace c
  | String a w', String c s' => Ascii.eqb a c && aloneAt w' s'
  | _, EmptyString => false
  end.

(** The word [w] stands in [s] between two blanks. *)
Fixpoint standsAlone (w s : string) : bool :=
  match s with
  | EmptyString => false
  | String c s' => (Str.isSpace c && aloneAt w s') || standsAlone w s'
  end.

(** The bounds of the failed-attempt counter and its tie to the phase. *)
Definition counterInvariant (s : Scene.LeetCodeChallenge) : Prop :=
  (0 <= Scene.failedAttempts s <= Scene.MAX_ATTEMPTS)%Z /\
  (Scene.phase s = Scene.GameOver <->
   Scene.failedAttempts s = Scene.MAX_ATTEMPTS).

(** The message shown when no header is found: the error of
    [transpilePythonToJS], wrapped by its own [catch] and by the one of
    [evaluateUserCode]. *)
Definition missingHeaderMessage : string :=
  "Compilation error: Python transpilation error: Could not find Python function definition".

End Notions.

(* ================================================================= *)
(** ** What a regular expression matches *)

Module Matching.
Import Str Regex Notions.

(** The iterations of a star: any number of matches of its body one after
    the other, each of them consuming some text. *)
Inductive iter
    (R : option ascii -> string -> captures ->
         option ascii -> string -> captures -> Prop)
  : option ascii -> string -> captures ->
    option ascii -> string -> captures -> Prop :=
| iter_done : forall prev s cs, iter R prev s cs prev s cs
| iter_more : forall prev s cs p1 s1 cs1 p2 s2 cs2,
    R prev s cs p1 s1 cs1 ->
    String.length s1 < String.length s ->
    iter R p1 s1 cs1 p2 s2 cs2 ->
    iter R prev s cs p2 s2 cs2.

(** [matches r prev s cs prev' s' cs']: [r] matches a front part of [s],
    which [prev] precedes, and leaves [s'], which [prev'] precedes; the
    groups [cs] become [cs'].  The order in which the matcher tries the
    alternatives plays no part here. *)
Fixpoint matches (r : regex) (prev : option ascii) (s : string) (cs : captures)
    (prev' : option ascii) (s' : string) (cs' : captures) {struct r} : Prop :=
  match r with
  | Eps => prev' = prev /\ s' = s /\ cs' = cs
  | Class p =>
      exists c, s = String c s' /\ p c = true /\ prev' = Some c /\ cs' = cs
  | Seq r1 r2 =>
      exists p1 s1 cs1,
        matches r1 prev s cs p1 s1 cs1 /\ matches r2 p1 s1 cs1 prev' s' cs'
  | Star _ r1 => iter (matches r1) prev s cs prev' s' cs'
  | Group n r1 =>
      exists cs1,
        matches r1 prev s cs prev' s' cs1 /\
        cs' = (n, take (String.length s - String.length s') s) :: cs1
  | Bol => prev = None /\ prev' = prev /\ s' = s /\ cs' = cs
  | Eol => s = EmptyString /\ prev' = prev /\ s' = s /\ cs' = cs
  | WordB =>
      xorb (isWordOpt prev) (isWordOpt (head s)) = true /\
      prev' = prev /\ s' = s /\ cs' = cs
  end.

(** No group holds a brace. *)
Definition cleanCaps (cs : captures) : Prop :=
  Forall (fun e : nat * string => braces (snd e) = EmptyString) cs.

End Matching.

(* ================================================================= *)
(** ** The harness when the user function has effects

    The function that [new Function(jsCode)()] hands back is host code.
    It is given the very arrays and objects that the test cases hold and
    can change them, and it can read and change what is around it (global
    variables, the random source, the date), for which [Ambient] stands.
    A call takes the state around it and the argument list; it yields its
    outcome, the argument list as the call leaves it, and the state around
    it afterwards.  The test cases are trees without sharing, as the JSON
    text they come from, so that what a call does to its arguments is all
    it does to the cases. *)

Module Shared.
Import Harness.

Definition EffectfulCallable (Ambient : Type) : Type :=
  Ambient -> list JSValue -> CallOutcome * list JSValue * Ambient.

Record CompiledEffectful (Ambient : Type) : Type := mkCompiledEffectful {
  fe_name : string;
  fe_params : string;
  fe_call : EffectfulCallable Ambient
}.
Arguments mkCompiledEffectful {Ambient} fe_name fe_params fe_call.
Arguments fe_name {Ambient} c.
Arguments fe_params {Ambient} c.
Arguments fe_call {Ambient} c.

(** Arrays and objects are held by reference; numbers, texts, truth
    values, [null] and [undefined] cannot be changed by who is given
    them. *)
Definition isObject (v : JSValue) : bool :=
  match v with
  | JSArray _ | JSObject _ => true
  | _ => false
  end.

(** What a holder of [v] sees once a call that was given [v] has left
    [v'] in its place. *)
Definition seenAfter (v v' : JSValue) : JSValue :=
  if isObject v then v' else v.

Fixpoint seenAfterAll (vs vs' : list JSValue) : list JSValue :=
  match vs, vs' with
  | v :: rest, v' :: rest' => seenAfter v v' :: seenAfterAll rest rest'
  | _, _ => vs
  end.

(** [testCase.input] after the call: passed as the one argument, it is
    the input itself that the call was given; spread, it keeps its
    elements, each as the call has left it. *)
Definition inputAfter (problem : LeetCodeProblem) (testCase : TestCase)
    (argsAfter : list JSValue) : JSValue :=
  match tc_input testCase with
  | JSArray elems =>
      if Nat.eqb (List.length elems) (List.length (parameters problem))
      then JSArray (seenAfterAll elems argsAfter)
      else seenAfter (tc_input testCase) (hd (tc_input testCase) argsAfter)
  | v => seenAfter v (hd v argsAfter)
  end.

(** A function without effects, as a function that may have some. *)
Definition lift {Ambient : Type} (f : Callable) : EffectfulCallable Ambient :=
  fun ambient args => (f args, args, ambient).

(** The call leaves its arguments as it found them. *)
Definition leavesArguments {Ambient : Type} (f : EffectfulCallable Ambient)
  : Prop :=
  forall ambient args, seenAfterAll args (snd (fst (f ambient args))) = args.

(** The outcome of the call depends on its arguments alone. *)
Definition ignoresAmbient {Ambient : Type} (f : EffectfulCallable Ambient)
  : Prop :=
  forall ambient1 ambient2 args,
    fst (fst (f ambient1 args)) = fst (fst (f ambient2 args)).

Section WithReader.
Variable Ambient : Type.

(** How the host reads an emitted text: [new Function(jsCode)()]. *)
Variable newFunction : string -> result (EffectfulCallable Ambient).

Definition transpilePythonToJS (pythonCode : string)
  : result (CompiledEffectful Ambient) :=
  rethrow "Python transpilation error: "
    (bind (Transpiler.emit pythonCode) (fun e =>
     bind (newFunction (Transpiler.e_jsCode e)) (fun fn =>
     Ok (mkCompiledEffectful (Transpiler.e_functionName e)
           (Transpiler.e_params e) fn)))).

Definition evaluateUserCode (code : string) : result (CompiledEffectful Ambient) :=
  rethrow "Compilation error: " (transpilePythonToJS code).

Variable h : Host.

(** The callback given to [map], as in [Harness.runCase]; it also yields
    the test case as the call leaves it. *)
Definition runCase (userFunction : EffectfulCallable Ambient)
    (problem : LeetCodeProblem) (st : World * Ambient) (testCase : TestCase)
  : TestResult * (World * Ambient) * TestCase :=
  let (w, ambient) := st in
  let startTime := now h (reads w) in
  let args := callArgs problem testCase in
  let w1 := mkWorld (S (reads w)) (calls w ++ [args])%list in
  let '(outcome, argsAfter, ambient1) := userFunction ambient args in
  let testCase1 :=
    mkTestCase (inputAfter problem testCase argsAfter) (tc_expected testCase) in
  match outcome with
  | Returns result =>
      let executionTime := (now h (reads w1) - startTime)%Z in
      (mkTestResult
         (sameText (JSON_stringify h result) (JSON_stringify h (tc_expected testCase)))
         (tc_input testCase1) (tc_expected testCase) result None executionTime,
       (mkWorld (S (reads w1)) (calls w1), ambient1), testCase1)
  | Throws t =>
      (mkTestResult false (tc_input testCase1) (tc_expected testCase) JSNull
         (Some (errorMessage h t)) 0%Z,
       (w1, ambient1), testCase1)
  end.

(** [cases.map(callback)]: the results, what the run leaves behind, and
    the cases as the run leaves them. *)
Fixpoint runCases (userFunction : EffectfulCallable Ambient)
    (problem : LeetCodeProblem) (st : World * Ambient) (cases : list TestCase)
  : list TestResult * (World * Ambient) * list TestCase :=
  match cases with
  | [] => ([], st, [])
  | testCase :: rest =>
      let '(r, st1, testCase1) := runCase userFunction problem st testCase in
      let '(rs, st2, rest1) := runCases userFunction problem st1 rest in
      (r :: rs, st2, testCase1 :: rest1)
  end.

End WithReader.

Arguments transpilePythonToJS {Ambient} newFunction pythonCode.
Arguments evaluateUserCode {Ambient} newFunction code.
Arguments runCase {Ambient} h userFunction problem st testCase.
Arguments runCases {Ambient} h userFunction problem st cases.

End Shared.

(* ================================================================= *)
(** ** A second fragment of the host language: code that changes a list

    A reader and an evaluator for function expressions whose body is made
    of [x.push(e)] statements and of [return e], over integer literals,
    variables and [x.length], the length of an array or of a text.  A
    [return] and its expression stand on one line.  A call yields the
    arguments as the body leaves them; the state around the function is
    not touched.  Text outside the fragment is refused as a syntax error;
    an operation on values the fragment does not cover throws. *)

Module JSMutation.
Import Str JSFragment Shared.

Definition isPunct (c : ascii) : bool :=
  existsb (Ascii.eqb c) ["("; ")"; "{"; "}"; ";"; "."; ","]%char.

Fixpoint lex (fuel : nat) (s : string) : option (list token) :=
  match fuel with
  | O => None
  | S fuel' =>
      match s with
      | "" => Some []
      | String c s' =>
          if isSpace c then lex fuel' s'
          else if isDigit c then
            let (ds, rest) := spanWhile isDigit s in
            option_map (cons (TNum (digitsValue 0 ds))) (lex fuel' rest)
          else if isIdentStart c then
            let (x, rest) := spanWhile isWord s in
            option_map (cons (TIdent x)) (lex fuel' rest)
          else if isPunct c then option_map (cons (TPunct c)) (lex fuel' s')
          else None
      end
  end.

Definition tokens (s : string) : option (list token) :=
  lex (S (String.length s)) s.

Inductive expr : Type :=
| ENum (z : Z)
| EVar (x : string)
| ELength (x : string).

Inductive stmt : Type :=
| SPush (x : string) (e : expr)
| SReturn (e : expr).

Definition parseExpr (ts : list token) : option (expr * list token) :=
  match ts with
  | TNum z :: ts' => Some (ENum z, ts')
  | TIdent x :: ts' =>
      if isKeyword x then None
      else
        match ts' with
        | TPunct c :: TIdent m :: ts2 =>
            if Ascii.eqb c "." then
              if String.eqb m "length" then Some (ELength x, ts2) else None
            else Some (EVar x, ts')
        | _ => Some (EVar x, ts')
        end
  | _ => None
  end.

Fixpoint parseBlock (fuel : nat) (ts : list token)
  : option (list stmt * list token) :=
  match fuel with
  | O => None
  | S fuel' =>
      let optSemi (ts : list token) : list token :=
        match expect ";" ts with Some ts' => ts' | None => ts end in
      let more (s : stmt) (ts : list token) : option (list stmt * list token) :=
        andThen (parseBlock fuel' ts) (fun '(ss, ts') => Some (s :: ss, ts')) in
      match ts with
      | TIdent x :: ts1 =>
          if String.eqb x "return" then
            andThen (parseExpr ts1) (fun '(e, ts2) =>
            more (SReturn e) (optSemi ts2))
          else if isKeyword x then None
          else
            andThen (expect "." ts1) (fun ts2 =>
            andThen (expectWord "push" ts2) (fun ts3 =>
            andThen (expect "(" ts3) (fun ts4 =>
            andThen (parseExpr ts4) (fun '(e, ts5) =>
            andThen (expect ")" ts5) (fun ts6 =>
            more (SPush x e) (optSemi ts6))))))
      | TPunct c :: _ => if Ascii.eqb c "}" then Some ([], ts) else None
      | _ => None
      end
  end.

Record program : Type := mkProgram {
  p_name : string;
  p_params : list string;
  p_body : list stmt
}.

(** [return function name(params) { body };] *)
Definition parseProgram (ts : list token) : option program :=
  andThen (expectWord "return" ts) (fun ts1 =>
  andThen (expectWord "function" ts1) (fun ts2 =>
    match ts2 with
    | TIdent name :: ts3 =>
        if isKeyword name then None else
        andThen (expect "(" ts3) (fun ts4 =>
        andThen (match expect ")" ts4 with
                 | Some _ => Some ([], ts4)
                 | None => parseParams (List.length ts4) ts4
                 end) (fun '(params, ts5) =>
        andThen (expect ")" ts5) (fun ts6 =>
        andThen (expect "{" ts6) (fun ts7 =>
        andThen (parseBlock (S (List.length ts7)) ts7) (fun '(b, ts8) =>
        andThen (expect "}" ts8) (fun ts9 =>
          match ts9 with
          | [] => Some (mkProgram name params b)
          | [TPunct c] =>
              if Ascii.eqb c ";" then Some (mkProgram name params b) else None
          | _ => None
          end))))))
    | _ => None
    end)).

Definition eval (rho : env) (e : expr) : option JSValue :=
  match e with
  | ENum z => Some (JSNumber z)
  | EVar x => lookup x rho
  | ELength x =>
      match lookup x rho with
      | Some (JSArray elems) => Some (JSNumber (Z.of_nat (List.length elems)))
      | Some (JSString s) => Some (JSNumber (Z.of_nat (String.length s)))
      | _ => None
      end
  end.

(** The variable [x] now holds [v]. *)
Fixpoint update (x : string) (v : JSValue) (rho : env) : env :=
  match rho with
  | [] => []
  | (y, u) :: rho' =>
      if String.eqb x y then (y, v) :: rho' else (y, u) :: update x v rho'
  end.

(** The statements in turn; [x.push(e)] puts the value of [e] behind the
    elements of the array that [x] holds. *)
Fixpoint execBlock (rho : env) (ss : list stmt) : flow * env :=
  match ss with
  | [] => (Next, rho)
  | SReturn e :: _ =>
      (match eval rho e with Some v => Return v | None => Outside end, rho)
  | SPush x e :: ss' =>
      match lookup x rho, eval rho e with
      | Some (JSArray elems), Some v =>
          execBlock (update x (JSArray (elems ++ [v])) rho) ss'
      | _, _ => (Outside, rho)
      end
  end.

(** The arguments as the body leaves them: each is what its parameter
    holds at the end. *)
Fixpoint argsAfter (params : list string) (args : list JSValue) (rho : env)
  : list JSValue :=
  match params, args with
  | x :: params', v :: args' =>
      match lookup x rho with
      | Some v' => v'
      | None => v
      end :: argsAfter params' args' rho
  | _, _ => args
  end.

Definition callProgram (p : program) : EffectfulCallable unit :=
  fun ambient args =>
    let (f, rho) := execBlock (bindArgs (p_params p) args) (p_body p) in
    (match f with
     | Next => Returns JSUndefined
     | Return v => Returns v
     | Outside => Throws (ErrorObject "operation outside the modelled fragment")
     end,
     argsAfter (p_params p) args rho, ambient).

(** [new Function(jsCode)()] on the fragment. *)
Definition newFunction (jsCode : string) : result (EffectfulCallable unit) :=
  match andThen (tokens jsCode) parseProgram with
  | Some p => Ok (callProgram p)
  | None => Err "SyntaxError: text outside the modelled fragment"
  end.

End JSMutation.


(* ================================================================= *)
(** ** [showTestResults]: what the results overlay holds *)

Module Overlay.
Import Harness.

(** The texts added for the listed results, each by its parts and its
    vertical position in the overlay. *)
Inductive Item : Type :=
| TestLine (y : Z) (pass : bool) (number : nat) (inputText : option string)
| ErrorLine (y : Z) (message : string)
| MismatchLine (y : Z) (expectedText gotText : option string)
| MoreLine (y : Z) (count : nat).

Record ResultsOverlay : Type := mkOverlay {
  borderColor : Z;
  title : string;
  passedCount : nat;              (* the two numbers of the stats line *)
  totalCount : nat;
  warning : option Z;             (* the attempts announced as remaining *)
  items : list Item
}.

Definition green : Z := 65280.      (* 0x00ff00 *)
Definition red : Z := 16711680.     (* 0xff0000 *)

(** [result.error ? ... : ...]: [null] and the empty message are falsy. *)
Definition errorShown (e : option string) : option string :=
  match e with
  | Some m => if String.eqb m EmptyString then None else Some m
  | None => None
  end.

(** The body of the [for] loop over the displayed results, [i] counting
    from 0 and [yOffset] moving down by 30, and by 30 more under a failed
    test. *)
Fixpoint resultLines (h : Host) (yOffset : Z) (i : nat)
    (rs : list TestResult) : list Item * Z :=
  match rs with
  | [] => ([], yOffset)
  | r :: rest =>
      let line := TestLine yOffset (passed r) (i + 1) (JSON_stringify h (input r)) in
      if passed r then
        let (more, y') := resultLines h (yOffset + 30) (S i) rest in
        (line :: more, y')
      else
        let detail :=
          match errorShown (error r) with
          | Some m => ErrorLine (yOffset + 20) m
          | None =>
              MismatchLine (yOffset + 20) (JSON_stringify h (expected r))
                (JSON_stringify h (actual r))
          end in
        let (more, y') := resultLines h (yOffset + 30 + 30) (S i) rest in
        (line :: detail :: more, y')
  end.

Definition showTestResults (h : Host) (results : list TestResult)
    (isSubmission : bool) (attemptsRemaining : option Z) : ResultsOverlay :=
  let passedCount := List.length (List.filter passed results) in
  let totalCount := List.length results in
  let allPassed := Nat.eqb passedCount totalCount in
  let borderColor := if allPassed then green else red in
  let title :=
    if isSubmission
    then (if allPassed then "> ALL TESTS PASSED" else "> SOME TESTS FAILED")
    else "> TEST RESULTS" in
  let warning :=
    match attemptsRemaining with
    | Some k => if isSubmission && Z.ltb 0 k then Some k else None
    | None => None
    end in
  let maxDisplay := Nat.min 5 (List.length results) in
  let (lines, yOffset) := resultLines h (-80) 0 (firstn maxDisplay results) in
  let more :=
    if Nat.ltb maxDisplay (List.length results)
    then [MoreLine yOffset (List.length results - maxDisplay)]
    else [] in
  mkOverlay borderColor title passedCount totalCount warning (lines ++ more)%list.

Definition itemY (x : Item) : Z :=
  match x with
  | TestLine y _ _ _ | ErrorLine y _ | MismatchLine y _ _ | MoreLine y _ => y
  end.

Definition isTestLine (x : Item) : bool :=
  match x with TestLine _ _ _ _ => true | _ => false end.

(** What holds of an overlay request of the scene: a submission is shown
    with a failed test and with one or two attempts left, a trial run
    without a count of attempts. *)
Definition wellShown (x : Scene.Shown) : Prop :=
  match x with
  | Scene.ShowTestResults results true attemptsRemaining =>
      forallb passed results = false /\
      (attemptsRemaining = Some 1%Z \/ attemptsRemaining = Some 2%Z)
  | Scene.ShowTestResults results false attemptsRemaining =>
      attemptsRemaining = None
  | _ => True
  end.

(** The overlay drawn for a request. *)
Definition overlayOf (h : Host) (x : Scene.Shown) : option ResultsOverlay :=
  match x with
  | Scene.ShowTestResults results isSubmission attemptsRemaining =>
      Some (showTestResults h results isSubmission attemptsRemaining)
  | _ => None
  end.

End Overlay.

(* ================================================================= *)
(** ** The [Game] scene: from a challenge of the data file to a problem *)

Module GameData.
Import Str Regex.

(** The fields of a challenge that [convertChallengeToProblem] reads to
    fill what the challenge scene uses. *)
Record Challenge : Type := mkChallenge {
  ch_id : string;
  ch_functionName : string;
  ch_testCases : list TestCase;
  ch_reward : Z
}.

Definition isLower (c : ascii) : bool :=
  let n := code c in Nat.leb 97 n && Nat.leb n 122.

Definition isUpper (c : ascii) : bool :=
  let n := code c in Nat.leb 65 n && Nat.leb n 90.

Definition isDigit (c : ascii) : bool :=
  let n := code c in Nat.leb 48 n && Nat.leb n 57.

(** [c.toUpperCase()] on [a-z]. *)
Definition upper (c : ascii) : ascii :=
  if isLower c then ascii_of_nat (code c - 32) else c.

(** [c.toLowerCase()] on the code units below 256: the letters [A-Z] and
    the capital letters of Latin-1, all but the multiplication sign. *)
Definition lower (c : ascii) : ascii :=
  let n := code c in
  if isUpper c
     || (Nat.leb 192 n && Nat.leb n 222 && negb (Nat.eqb n 215))
  then ascii_of_nat (n + 32) else c.

Fixpoint toLowerCase (s : string) : string :=
  match s with
  | EmptyString => EmptyString
  | String c s' => String (lower c) (toLowerCase s')
  end.

Fixpoint toUpperWord (s : string) : string :=
  match s with
  | EmptyString => EmptyString
  | String c s' => String (upper c) (toUpperWord s')
  end.

(** [_ ( [a-z] )], with the [g] flag *)
Definition snakeRe : regex := seqs [chr "_"; Group 1 (Class isLower)].

(** [( [A-Z] )], with the [g] flag *)
Definition capitalRe : regex := Group 1 (Class isUpper).

(** [_ ( \d+ ) $] *)
Definition numberRe : regex := seqs [chr "_"; Group 1 (plus (Class isDigit)); Eol].

Definition snakeToCamel (str : string) : string :=
  replaceAll snakeRe (fun f => toUpperWord (Transpiler.group 1 f)) str.

(** The Python name that [getDefaultStarterCode] derives from the
    camel-case function name. *)
Definition pythonFunctionName (functionName : string) : string :=
  toLowerCase
    (replaceAll capitalRe (fun f => "_" ++ Transpiler.group 1 f) functionName).

(** What the two replacements come to, character by character: an
    underscore before a small letter goes and the letter becomes a capital;
    a capital gets an underscore before it. *)
Fixpoint camelOf (s : string) : string :=
  match s with
  | String u (String c rest as s') =>
      if Ascii.eqb u "_" && isLower c
      then String (upper c) (camelOf rest)
      else String u (camelOf s')
  | _ => s
  end.

Fixpoint underscored (s : string) : string :=
  match s with
  | EmptyString => EmptyString
  | String c s' =>
      if isUpper c then String "_" (String c (underscored s'))
      else String c (underscored s')
  end.

(** [String.fromCharCode(n)], for a code unit below 256. *)
Definition fromCharCode (n : nat) : string := String (ascii_of_nat n) EmptyString.

(** [extractParameters]; [None] stands for the [undefined] that the input
    of a missing first test case is. *)
Definition extractParameters (input : option JSValue) : list string :=
  match input with
  | Some (JSArray elems) =>
      map (fun index => fromCharCode (97 + index)) (seq 0 (List.length elems))
  | _ => ["n"]
  end.

(** [parseInt] on a run of digits. *)
Fixpoint digitsValue (acc : Z) (s : string) : Z :=
  match s with
  | EmptyString => acc
  | String c s' => digitsValue (10 * acc + Z.of_nat (code c - 48)) s'
  end.

Definition problemNumber (id : string) : Z :=
  match search numberRe id with
  | Some numberMatch => digitsValue 0 (Transpiler.group 1 numberMatch)
  | None => 1%Z
  end.

(** The names that every object inherits; looked up in [difficultyMap],
    each yields a value that is truthy and has no [level]. *)
Definition inheritedKeys : list string :=
  ["constructor"; "hasOwnProperty"; "isPrototypeOf"; "propertyIsEnumerable";
   "toLocaleString"; "toString"; "valueOf"; "__proto__";
   "__defineGetter__"; "__defineSetter__"; "__lookupGetter__";
   "__lookupSetter__"].

(** [(difficultyMap[tier] || { level: 1, label: 'Easy' }).level], [None]
    being [undefined]. *)
Definition difficultyLevel (tier : string) : option Z :=
  if String.eqb tier "white" then Some 1%Z
  else if String.eqb tier "blue" then Some 5%Z
  else if String.eqb tier "black" then Some 9%Z
  else if existsb (String.eqb tier) inheritedKeys then None
  else Some 1%Z.

(** [getDifficultyColor]; every comparison with [undefined] is false. *)
Definition getDifficultyColor (difficulty : option Z) : string :=
  match difficulty with
  | Some d =>
      if Z.leb d 3 then "#4CAF50"
      else if Z.leb d 6 then "#FFC107"
      else if Z.leb d 8 then "#FF9800"
      else "#f44336"
  | None => "#f44336"
  end.

(** [parameters.join(', ')] *)
Definition joinParameters (parameters : list string) : string :=
  Runtime.join ", " parameters.

(** The fields of the converted problem that the challenge scene uses. *)
Record Problem : Type := mkConverted {
  p_id : string;
  p_number : Z;
  p_difficulty : option Z;
  p_functionName : string;
  p_parameters : list string;
  p_starterCodePython : string;
  p_testCases : list TestCase;
  p_hiddenTestCases : list TestCase;
  p_reward : Z
}.

Definition convertChallengeToProblem (challenge : Challenge) (tier : string)
  : Problem :=
  let functionName := snakeToCamel (ch_functionName challenge) in
  let parameters :=
    extractParameters (option_map tc_input (List.hd_error (ch_testCases challenge))) in
  let starterCodePython :=
    "def " ++ ch_functionName challenge ++ "(" ++ joinParameters parameters
      ++ "):" ++ nl ++ "    # Write your solution here" ++ nl ++ "    pass" in
  mkConverted (ch_id challenge) (problemNumber (ch_id challenge))
    (difficultyLevel tier) functionName parameters starterCodePython
    (ch_testCases challenge) [] (ch_reward challenge).

(** What the challenge scene receives as [data.problem]. *)
Definition launched (p : Problem) : LeetCodeProblem :=
  mkProblem (p_parameters p) (p_testCases p) (Some (p_hiddenTestCases p)).

(** [getDefaultStarterCode] *)
Definition getDefaultStarterCode (functionName : string)
    (parameters : list string) : string :=
  "def " ++ pythonFunctionName functionName ++ "(" ++ joinParameters parameters
    ++ "):" ++ nl ++ "    # Write your solution here" ++ nl ++ "    pass" ++ nl.

(** [this.problem.starterCodePython || this.getDefaultStarterCode()] *)
Definition initialCode (p : Problem) : string :=
  if String.eqb (p_starterCodePython p) EmptyString
  then getDefaultStarterCode (p_functionName p) (p_parameters p)
  else p_starterCodePython p.

End GameData.

(* ================================================================= *)
(** ** The [Game] scene: the score *)


Module Score.
Import QArith_base Qround Qminmax.
Local Open Scope Q_scope.

(** [score] and [lastDistanceScore].  The score moves by quarters and by
    whole numbers, on which the host's arithmetic is exact; it is held as a
    rational number. *)
Record Game : Type := mkGame {
  score : Q;
  lastDistanceScore : Z
}.

(** The reset at the end of [create]. *)
Definition create : Game := mkGame 0 0.

(** The score lines of [update], [distanceScore] being
    [Math.floor(this.distance)] of the frame. *)
Definition update (g : Game) (distanceScore : Z) : Game :=
  let distanceIncrease := (distanceScore - lastDistanceScore g)%Z in
  if Z.ltb 0 distanceIncrease then
    let scoreIncrease := inject_Z distanceIncrease * (1 # 4) in
    mkGame (score g + scoreIncrease) distanceScore
  else g.

(** [Math.floor(this.score)], the number on screen. *)
Definition shownScore (g : Game) : Z := Qfloor (score g).

(** The score line of [handleLaserCollision], for a hit that counts. *)
Definition laserHit (g : Game) : Game :=
  mkGame (Qmax 0 (inject_Z (Qfloor (score g / 2)))) (lastDistanceScore g).

(** [deductScore(points)], which is called with a whole number of
    points. *)
Definition deductScore (g : Game) (points : Z) : Game :=
  mkGame (Qmax 0 (score g - inject_Z points)) (lastDistanceScore g).

Inductive Event : Type :=
| Frame (distanceScore : Z)
| LaserHit
| Deduct (points : Z).

Definition step (g : Game) (e : Event) : Game :=
  match e with
  | Frame d => update g d
  | LaserHit => laserHit g
  | Deduct points => deductScore g points
  end.

Definition play (es : list Event) : Game := fold_left step es create.

(** A penalty takes points away. *)
Definition fair (e : Event) : Prop :=
  match e with
  | Deduct points => (0 <= points)%Z
  | _ => True
  end.

(** The score is not negative, is at most a quarter of the distance
    counted, and that distance is not negative. *)
Definition bounded (g : Game) : Prop :=
  0 <= score g /\ score g <= inject_Z (lastDistanceScore g) * (1 # 4) /\
  (0 <= lastDistanceScore g)%Z.

End Score.

(* ================================================================= *)
(** ** [RunnerPlayer]: jumps and slides *)

Module Player.

Definition MAX_JUMPS : Z := 2.

Record RunnerPlayer : Type := mkPlayer {
  isSliding : bool;
  jumpCount : Z;
  wasOnGround : bool
}.

(** The state of the fields as their initialisers leave it. *)
Definition initial : RunnerPlayer := mkPlayer false 0 true.

(** What one call of [update] reads from the engine: the keys that went
    down since the last frame, whether the sprite has a body and whether
    that body touches or is blocked below, and whether the slide animation
    exists. *)
Record Frame : Type := mkFrame {
  hasKeys : bool;                 (* [this.cursors] or [this.spaceKey] is set *)
  slidePressed : bool;
  jumpPressed : bool;
  hasBody : bool;
  touchingDown : bool;            (* [touching.down || blocked.down] *)
  slideAnimExists : bool
}.

Inductive Action : Type := Slide | Jump | DoubleJump.

Definition isOnGround (f : Frame) : bool := hasBody f && touchingDown f.

(** [handleInput], with the actions it starts. *)
Definition handleInput (p : RunnerPlayer) (f : Frame)
  : RunnerPlayer * list Action :=
  if negb (hasKeys f) then (p, [])
  else
    let (p1, a1) :=
      if slidePressed f && hasBody f && isOnGround f && negb (isSliding p)
      then
        (* slide() *)
        if slideAnimExists f
        then (mkPlayer true (jumpCount p) (wasOnGround p), [Slide])
        else (p, [])
      else (p, []) in
    if jumpPressed f && hasBody f && negb (isSliding p1) then
      if isOnGround f then
        (* jump() *)
        (mkPlayer (isSliding p1) 1 (wasOnGround p1), (a1 ++ [Jump])%list)
      else if Z.ltb (jumpCount p1) MAX_JUMPS then
        (* doubleJump() *)
        (mkPlayer (isSliding p1) 2 (wasOnGround p1), (a1 ++ [DoubleJump])%list)
      else (p1, a1)
    else (p1, a1).

(** [update], without the timers and positions it also maintains. *)
Definition update (p : RunnerPlayer) (f : Frame) : RunnerPlayer * list Action :=
  let (p1, acts) := handleInput p f in
  let currentlyOnGround := isOnGround f in
  let count :=
    if currentlyOnGround && negb (wasOnGround p1) then 0%Z else jumpCount p1 in
  (mkPlayer (isSliding p1) count currentlyOnGround, acts).

(** The listener of [animationcomplete], for the slide animation. *)
Definition slideComplete (p : RunnerPlayer) : RunnerPlayer :=
  mkPlayer false (jumpCount p) (wasOnGround p).

Inductive Event : Type :=
| Update (f : Frame)
| SlideAnimationComplete.

Definition step (p : RunnerPlayer) (e : Event) : RunnerPlayer * list Action :=
  match e with
  | Update f => update p f
  | SlideAnimationComplete => (slideComplete p, [])
  end.

(** The actions of a sequence of events, event by event. *)
Fixpoint run (p : RunnerPlayer) (es : list Event) : RunnerPlayer * list (list Action) :=
  match es with
  | [] => (p, [])
  | e :: rest =>
      let (p1, acts) := step p e in
      let (p2, more) := run p1 rest in
      (p2, acts :: more)
  end.

(** The frame of an event finds the player in the air. *)
Definition airborne (e : Event) : Prop :=
  match e with
  | Update f => isOnGround f = false
  | SlideAnimationComplete => True
  end.

End Player.

(* ================================================================= *)
(** ** Notions for the block structure of the emitted body *)

Module Blocks.
Import Str Transpiler Notions.

(** The closing braces of the flush, from depth [n] down to depth 1. *)
Fixpoint closers (n : nat) : string :=
  match n with
  | O => EmptyString
  | S k => closeBrace (S k) ++ closers k
  end.

(** The line rules push a level for the dedented line. *)
Definition opens (dedented : string) : bool :=
  negb (Nat.eqb (List.length (snd (translateLine dedented 0 []))) 0).

(** The translated line carries the one opening brace of the level it
    pushes, and no brace when it pushes none. *)
Definition keepsBraces (dedented : string) : bool :=
  String.eqb (braces (fst (translateLine dedented 0 [])))
    (if opens dedented then "{" else EmptyString).

(** The scan takes the dedented line for an [elif] or [else] header. *)
Definition takenForElse (dedented : string) : bool :=
  let jsLine := membership (basicConversions dedented) in
  match Regex.search forLoopRe jsLine with
  | Some _ => false
  | None =>
      negb (Regex.test (blockTestRe "if") (trim jsLine))
      && (Regex.test (blockTestRe "elif") (trim jsLine)
          || Regex.test elseTestRe (trim jsLine))
  end.

(** A body line that the scan passes over: blank, a comment, or [pass]. *)
Definition skipped (line : string) : bool :=
  String.eqb (trim line) EmptyString || startsWith "#" (trim line)
  || String.eqb (trim line) "pass".

(** No line of the body is taken for an [elif] or [else] header. *)
Definition noElseHeaders (pythonCode : string) : bool :=
  let lines := tl (splitOn newline pythonCode) in
  forallb (fun line =>
             skipped line
             || negb (takenForElse (drop (minIndentOf lines) line)))
    lines.

(** The invariant of the scan: the stack is not empty and the body, put
    before any text, opens as many blocks as the stack holds levels above
    its base. *)
Definition scanInvariant (st : scan) : Prop :=
  indentStack st <> [] /\
  forall (d : nat) (rest : string),
    balancedFrom d (body st ++ rest) =
    balancedFrom (d + (List.length (indentStack st) - 1)) rest.

End Blocks.

(* ================================================================= *)
(** ** Properties of the harness *)

Module HarnessFacts.
Import Harness Notions.

Section Lemmas.
Variable h : Host.
Variable userFunction : Callable.
Variable problem : LeetCodeProblem.

Lemma sameText_true (a b : option string) : sameText a b = true <-> a = b.
Proof.
  destruct a as [x|], b as [y|]; simpl; split; intro H;
    try discriminate; try reflexivity.
  - apply String.eqb_eq in H. now subst.
  - injection H as ->. apply String.eqb_refl.
Qed.

Lemma callArgs_spec (testCase : TestCase) :
  ArgsFor (List.length (parameters problem)) (tc_input testCase)
    (callArgs problem testCase).
Proof.
  unfold callArgs.
  destruct (tc_input testCase) as [ | | b | z | s | elems | fields ] eqn:E;
    try (apply WrapValue; intros elems' H; discriminate).
  destruct (Nat.eqb (List.length elems) (List.length (parameters problem))) eqn:L.
  - apply Nat.eqb_eq in L. now apply Spread.
  - apply Nat.eqb_neq in L. now apply WrapArray with elems.
Qed.

Lemma runCase_calls (w : World) (testCase : TestCase) :
  calls (snd (runCase h userFunction problem w testCase)) =
  (calls w ++ [callArgs problem testCase])%list.
Proof.
  unfold runCase.
  destruct (userFunction (callArgs problem testCase)); reflexivity.
Qed.

Lemma runCase_echo (w : World) (testCase : TestCase) :
  input (fst (runCase h userFunction problem w testCase)) = tc_input testCase /\
  expected (fst (runCase h userFunction problem w testCase)) = tc_expected testCase.
Proof.
  unfold runCase.
  destruct (userFunction (callArgs problem testCase)); split; reflexivity.
Qed.

Lemma runCase_throws (w : World) (testCase : TestCase) (t : JSThrown) :
  userFunction (callArgs problem testCase) = Throws t ->
  runCase h userFunction problem w testCase =
  (failedResult h testCase t,
   mkWorld (S (reads w)) (calls w ++ [callArgs problem testCase])%list).
Proof.
  intro H. unfold runCase. rewrite H. reflexivity.
Qed.

Lemma runCases_cons (w : World) (testCase : TestCase) (rest : list TestCase) :
  runCases h userFunction problem w (testCase :: rest) =
  (fst (runCase h userFunction problem w testCase)
     :: fst (runCases h userFunction problem
               (snd (runCase h userFunction problem w testCase)) rest),
   snd (runCases h userFunction problem
          (snd (runCase h userFunction problem w testCase)) rest)).
Proof.
  simpl.
  destruct (runCase h userFunction problem w testCase) as [r w1]. simpl.
  destruct (runCases h userFunction problem w1 rest) as [rs w2]. reflexivity.
Qed.

Lemma runCases_app (front back : list TestCase) : forall w : World,
  runCases h userFunction problem w (front ++ back)%list =
  ((fst (runCases h userFunction problem w front)
      ++ fst (runCases h userFunction problem
                (snd (runCases h userFunction problem w front)) back))%list,
   snd (runCases h userFunction problem
          (snd (runCases h userFunction problem w front)) back)).
Proof.
  induction front as [|c front IH]; intro w.
  - simpl. now destruct (runCases h userFunction problem w back).
  - rewrite <- app_comm_cons. rewrite !runCases_cons. simpl.
    rewrite IH. reflexivity.
Qed.

Lemma runCases_length (cases : list TestCase) : forall w : World,
  List.length (fst (runCases h userFunction problem w cases)) = List.length cases.
Proof.
  induction cases as [|c cases IH]; intro w.
  - reflexivity.
  - rewrite runCases_cons. simpl. now rewrite IH.
Qed.

Lemma runCases_nth (cases : list TestCase) : forall (w : World) (i : nat),
  nth_error (fst (runCases h userFunction problem w cases)) i =
  option_map
    (fun c => fst (runCase h userFunction problem
                     (snd (runCases h userFunction problem w (firstn i cases))) c))
    (nth_error cases i).
Proof.
  induction cases as [|c cases IH]; intros w i.
  - destruct i; reflexivity.
  - rewrite runCases_cons. destruct i as [|i].
    + reflexivity.
    + simpl nth_error. rewrite IH. simpl firstn. rewrite runCases_cons.
      reflexivity.
Qed.

Lemma runCases_echo (cases : list TestCase) : forall w : World,
  map input (fst (runCases h userFunction problem w cases)) = map tc_input cases /\
  map expected (fst (runCases h userFunction problem w cases)) = map tc_expected cases.
Proof.
  induction cases as [|c cases IH]; intro w.
  - split; reflexivity.
  - rewrite runCases_cons. simpl.
    destruct (runCase_echo w c) as [Hi He].
    destruct (IH (snd (runCase h userFunction problem w c))) as [IHi IHe].
    rewrite Hi, He, IHi, IHe. split; reflexivity.
Qed.

End Lemmas.

(** C1, as amended.  The parameter count that decides between spreading
    and wrapping is the length of [problem.parameters]: an array input of
    that length is spread into positional arguments, an array of another
    length and any input that is not an array is passed as the single
    argument, and the user function is called with exactly that argument
    list.  With two declared parameters, [[a, b]] is called as [f(a, b)]
    and [[a, b, c]] as [f([a, b, c])]. *)
Theorem arity_rule (h : Host) (userFunction : Callable)
    (problem : LeetCodeProblem) (w : World) (testCase : TestCase) :
  ArgsFor (List.length (parameters problem)) (tc_input testCase)
    (callArgs problem testCase) /\
  calls (snd (runCase h userFunction problem w testCase)) =
    (calls w ++ [callArgs problem testCase])%list /\
  (List.length (parameters problem) = 2 ->
   forall a b c e : JSValue,
     callArgs problem (mkTestCase (JSArray [a; b]) e) = [a; b] /\
     callArgs problem (mkTestCase (JSArray [a; b; c]) e) = [JSArray [a; b; c]]).
Proof.
  split; [apply callArgs_spec|].
  split; [apply runCase_calls|].
  intros H2 a b c e. unfold callArgs. simpl. rewrite H2. split; reflexivity.
Qed.

(** C2.  A case whose call throws yields the failed result (not passed,
    actual null, the thrown error's message, zero time), whatever stands
    before and after it in the list; the cases after it are evaluated as
    usual, from the state the failed call left. *)
Theorem thrown_error_is_captured (h : Host) (userFunction : Callable)
    (problem : LeetCodeProblem) (w : World)
    (front : list TestCase) (testCase : TestCase) (back : list TestCase)
    (t : JSThrown) :
  userFunction (callArgs problem testCase) = Throws t ->
  let w1 := snd (runCases h userFunction problem w front) in
  let w2 := mkWorld (S (reads w1)) (calls w1 ++ [callArgs problem testCase])%list in
  let r := failedResult h testCase t in
  runCases h userFunction problem w (front ++ testCase :: back)%list =
    ((fst (runCases h userFunction problem w front)
        ++ r :: fst (runCases h userFunction problem w2 back))%list,
     snd (runCases h userFunction problem w2 back)) /\
  passed r = false /\ actual r = JSNull /\
  error r = Some (errorMessage h t) /\ executionTime r = 0%Z /\
  (forall message, t = ErrorObject message -> error r = Some message) /\
  List.length (fst (runCases h userFunction problem w (front ++ testCase :: back)%list))
    = List.length front + 1 + List.length back.
Proof.
  intros Ht w1 w2 r.
  split.
  - rewrite runCases_app, runCases_cons.
    rewrite (runCase_throws h userFunction problem _ testCase t Ht).
    reflexivity.
  - repeat split; try reflexivity.
    + intros message ->. reflexivity.
    + rewrite runCases_length, length_app. simpl. lia.
Qed.

(** C3.  A list of n cases yields n results, the i-th result echoing the
    input and the expected value of the i-th case and being the outcome of
    that case, run in the state left by the cases before it. *)
Theorem one_result_per_case (h : Host) (userFunction : Callable)
    (problem : LeetCodeProblem) (w : World) (cases : list TestCase) :
  let results := fst (runCases h userFunction problem w cases) in
  List.length results = List.length cases /\
  map input results = map tc_input cases /\
  map expected results = map tc_expected cases /\
  forall i : nat,
    nth_error results i =
    option_map
      (fun c => fst (runCase h userFunction problem
                       (snd (runCases h userFunction problem w (firstn i cases))) c))
      (nth_error cases i).
Proof.
  cbv zeta.
  split; [apply runCases_length|].
  split; [apply runCases_echo|].
  split; [apply runCases_echo|].
  apply runCases_nth.
Qed.

(** C5.  When the call returns, the case passes exactly when
    [JSON.stringify] gives the returned value and the expected value the
    same text; the returned value is recorded and no error is. *)
Theorem passed_iff_same_serialization (h : Host) (userFunction : Callable)
    (problem : LeetCodeProblem) (w : World) (testCase : TestCase)
    (v : JSValue) :
  userFunction (callArgs problem testCase) = Returns v ->
  let r := fst (runCase h userFunction problem w testCase) in
  (passed r = true <->
   JSON_stringify h v = JSON_stringify h (tc_expected testCase)) /\
  actual r = v /\ error r = None.
Proof.
  intros Hv. unfold runCase. rewrite Hv. simpl.
  split; [apply sameText_true|]. split; reflexivity.
Qed.

(** The arity rule at a problem with two declared parameters. *)
Lemma arity_rule_witness :
  List.length (parameters (mkProblem ["a"; "b"] [] None)) = 2 /\
  callArgs (mkProblem ["a"; "b"] [] None)
    (mkTestCase (JSArray [JSNumber 1; JSNumber 2]) JSNull)
    = [JSNumber 1; JSNumber 2] /\
  callArgs (mkProblem ["a"; "b"] [] None)
    (mkTestCase (JSArray [JSNumber 1; JSNumber 2; JSNumber 3]) JSNull)
    = [JSArray [JSNumber 1; JSNumber 2; JSNumber 3]].
Proof.
  split; [reflexivity|].
  exact (proj2 (proj2 (arity_rule Runtime.host (fun _ => Returns JSNull)
                         (mkProblem ["a"; "b"] [] None) (mkWorld 0 [])
                         (mkTestCase JSNull JSNull)))
           eq_refl (JSNumber 1) (JSNumber 2) (JSNumber 3) JSNull).
Defined.

(** C1 as stated fails: the function compiled from a header with one
    parameter is called with two positional arguments when the problem
    declares two parameters, although the input's length differs from the
    compiled function's own parameter count. *)
Lemma arity_rule_counterexample :
  exists fn : CompiledFunction,
    evaluateUserCode Runtime.host Sources.identity = Ok fn /\
    declaredParamCount fn = 1 /\
    List.length [JSNumber 1; JSNumber 2] <> declaredParamCount fn /\
    calls (snd (runCase Runtime.host (fn_call fn)
                  (mkProblem ["a"; "b"] [] None) (mkWorld 0 [])
                  (mkTestCase (JSArray [JSNumber 1; JSNumber 2]) (JSNumber 1))))
      = [[JSNumber 1; JSNumber 2]] /\
    [[JSNumber 1; JSNumber 2]] <> [[JSArray [JSNumber 1; JSNumber 2]]].
Proof.
  eexists. split; [vm_compute; reflexivity|].
  split; [vm_compute; reflexivity|].
  split; [vm_compute; discriminate|].
  split; [vm_compute; reflexivity|].
  discriminate.
Qed.

(** A function that throws on 0 and returns 1 otherwise. *)
Lemma thrown_error_is_captured_witness :
  let f : Callable := fun args =>
    match args with
    | [JSNumber 0%Z] => Throws (ErrorObject "division by zero")
    | _ => Returns (JSNumber 1)
    end in
  let case0 := mkTestCase (JSNumber 0) (JSNumber 1) in
  let case5 := mkTestCase (JSNumber 5) (JSNumber 1) in
  let problem := mkProblem ["n"] [] None in
  map verdict (fst (runCases Runtime.host f problem (mkWorld 0 []) [case5; case0; case5]))
    = [(true, JSNumber 1, None);
       (false, JSNull, Some "division by zero");
       (true, JSNumber 1, None)].
Proof.
  intros f case0 case5 problem.
  pose proof (thrown_error_is_captured Runtime.host f problem (mkWorld 0 [])
                [case5] case0 [case5] (ErrorObject "division by zero") eq_refl)
    as [H _].
  change ([case5; case0; case5]) with ([case5] ++ case0 :: [case5])%list.
  rewrite H. reflexivity.
Defined.

(** A returned 3 against an expected 3. *)
Lemma passed_iff_same_serialization_witness :
  passed (fst (runCase Runtime.host (fun _ => Returns (JSNumber 3))
                 (mkProblem ["n"] [] None) (mkWorld 0 [])
                 (mkTestCase (JSNumber 7) (JSNumber 3)))) = true.
Proof.
  apply (proj1 (passed_iff_same_serialization Runtime.host
                  (fun _ => Returns (JSNumber 3)) (mkProblem ["n"] [] None)
                  (mkWorld 0 []) (mkTestCase (JSNumber 7) (JSNumber 3))
                  (JSNumber 3) eq_refl)).
  reflexivity.
Defined.

End HarnessFacts.

(* ================================================================= *)
(** ** Properties of the scene: compile errors and the counter *)

Module SceneFacts.
Import Harness Scene Notions HarnessFacts.

Section Lemmas.
Variable h : Host.

Lemma emit_without_header (code : string) :
  Regex.search Transpiler.functionRe code = None ->
  Transpiler.emit code = Err "Could not find Python function definition".
Proof. intro H. unfold Transpiler.emit. now rewrite H. Qed.

Lemma evaluateUserCode_without_header (code : string) :
  Regex.search Transpiler.functionRe code = None ->
  evaluateUserCode h code = Err missingHeaderMessage.
Proof.
  intro H. unfold evaluateUserCode, transpilePythonToJS.
  rewrite (emit_without_header code H). reflexivity.
Qed.

Lemma runTests_keeps (s : LeetCodeChallenge) (code : string) :
  failedAttempts (runTests h s code) = failedAttempts s /\
  phase (runTests h s code) = phase s /\
  closePending (runTests h s code) = closePending s /\
  problem (runTests h s code) = problem s.
Proof.
  unfold runTests. destruct (evaluateUserCode h code) as [fn|m].
  - destruct (runCases h (fn_call fn) (problem s) (world s) (testCases (problem s))).
    repeat split.
  - repeat split.
Qed.

(** The three ways a submission can end. *)
Lemma submitSolution_cases (s : LeetCodeChallenge) (code : string) :
  match evaluateUserCode h code with
  | Err message => submitSolution h s code = show s (ShowError message)
  | Ok fn =>
      let results :=
        fst (runCases h (fn_call fn) (problem s) (world s) (allTests (problem s))) in
      if forallb passed results then
        failedAttempts (submitSolution h s code) = failedAttempts s /\
        phase (submitSolution h s code) = phase s
      else
        failedAttempts (submitSolution h s code) = (failedAttempts s + 1)%Z /\
        phase (submitSolution h s code) =
          (if Z.geb (failedAttempts s + 1) MAX_ATTEMPTS then GameOver else phase s)
  end.
Proof.
  unfold submitSolution. destruct (evaluateUserCode h code) as [fn|m]; [|reflexivity].
  destruct (runCases h (fn_call fn) (problem s) (world s) (allTests (problem s)))
    as [results w].
  cbv zeta. simpl fst.
  destruct (forallb passed results).
  - split; reflexivity.
  - simpl. destruct (Z.geb (failedAttempts s + 1) MAX_ATTEMPTS); split; reflexivity.
Qed.

Lemma step_invariant (s : LeetCodeChallenge) (e : Event) :
  counterInvariant s -> counterInvariant (step h s e).
Proof.
  unfold counterInvariant, MAX_ATTEMPTS. intros [Hb Hp].
  destruct e as [data|code|code|confirmSkip|]; unfold step; lazy beta iota.
  - simpl. split; [lia|]. split; [discriminate|lia].
  - destruct (phase s) eqn:Ph; rewrite ?Ph; try (split; [exact Hb|exact Hp]).
    destruct (runTests_keeps s code) as (Hc & Hph & _).
    rewrite Hc, Hph, Ph. split; [exact Hb|exact Hp].
  - destruct (phase s) eqn:Ph; rewrite ?Ph; try (split; [exact Hb|exact Hp]).
    assert (Hlt : (failedAttempts s < 3)%Z).
    { destruct (Z.eq_dec (failedAttempts s) 3) as [E|E]; [|lia].
      apply Hp in E. discriminate. }
    pose proof (submitSolution_cases s code) as H.
    destruct (evaluateUserCode h code) as [fn|m].
    + cbv zeta in H.
      destruct (forallb passed _).
      * destruct H as [Hc Hph]. rewrite Hc, Hph, Ph. split; [exact Hb|exact Hp].
      * destruct H as [Hc Hph]. rewrite Hc, Hph, Ph. unfold MAX_ATTEMPTS.
        destruct (Z.geb (failedAttempts s + 1) 3) eqn:G.
        -- apply Z.geb_le in G. split; [lia|]. split; [lia|reflexivity].
        -- rewrite Z.geb_leb in G. apply Z.leb_gt in G.
           split; [lia|]. split; [discriminate|lia].
    + rewrite H. simpl. rewrite Ph. split; [exact Hb|exact Hp].
  - destruct (phase s) eqn:Ph; rewrite ?Ph; try (split; [exact Hb|exact Hp]).
    unfold skipProblem. destruct confirmSkip; simpl.
    + split; [exact Hb|]. split; [discriminate|].
      intro E. apply Hp in E. discriminate.
    + rewrite Ph. split; [exact Hb|exact Hp].
  - destruct (phase s) eqn:Ph; rewrite ?Ph; try (split; [exact Hb|exact Hp]).
    destruct (closePending s); simpl.
    + split; [exact Hb|]. split; [discriminate|].
      intro E. apply Hp in E. discriminate.
    + rewrite Ph. split; [exact Hb|exact Hp].
Qed.

Lemma run_invariant (es : list Event) : forall s : LeetCodeChallenge,
  counterInvariant s -> counterInvariant (run h s es).
Proof.
  induction es as [|e es IH]; intros s Hs.
  - exact Hs.
  - simpl. apply IH. now apply step_invariant.
Qed.

Lemma fresh_invariant (p : LeetCodeProblem) : counterInvariant (fresh p).
Proof.
  unfold counterInvariant, fresh, MAX_ATTEMPTS. simpl.
  split; [lia|]. split; [discriminate|lia].
Qed.

End Lemmas.

(** C4, as amended.  When the text holds no header of the form
    [def name(params):], compiling fails with the message "Compilation
    error: Python transpilation error: Could not find Python function
    definition"; both entry points then show that single error and
    nothing else: no test case is called, the clock is not read, no result
    list is shown. *)
Theorem missing_header_is_compile_error (h : Host) (s : LeetCodeChallenge)
    (code : string) :
  Regex.search Transpiler.functionRe code = None ->
  evaluateUserCode h code = Err missingHeaderMessage /\
  runTests h s code = show s (ShowError missingHeaderMessage) /\
  submitSolution h s code = show s (ShowError missingHeaderMessage) /\
  world (show s (ShowError missingHeaderMessage)) = world s /\
  shown (show s (ShowError missingHeaderMessage)) =
    (shown s ++ [ShowError missingHeaderMessage])%list.
Proof.
  intro H. pose proof (evaluateUserCode_without_header h code H) as E.
  split; [exact E|].
  unfold runTests, submitSolution. rewrite E. repeat split.
Qed.

Lemma missing_header_is_compile_error_witness :
  runTests Runtime.host (create (fresh (mkProblem ["n"] [] None)) (mkProblem ["n"] [] None))
    Sources.noHeader
  = show (create (fresh (mkProblem ["n"] [] None)) (mkProblem ["n"] [] None))
      (ShowError missingHeaderMessage).
Proof.
  apply (missing_header_is_compile_error Runtime.host
           (create (fresh (mkProblem ["n"] [] None)) (mkProblem ["n"] [] None))
           Sources.noHeader).
  vm_compute. reflexivity.
Defined.

(** C4 as stated fails: for a text without header the error carries
    another message than "Could not find function definition", at each
    of the three levels that report it. *)
Lemma missing_header_counterexample :
  Regex.search Transpiler.functionRe Sources.noHeader = None /\
  Transpiler.emit Sources.noHeader <> Err "Could not find function definition" /\
  transpilePythonToJS Runtime.host Sources.noHeader
    <> Err "Could not find function definition" /\
  evaluateUserCode Runtime.host Sources.noHeader
    <> Err "Could not find function definition".
Proof.
  split; [vm_compute; reflexivity|].
  repeat split; vm_compute; discriminate.
Qed.

(** C10.  [create] sets the counter to 0; a trial run never changes it; a
    submission leaves it alone when the code does not compile or every test
    passes and adds exactly one when some test fails; along every run of the
    scene the counter stays between 0 and 3 and the scene is in its
    game-over phase exactly when the counter is 3, so that a step enters
    that phase exactly when it brings the counter to 3; once there, the
    scene reacts to nothing but a new launch. *)
Theorem failed_attempts_counter (h : Host) :
  (forall s data,
     failedAttempts (create s data) = 0%Z /\ phase (create s data) = Running) /\
  (forall s code, failedAttempts (runTests h s code) = failedAttempts s) /\
  (forall s code,
     match evaluateUserCode h code with
     | Err _ => failedAttempts (submitSolution h s code) = failedAttempts s
     | Ok fn =>
         if forallb passed
              (fst (runCases h (fn_call fn) (problem s) (world s)
                      (allTests (problem s))))
         then failedAttempts (submitSolution h s code) = failedAttempts s
         else failedAttempts (submitSolution h s code) = (failedAttempts s + 1)%Z
     end) /\
  (forall p es, counterInvariant (run h (fresh p) es)) /\
  (forall p es e,
     let s := run h (fresh p) es in
     let s' := step h s e in
     (phase s <> GameOver /\ phase s' = GameOver) <->
     (failedAttempts s <> 3%Z /\ failedAttempts s' = 3%Z)) /\
  (forall s e,
     phase s = GameOver -> (forall data, e <> Launch data) -> step h s e = s).
Proof.
  split; [intros; split; reflexivity|].
  split; [intros s code; apply (runTests_keeps h s code)|].
  split.
  { intros s code. pose proof (submitSolution_cases h s code) as H.
    destruct (evaluateUserCode h code) as [fn|m].
    - cbv zeta in H. destruct (forallb passed _); apply H.
    - rewrite H. reflexivity. }
  split.
  { intros p es. apply run_invariant, fresh_invariant. }
  split.
  { intros p es e s s'.
    assert (Hs : counterInvariant s) by apply run_invariant, fresh_invariant.
    assert (Hs' : counterInvariant s') by apply step_invariant, Hs.
    destruct Hs as [_ Hs], Hs' as [_ Hs']. unfold MAX_ATTEMPTS in *.
    rewrite Hs, Hs'. reflexivity. }
  intros s e Ph Hl. unfold step. rewrite Ph.
  destruct e; try reflexivity. exfalso. now apply (Hl data).
Qed.

(** Three failed submissions of a function that returns its argument,
    against a case that expects 0 for the input 5. *)
Lemma failed_attempts_counter_witness :
  let p := mkProblem ["n"] [mkTestCase (JSNumber 5) (JSNumber 0)] None in
  let s := run Runtime.host (fresh p)
             [Launch p; PressSubmit Sources.identity;
              PressRunTests Sources.identity; PressSubmit Sources.noHeader;
              PressSubmit Sources.identity; PressSubmit Sources.identity] in
  failedAttempts s = 3%Z /\ phase s = GameOver /\
  step Runtime.host s (PressSubmit Sources.identity) = s.
Proof.
  intros p s.
  assert (Ph : phase s = GameOver) by (vm_compute; reflexivity).
  split; [vm_compute; reflexivity|]. split; [exact Ph|].
  apply (proj2 (proj2 (proj2 (proj2 (proj2 (failed_attempts_counter Runtime.host)))))
           s (PressSubmit Sources.identity) Ph).
  intros data. discriminate.
Defined.

End SceneFacts.

(* ================================================================= *)
(** ** Properties of the matcher *)

Module RegexFacts.
Import Str Regex Notions.

Lemma app_nil_r (s : string) : s ++ "" = s.
Proof. induction s as [|c s IH]; simpl; [reflexivity|now rewrite IH]. Qed.

Lemma app_assoc (x y z : string) : (x ++ y) ++ z = x ++ (y ++ z).
Proof. induction x as [|c x IH]; simpl; [reflexivity|now rewrite IH]. Qed.

Lemma length_app (x y : string) :
  String.length (x ++ y) = String.length x + String.length y.
Proof. induction x as [|c x IH]; simpl; [reflexivity|now rewrite IH]. Qed.

Lemma take_all (x : string) : take (String.length x) x = x.
Proof. induction x as [|c x IH]; simpl; [reflexivity|now rewrite IH]. Qed.

Lemma take_app (n : nat) (x s : string) :
  n = String.length x -> take n (x ++ s) = x.
Proof.
  intros ->. induction x as [|c x IH]; simpl.
  - destruct s; reflexivity.
  - now rewrite IH.
Qed.

Lemma take_prefix (x s : string) :
  take (String.length (x ++ s) - String.length s) (x ++ s) = x.
Proof. apply take_app. rewrite length_app. lia. Qed.

Lemma rev_onto_app (s acc : string) : rev_onto s acc = rev s ++ acc.
Proof.
  unfold rev. revert acc. induction s as [|c s IH]; intro acc; simpl.
  - reflexivity.
  - rewrite (IH (String c "")), IH, app_assoc. reflexivity.
Qed.

Lemma rev_app (x y : string) : rev (x ++ y) = rev y ++ rev x.
Proof.
  induction x as [|c x IH]; simpl.
  - now rewrite app_nil_r.
  - unfold rev in *. simpl. rewrite !(rev_onto_app _ (String c "")).
    fold (rev (x ++ y)). unfold rev. rewrite IH, app_assoc. reflexivity.
Qed.

Lemma rev_cons (c : ascii) (x : string) : rev (String c x) = rev x ++ String c "".
Proof. unfold rev. simpl. apply rev_onto_app. Qed.

Lemma rev_involutive (x : string) : rev (rev x) = x.
Proof.
  induction x as [|c x IH]; [reflexivity|].
  rewrite rev_cons, rev_app, IH. reflexivity.
Qed.

Lemma head_rev (x : string) : head (rev x) = lastOr None x.
Proof.
  assert (G : forall x p, lastOr p x = match head (rev x) with Some c => Some c | None => p end).
  { induction x0 as [|c x0 IH]; intro p; simpl; [reflexivity|].
    rewrite IH, rev_cons. destruct (rev x0); reflexivity. }
  rewrite (G x None). destruct (head (rev x)); reflexivity.
Qed.

Lemma lastOr_app (p : option ascii) (x y : string) :
  lastOr p (x ++ y) = lastOr (lastOr p x) y.
Proof. revert p. induction x as [|c x IH]; intro p; simpl; [reflexivity|apply IH]. Qed.

Lemma lastOr_nonempty (p q : option ascii) (x : string) :
  x <> "" -> lastOr p x = lastOr q x.
Proof.
  destruct x as [|c x]; [congruence|]. intros _. reflexivity.
Qed.

Lemma dropWhile_head (p : ascii -> bool) (s : string) :
  match s with String c _ => p c = false | "" => True end ->
  dropWhile p s = s.
Proof. destruct s as [|c s]; simpl; [reflexivity|]. now intros ->. Qed.

Lemma notBlank_head (s : string) :
  notBlank (head s) = true ->
  match s with String c _ => isSpace c = false | "" => True end.
Proof.
  destruct s as [|c s]; simpl; [discriminate|].
  now intros H%negb_true_iff.
Qed.

Lemma trim_id (s : string) :
  notBlank (head s) = true -> notBlank (lastOr None s) = true -> trim s = s.
Proof.
  intros Hh Hl. unfold trim.
  rewrite (dropWhile_head isSpace s (notBlank_head s Hh)).
  rewrite dropWhile_head; [apply rev_involutive|].
  apply notBlank_head. now rewrite head_rev.
Qed.


Lemma startsWith_blank (w s : string) :
  notBlank (head w) = true ->
  startsWith w (dropWhile isSpace s) = false -> startsWith w s = false.
Proof.
  intros Hw H. destruct s as [|c s]; [exact H|].
  simpl in H. destruct (isSpace c) eqn:Hc; [|exact H].
  destruct w as [|a w]; [discriminate|]. simpl in Hw |- *.
  destruct (Ascii.eqb_spec a c) as [->|]; [|reflexivity].
  rewrite Hc in Hw. discriminate.
Qed.

Lemma dropWhile_app_last (x y : string) :
  notBlank (lastOr None x) = true ->
  dropWhile isSpace (x ++ y) = dropWhile isSpace x ++ y.
Proof.
  induction x as [|c x IH]; [discriminate|].
  intro H. simpl. destruct (isSpace c) eqn:Hc; [|reflexivity].
  apply IH. destruct x as [|d x]; [|exact H].
  simpl in H. rewrite Hc in H. discriminate.
Qed.

Lemma startsWith_before_blank (w : string) : forall (x : string) (sp : ascii) (tail : string),
  allChars (fun c => negb (isSpace c)) w = true -> isSpace sp = true ->
  startsWith w (x ++ String sp tail) = true -> startsWith w x = true.
Proof.
  induction w as [|a w IH]; intros x sp tail Hw Hsp H; [reflexivity|].
  simpl in Hw. apply andb_true_iff in Hw as [Ha Hw].
  destruct x as [|c x]; simpl in H |- *.
  - apply andb_true_iff in H as [E _]. apply Ascii.eqb_eq in E. subst sp.
    rewrite Hsp in Ha. discriminate.
  - apply andb_true_iff in H as [E H]. rewrite E. simpl.
    now apply (IH x sp tail).
Qed.

Lemma includes_startsWith (w y : string) :
  startsWith w y = true -> includes w y = true.
Proof. intro H. destruct y; simpl; rewrite H; reflexivity. Qed.

Lemma includes_app_r (w x y : string) :
  includes w y = true -> includes w (x ++ y) = true.
Proof.
  intro H. induction x as [|c x IH]; [exact H|].
  simpl. rewrite IH. apply orb_true_r.
Qed.

Lemma includes_dropWhile (w : string) (p : ascii -> bool) (y : string) :
  includes w (dropWhile p y) = true -> includes w y = true.
Proof.
  induction y as [|c y IH]; [trivial|].
  simpl dropWhile. destruct (p c); [|trivial].
  intro H. simpl. rewrite (IH H). apply orb_true_r.
Qed.

(** After the blanks that may start a tail [x2] of an operand, the word
    [w] does not follow when the operand does not hold it. *)
Lemma no_word_after_blanks (w x1 x2 : string) (sp : ascii) (tail : string) :
  allChars (fun c => negb (isSpace c)) w = true ->
  includes w (x1 ++ x2) = false ->
  notBlank (lastOr None x2) = true ->
  isSpace sp = true ->
  startsWith w (dropWhile isSpace (x2 ++ String sp tail)) = false.
Proof.
  intros Hw Hin Hlast Hsp.
  rewrite dropWhile_app_last by exact Hlast.
  destruct (startsWith w (dropWhile isSpace x2 ++ String sp tail)) eqn:E;
    [|reflexivity].
  apply startsWith_before_blank in E; [|exact Hw|exact Hsp].
  apply includes_startsWith, includes_dropWhile in E.
  apply (includes_app_r w x1) in E. congruence.
Qed.

Section Matcher.
Context {A : Type}.
Implicit Types (k : cont A) (prev : option ascii) (cs : captures).

Lemma rmatch_Seq (r1 r2 : regex) prev s cs k :
  rmatch (Seq r1 r2) prev s cs k =
  rmatch r1 prev s cs (fun prev' s' cs' => rmatch r2 prev' s' cs' k).
Proof. reflexivity. Qed.

Lemma rmatch_Class_cons (p : ascii -> bool) (c : ascii) prev s cs k :
  rmatch (Class p) prev (String c s) cs k =
  if p c then k (Some c) s cs else None.
Proof. reflexivity. Qed.

Lemma rmatch_Class_nil (p : ascii -> bool) prev cs k :
  rmatch (Class p) prev "" cs k = None.
Proof. reflexivity. Qed.

Lemma rmatch_Group (n : nat) (r : regex) prev s cs k :
  rmatch (Group n r) prev s cs k =
  rmatch r prev s cs (fun prev' s' cs' =>
    k prev' s' ((n, take (String.length s - String.length s') s) :: cs')).
Proof. reflexivity. Qed.

Lemma rmatch_Bol_start (s : string) cs k :
  rmatch Bol None s cs k = k None s cs.
Proof. reflexivity. Qed.

Lemma rmatch_Star (greedy : bool) (r : regex) prev s cs k :
  rmatch (Star greedy r) prev s cs k =
  starLoop (rmatch r) greedy k (String.length s) prev s cs.
Proof. reflexivity. Qed.

Lemma starLoop_S (step : option ascii -> string -> captures -> cont A -> option A)
    (greedy : bool) k (fuel : nat) prev s cs :
  starLoop step greedy k (S fuel) prev s cs =
  if greedy then
    match step prev s cs (fun prev' s' cs' =>
            if Nat.ltb (String.length s') (String.length s)
            then starLoop step greedy k fuel prev' s' cs' else None) with
    | Some x => Some x
    | None => k prev s cs
    end
  else
    match k prev s cs with
    | Some x => Some x
    | None =>
        step prev s cs (fun prev' s' cs' =>
          if Nat.ltb (String.length s') (String.length s)
          then starLoop step greedy k fuel prev' s' cs' else None)
    end.
Proof. reflexivity. Qed.

Lemma ltb_tail (c : ascii) (s : string) :
  Nat.ltb (String.length s) (String.length (String c s)) = true.
Proof. apply Nat.ltb_lt. simpl. lia. Qed.

Lemma rmatch_lit (w : string) : forall prev s cs k,
  rmatch (lit w) prev (w ++ s) cs k = k (lastOr prev w) s cs.
Proof.
  induction w as [|a w IH]; intros prev s cs k; [reflexivity|].
  simpl lit. simpl append. unfold chr.
  rewrite rmatch_Seq, rmatch_Class_cons, Ascii.eqb_refl. apply IH.
Qed.

Lemma rmatch_lit_fail (w : string) : forall prev s cs k,
  startsWith w s = false -> rmatch (lit w) prev s cs k = None.
Proof.
  induction w as [|a w IH]; intros prev s cs k H; [discriminate|].
  simpl lit. unfold chr. rewrite rmatch_Seq.
  destruct s as [|b s]; [reflexivity|].
  rewrite rmatch_Class_cons. simpl in H.
  destruct (Ascii.eqb a b); [|reflexivity].
  now apply IH.
Qed.

Lemma starLoop_greedy_all (p : ascii -> bool) k : forall x fuel prev cs res,
  String.length x <= fuel -> allChars p x = true ->
  k (lastOr prev x) "" cs = Some res ->
  starLoop (rmatch (Class p)) true k fuel prev x cs = Some res.
Proof.
  induction x as [|c x IH]; intros fuel prev cs res Hf Hall Hk.
  - destruct fuel; [exact Hk|]. rewrite starLoop_S, rmatch_Class_nil. exact Hk.
  - destruct fuel as [|fuel]; [simpl in Hf; lia|].
    simpl in Hall. apply andb_true_iff in Hall as [Hc Hall].
    rewrite starLoop_S, rmatch_Class_cons, Hc, ltb_tail.
    rewrite (IH fuel (Some c) cs res); [reflexivity| simpl in Hf; lia|exact Hall|exact Hk].
Qed.

Lemma starLoop_lazy_first (p : ascii -> bool) k : forall x fuel prev s cs res,
  String.length (x ++ s) <= fuel -> allChars p x = true ->
  (forall x1 x2 q, x = x1 ++ x2 -> x2 <> "" -> k q (x2 ++ s) cs = None) ->
  k (lastOr prev x) s cs = Some res ->
  starLoop (rmatch (Class p)) false k fuel prev (x ++ s) cs = Some res.
Proof.
  induction x as [|c x IH]; intros fuel prev s cs res Hf Hall Hfail Hk.
  - simpl in Hk |- *. destruct fuel; [exact Hk|].
    rewrite starLoop_S, Hk. reflexivity.
  - destruct fuel as [|fuel]; [simpl in Hf; lia|].
    simpl in Hall. apply andb_true_iff in Hall as [Hc Hall].
    change (String c x ++ s) with (String c (x ++ s)) in *.
    assert (E : k prev (String c (x ++ s)) cs = None)
      by (apply (Hfail "" (String c x) prev eq_refl); discriminate).
    rewrite starLoop_S, E, rmatch_Class_cons, Hc, ltb_tail.
    apply IH; [simpl in Hf; lia|exact Hall| |exact Hk].
    intros x1 x2 q -> Hx2. apply (Hfail (String c x1) x2 q eq_refl Hx2).
Qed.

Lemma group_lazy_plus (n : nat) (p : ascii -> bool) (r : regex) k :
  forall x prev s cs res,
  x <> "" -> allChars p x = true ->
  (forall x1 x2 q cs', x = x1 ++ x2 -> x1 <> "" -> x2 <> "" ->
     rmatch r q (x2 ++ s) cs' k = None) ->
  rmatch r (lastOr prev x) s ((n, x) :: cs) k = Some res ->
  rmatch (Seq (Group n (lazyPlus (Class p))) r) prev (x ++ s) cs k = Some res.
Proof.
  intros x prev s cs res Hx Hall Hfail Hk.
  destruct x as [|c x]; [congruence|].
  simpl in Hall. apply andb_true_iff in Hall as [Hc Hall].
  unfold lazyPlus.
  rewrite rmatch_Seq, rmatch_Group, rmatch_Seq.
  change (String c x ++ s) with (String c (x ++ s)).
  rewrite rmatch_Class_cons, Hc, rmatch_Star.
  apply starLoop_lazy_first; [lia|exact Hall| |].
  - intros x1 x2 q -> Hx2.
    apply (Hfail (String c x1) x2); [reflexivity|discriminate|exact Hx2].
  - change (String c (x ++ s)) with (String c x ++ s).
    rewrite take_prefix. exact Hk.
Qed.

Lemma group_greedy_plus_eol (n : nat) (p : ascii -> bool) k :
  forall x prev cs res,
  x <> "" -> allChars p x = true ->
  k (lastOr prev x) "" ((n, x) :: cs) = Some res ->
  rmatch (Seq (Group n (plus (Class p))) Eol) prev x cs k = Some res.
Proof.
  intros x prev cs res Hx Hall Hk.
  destruct x as [|c x]; [congruence|].
  simpl in Hall. apply andb_true_iff in Hall as [Hc Hall].
  unfold plus.
  rewrite rmatch_Seq, rmatch_Group, rmatch_Seq, rmatch_Class_cons, Hc, rmatch_Star.
  apply starLoop_greedy_all; [lia|exact Hall|].
  cbn [rmatch String.length]. rewrite Nat.sub_0_r.
  change (S (String.length x)) with (String.length (String c x)).
  rewrite take_all. exact Hk.
Qed.

Lemma plus_ws_single (r : regex) k (c : ascii) (s : string) prev cs :
  isSpace c = true -> notBlank (head s) = true ->
  rmatch (Seq (plus ws) r) prev (String c s) cs k = rmatch r (Some c) s cs k.
Proof.
  intros Hc Hs. destruct s as [|d s]; [discriminate|].
  simpl in Hs. apply negb_true_iff in Hs.
  unfold plus, ws.
  rewrite rmatch_Seq, rmatch_Seq, rmatch_Class_cons, Hc, rmatch_Star.
  simpl String.length. rewrite starLoop_S, rmatch_Class_cons, Hs. reflexivity.
Qed.

Lemma starLoop_ws_then_lit_fails (w : string) (r : regex) k :
  notBlank (head w) = true ->
  forall fuel s prev cs,
  startsWith w (dropWhile isSpace s) = false ->
  starLoop (rmatch ws) true
    (fun prev' s' cs' => rmatch (Seq (lit w) r) prev' s' cs' k) fuel prev s cs = None.
Proof.
  intros Hw. induction fuel as [|fuel IH]; intros s prev cs H.
  - cbn [starLoop]. rewrite rmatch_Seq. apply rmatch_lit_fail.
    now apply startsWith_blank.
  - assert (Hk : rmatch (Seq (lit w) r) prev s cs k = None)
      by (rewrite rmatch_Seq; apply rmatch_lit_fail; now apply startsWith_blank).
    rewrite starLoop_S. unfold ws at 1.
    destruct s as [|c s]; [rewrite rmatch_Class_nil; exact Hk|].
    rewrite rmatch_Class_cons.
    destruct (isSpace c) eqn:Hc; [|exact Hk].
    simpl in H. rewrite Hc in H.
    rewrite ltb_tail. fold ws. rewrite (IH s (Some c) cs H). exact Hk.
Qed.

Lemma plus_ws_then_lit_fails (w : string) (r : regex) k : forall s prev cs,
  notBlank (head w) = true ->
  startsWith w (dropWhile isSpace s) = false ->
  rmatch (Seq (plus ws) (Seq (lit w) r)) prev s cs k = None.
Proof.
  intros s prev cs Hw H. unfold plus.
  rewrite rmatch_Seq, rmatch_Seq. unfold ws at 1.
  destruct s as [|c s]; [reflexivity|].
  rewrite rmatch_Class_cons.
  destruct (isSpace c) eqn:Hc; [|reflexivity].
  simpl in H. rewrite Hc in H. rewrite rmatch_Star.
  now apply starLoop_ws_then_lit_fails.
Qed.

End Matcher.


Lemma searchFrom_eq (r : regex) (prev : option ascii) (acc s : string) :
  searchFrom r prev acc s =
  match rmatch r prev s [] (fun p s' cs => Some (p, s', cs)) with
  | Some (p, s', cs) =>
      Some (mkFound (rev acc) (take (String.length s - String.length s') s) cs p s')
  | None =>
      match s with
      | "" => None
      | String c s' => searchFrom r (Some c) (String c acc) s'
      end
  end.
Proof. destruct s; reflexivity. Qed.

Lemma operand_parts (s : string) :
  operand s = true ->
  s <> "" /\ notBlank (head s) = true /\ notBlank (lastOr None s) = true /\
  allChars (fun c => negb (isLineTerminator c)) s = true.
Proof.
  unfold operand. intros H.
  apply andb_true_iff in H as [H H3]. apply andb_true_iff in H as [H1 H2].
  repeat split; try assumption. intros ->. discriminate.
Qed.

Lemma head_app (x y : string) : x <> "" -> head (x ++ y) = head x.
Proof. destruct x; [congruence|reflexivity]. Qed.

Lemma notBlank_last_app (p : option ascii) (x y : string) :
  notBlank (lastOr None y) = true -> notBlank (lastOr p (x ++ y)) = true.
Proof.
  intro H. rewrite lastOr_app.
  destruct y as [|c y]; [discriminate|]. exact H.
Qed.

Lemma notBlank_last_suffix (x1 x2 : string) :
  x2 <> "" -> notBlank (lastOr None (x1 ++ x2)) = true ->
  notBlank (lastOr None x2) = true.
Proof.
  intros H2 H. rewrite lastOr_app in H.
  destruct x2 as [|c x2]; [congruence|]. exact H.
Qed.

End RegexFacts.

(* ================================================================= *)
(** ** The matcher finds what the regular expressions match *)

Module MatchingFacts.
Import Str Regex Notions Matching RegexFacts.

Lemma starLoop_sound (A : Type)
    (step : option ascii -> string -> captures -> cont A -> option A)
    (R : option ascii -> string -> captures ->
         option ascii -> string -> captures -> Prop)
    (greedy : bool) (k : cont A) :
  (forall prev s cs (k' : cont A) x, step prev s cs k' = Some x ->
     exists p' s' cs', R prev s cs p' s' cs' /\ k' p' s' cs' = Some x) ->
  forall fuel prev s cs x,
    starLoop step greedy k fuel prev s cs = Some x ->
    exists p' s' cs', iter R prev s cs p' s' cs' /\ k p' s' cs' = Some x.
Proof.
  intro Hstep. induction fuel as [|fuel IH]; intros prev s cs x H.
  - exists prev, s, cs. split; [constructor|exact H].
  - assert (Hagain : forall y,
      step prev s cs (fun prev' s' cs' =>
        if Nat.ltb (String.length s') (String.length s)
        then starLoop step greedy k fuel prev' s' cs' else None) = Some y ->
      exists p' s' cs', iter R prev s cs p' s' cs' /\ k p' s' cs' = Some y).
    { intros y Hy. apply Hstep in Hy as (p1 & s1 & cs1 & HR & Hk).
      destruct (Nat.ltb (String.length s1) (String.length s)) eqn:L;
        [|discriminate].
      apply IH in Hk as (p2 & s2 & cs2 & Hi & Hk).
      exists p2, s2, cs2. split; [|exact Hk].
      eapply iter_more; [exact HR| |exact Hi]. now apply Nat.ltb_lt. }
    cbn [starLoop] in H. destruct greedy.
    + destruct (step prev s cs _) as [y|] eqn:E.
      * injection H as <-. now apply Hagain.
      * exists prev, s, cs. split; [constructor|exact H].
    + destruct (k prev s cs) as [y|] eqn:E.
      * injection H as <-. exists prev, s, cs. split; [constructor|exact E].
      * now apply Hagain.
Qed.

(** Whatever the matcher returns comes from its continuation, called where
    the expression has matched. *)
Lemma rmatch_sound (r : regex) :
  forall (A : Type) prev s cs (k : cont A) x,
    rmatch r prev s cs k = Some x ->
    exists p' s' cs', matches r prev s cs p' s' cs' /\ k p' s' cs' = Some x.
Proof.
  induction r as [|p|r1 IH1 r2 IH2|g r1 IH1|n r1 IH1| | |];
    intros A prev s cs k x H.
  - exists prev, s, cs. repeat split. exact H.
  - destruct s as [|c s]; [discriminate|]. cbn [rmatch] in H.
    destruct (p c) eqn:Hp; [|discriminate].
    exists (Some c), s, cs. split; [|exact H]. exists c. repeat split. exact Hp.
  - cbn [rmatch] in H. apply IH1 in H as (p1 & s1 & cs1 & H1 & H).
    apply IH2 in H as (p2 & s2 & cs2 & H2 & H).
    exists p2, s2, cs2. split; [|exact H]. exists p1, s1, cs1. now split.
  - cbn [rmatch] in H.
    apply (starLoop_sound A (rmatch r1) (matches r1)) in H; [exact H|].
    intros. now apply IH1.
  - cbn [rmatch] in H. apply IH1 in H as (p1 & s1 & cs1 & H1 & H).
    eexists p1, s1, _. split; [|exact H]. exists cs1. now split.
  - cbn [rmatch] in H. destruct prev; [discriminate|].
    exists None, s, cs. repeat split. exact H.
  - cbn [rmatch] in H. destruct s; [|discriminate].
    exists prev, "", cs. repeat split. exact H.
  - cbn [rmatch] in H.
    destruct (xorb (isWordOpt prev) (isWordOpt (head s))) eqn:E; [|discriminate].
    exists prev, s, cs. repeat split; [exact E|exact H].
Qed.

Lemma starLoop_complete (A : Type)
    (step : option ascii -> string -> captures -> cont A -> option A)
    (R : option ascii -> string -> captures ->
         option ascii -> string -> captures -> Prop)
    (greedy : bool) (k : cont A) :
  (forall prev s c0 p' s' c0' (k' : cont A),
     R prev s c0 p' s' c0' -> (forall c, k' p' s' c <> None) ->
     forall cs, step prev s cs k' <> None) ->
  forall prev s c0 p' s' c0',
    iter R prev s c0 p' s' c0' ->
    (forall c, k p' s' c <> None) ->
    forall fuel cs, String.length s <= fuel ->
      starLoop step greedy k fuel prev s cs <> None.
Proof.
  intros Hstep prev s c0 p' s' c0' Hi Hk.
  induction Hi as [prev s c0|prev s c0 p1 s1 c1 p2 s2 c2 HR Hlt Hi IH];
    intros fuel cs Hfuel.
  - destruct fuel as [|fuel]; [apply Hk|]. cbn [starLoop].
    destruct greedy.
    + destruct (step prev s cs _); [discriminate|apply Hk].
    + specialize (Hk cs). destruct (k prev s cs); [discriminate|congruence].
  - destruct fuel as [|fuel]; [lia|]. cbn [starLoop].
    assert (Hagain :
      step prev s cs (fun prev' s' cs' =>
        if Nat.ltb (String.length s') (String.length s)
        then starLoop step greedy k fuel prev' s' cs' else None) <> None).
    { apply (Hstep prev s c0 p1 s1 c1); [exact HR|].
      intro c. apply Nat.ltb_lt in Hlt as L. rewrite L.
      apply IH; [exact Hk|lia]. }
    destruct greedy.
    + destruct (step prev s cs _); [discriminate|congruence].
    + destruct (k prev s cs); [discriminate|exact Hagain].
Qed.

(** Where the expression matches and the continuation accepts what is
    left, whatever the groups, the matcher returns something. *)
Lemma rmatch_complete (r : regex) :
  forall (A : Type) prev s c0 p' s' c0' (k : cont A),
    matches r prev s c0 p' s' c0' ->
    (forall c, k p' s' c <> None) ->
    forall cs, rmatch r prev s cs k <> None.
Proof.
  induction r as [|p|r1 IH1 r2 IH2|g r1 IH1|n r1 IH1| | |];
    intros A prev s c0 p' s' c0' k H Hk cs.
  - destruct H as (-> & -> & _). apply Hk.
  - destruct H as (c & -> & Hp & -> & _). cbn [rmatch]. rewrite Hp. apply Hk.
  - destruct H as (p1 & s1 & c1 & H1 & H2). cbn [rmatch].
    apply (IH1 A prev s c0 p1 s1 c1); [exact H1|].
    intro c. now apply (IH2 A p1 s1 c1 p' s' c0').
  - cbn [rmatch].
    apply (starLoop_complete A (rmatch r1) (matches r1) g k)
      with (c0 := c0) (p' := p') (s' := s') (c0' := c0');
      [|exact H|exact Hk|lia].
    intros. now apply (IH1 A prev0 s0 c1 p'0 s'0 c0'0).
  - destruct H as (c1 & H & _). cbn [rmatch].
    apply (IH1 A prev s c0 p' s' c1); [exact H|]. intro c. apply Hk.
  - destruct H as (-> & -> & -> & _). apply Hk.
  - destruct H as (-> & -> & -> & _). apply Hk.
  - destruct H as (E & -> & -> & _). cbn [rmatch]. rewrite E. apply Hk.
Qed.

Lemma iter_suffix
    (R : option ascii -> string -> captures ->
         option ascii -> string -> captures -> Prop) :
  (forall prev s cs p' s' cs', R prev s cs p' s' cs' ->
     exists m, s = m ++ s' /\ p' = lastOr prev m) ->
  forall prev s cs p' s' cs', iter R prev s cs p' s' cs' ->
    exists m, s = m ++ s' /\ p' = lastOr prev m.
Proof.
  intros HR prev s cs p' s' cs' Hi.
  induction Hi as [prev s cs|prev s cs p1 s1 c1 p2 s2 c2 H1 _ _ IH].
  - exists "". now split.
  - apply HR in H1 as (m1 & -> & ->). destruct IH as (m2 & -> & ->).
    exists (m1 ++ m2). now rewrite app_assoc, lastOr_app.
Qed.

(** What is left is an end of the text, and the character before it is
    the last one of the part matched. *)
Lemma matches_suffix (r : regex) :
  forall prev s cs p' s' cs', matches r prev s cs p' s' cs' ->
    exists m, s = m ++ s' /\ p' = lastOr prev m.
Proof.
  induction r as [|p|r1 IH1 r2 IH2|g r1 IH1|n r1 IH1| | |];
    intros prev s cs p' s' cs' H.
  - destruct H as (-> & -> & _). exists "". now split.
  - destruct H as (c & -> & _ & -> & _). exists (String c ""). now split.
  - destruct H as (p1 & s1 & c1 & H1 & H2).
    apply IH1 in H1 as (m1 & -> & ->). apply IH2 in H2 as (m2 & -> & ->).
    exists (m1 ++ m2). now rewrite app_assoc, lastOr_app.
  - exact (iter_suffix (matches r1) IH1 _ _ _ _ _ _ H).
  - destruct H as (c1 & H & _). now apply IH1 in H.
  - destruct H as (_ & -> & -> & _). exists "". now split.
  - destruct H as (_ & -> & -> & _). exists "". now split.
  - destruct H as (_ & -> & -> & _). exists "". now split.
Qed.

Lemma app_inv_tail (x y z : string) : x ++ z = y ++ z -> x = y.
Proof.
  intro H.
  assert (E : take (String.length (x ++ z) - String.length z) (x ++ z) =
              take (String.length (y ++ z) - String.length z) (y ++ z))
    by now rewrite H.
  now rewrite !take_prefix in E.
Qed.

Lemma rmatch_found (r : regex) prev s p s' cs :
  rmatch r prev s [] (fun p s' cs => Some (p, s', cs)) = Some (p, s', cs) ->
  s = take (String.length s - String.length s') s ++ s' /\
  matches r prev s [] p s' cs.
Proof.
  intro E. apply rmatch_sound in E as (p1 & s1 & c1 & HM & E).
  injection E as -> -> ->.
  destruct (matches_suffix _ _ _ _ _ _ _ HM) as (m & Hm & _).
  split; [|exact HM]. rewrite Hm. now rewrite take_prefix.
Qed.

(** A match found by the search splits the text into the part before it,
    the part matched and the part after it. *)
Lemma searchFrom_sound (r : regex) :
  forall s prev acc f, searchFrom r prev acc s = Some f ->
    exists pre,
      s = pre ++ f_text f ++ f_post f /\
      f_pre f = rev acc ++ pre /\
      matches r (lastOr prev pre) (f_text f ++ f_post f) []
        (f_last f) (f_post f) (f_caps f).
Proof.
  assert (Here : forall s prev acc p s' cs,
    rmatch r prev s [] (fun p s' cs => Some (p, s', cs)) = Some (p, s', cs) ->
    let f := mkFound (rev acc) (take (String.length s - String.length s') s) cs p s' in
    exists pre,
      s = pre ++ f_text f ++ f_post f /\
      f_pre f = rev acc ++ pre /\
      matches r (lastOr prev pre) (f_text f ++ f_post f) []
        (f_last f) (f_post f) (f_caps f)).
  { intros s prev acc p s' cs E. apply rmatch_found in E as [Hs HM].
    exists "". cbn [f_text f_post f_pre f_last f_caps append lastOr].
    rewrite <- Hs, app_nil_r. now repeat split. }
  induction s as [|c s IH]; intros prev acc f H; rewrite searchFrom_eq in H.
  - destruct (rmatch r prev "" [] _) as [[[p s'] cs]|] eqn:E; [|discriminate].
    injection H as <-. exact (Here "" prev acc p s' cs E).
  - destruct (rmatch r prev (String c s) [] _) as [[[p s'] cs]|] eqn:E.
    + injection H as <-. exact (Here (String c s) prev acc p s' cs E).
    + apply IH in H as (pre & Hs & Hpre & HM).
      exists (String c pre). cbn [append lastOr]. rewrite <- Hs.
      split; [reflexivity|]. split; [|exact HM].
      rewrite Hpre, rev_cons, app_assoc. reflexivity.
Qed.

(** The search finds a match wherever the expression matches. *)
Lemma searchFrom_complete (r : regex) :
  forall pre rest prev acc c0 p' s' c0',
    matches r (lastOr prev pre) rest c0 p' s' c0' ->
    searchFrom r prev acc (pre ++ rest) <> None.
Proof.
  induction pre as [|c pre IH]; intros rest prev acc c0 p' s' c0' H;
    rewrite searchFrom_eq.
  - cbn [append lastOr] in *.
    pose proof (rmatch_complete r _ prev rest c0 p' s' c0'
                  (fun p s1 cs => Some (p, s1, cs)) H
                  ltac:(discriminate) []) as Hc.
    destruct (rmatch r prev rest [] _) as [[[p s1] cs]|]; [discriminate|].
    congruence.
  - cbn [append].
    destruct (rmatch r prev (String c (pre ++ rest)) [] _) as [[[p s1] cs]|];
      [discriminate|].
    now apply (IH rest (Some c) (String c acc) c0 p' s' c0').
Qed.

(** *** The shape of what the pieces of the expressions match *)

Lemma matches_lit (w : string) : forall prev s cs p' s' cs',
  matches (lit w) prev s cs p' s' cs' -> s = w ++ s' /\ cs' = cs.
Proof.
  induction w as [|a w IH]; intros prev s cs p' s' cs' H.
  - destruct H as (_ & -> & ->). now split.
  - destruct H as (p1 & s1 & c1 & (c & -> & E & -> & ->) & H).
    apply Ascii.eqb_eq in E as <-. apply IH in H as (-> & ->). now split.
Qed.

Lemma lit_matches (w : string) : forall prev s' cs,
  matches (lit w) prev (w ++ s') cs (lastOr prev w) s' cs.
Proof.
  induction w as [|a w IH]; intros prev s' cs; [now repeat split|].
  exists (Some a), (w ++ s'), cs. split; [|apply IH].
  exists a. repeat split. apply Ascii.eqb_refl.
Qed.

Lemma iter_class (p : ascii -> bool) : forall prev s cs p' s' cs',
  iter (matches (Class p)) prev s cs p' s' cs' ->
  exists m, allChars p m = true /\ s = m ++ s' /\ cs' = cs.
Proof.
  intros prev s cs p' s' cs' H.
  induction H as [prev s cs|prev s cs p1 s1 c1 p2 s2 c2 H1 _ _ IH].
  - exists "". now repeat split.
  - destruct H1 as (c & -> & Hc & -> & ->). destruct IH as (m & Hm & -> & ->).
    exists (String c m). cbn [allChars]. rewrite Hc, Hm. now repeat split.
Qed.

Lemma class_iter (p : ascii -> bool) (s' : string) (cs : captures) :
  forall m prev, allChars p m = true ->
    iter (matches (Class p)) prev (m ++ s') cs (lastOr prev m) s' cs.
Proof.
  induction m as [|c m IH]; intros prev H; [constructor|].
  cbn [allChars] in H. apply andb_true_iff in H as [Hc Hm].
  apply iter_more with (p1 := Some c) (s1 := m ++ s') (cs1 := cs).
  - exists c. now repeat split.
  - cbn [append String.length]. lia.
  - now apply IH.
Qed.

Lemma plus_class (g : bool) (p : ascii -> bool) prev s cs p' s' cs' :
  matches (Seq (Class p) (Star g (Class p))) prev s cs p' s' cs' ->
  exists m, m <> "" /\ allChars p m = true /\ s = m ++ s' /\ cs' = cs.
Proof.
  intros (p1 & s1 & c1 & (c & -> & Hc & -> & ->) & H).
  apply iter_class in H as (m & Hm & -> & ->).
  exists (String c m). cbn [allChars]. rewrite Hc, Hm. now repeat split.
Qed.

Lemma class_plus (g : bool) (p : ascii -> bool) (m s' : string) prev cs :
  m <> "" -> allChars p m = true ->
  matches (Seq (Class p) (Star g (Class p))) prev (m ++ s') cs
    (lastOr prev m) s' cs.
Proof.
  destruct m as [|c m]; [congruence|]. intros _ H.
  cbn [allChars] in H. apply andb_true_iff in H as [Hc Hm].
  exists (Some c), (m ++ s'), cs. split.
  - exists c. now repeat split.
  - exact (class_iter p s' cs m (Some c) Hm).
Qed.

Lemma group_plus_class (n : nat) (g : bool) (p : ascii -> bool)
    prev s cs p' s' cs' :
  matches (Group n (Seq (Class p) (Star g (Class p)))) prev s cs p' s' cs' ->
  exists m, m <> "" /\ allChars p m = true /\ s = m ++ s' /\
            cs' = (n, m) :: cs.
Proof.
  intros (c1 & H & ->). apply plus_class in H as (m & Hne & Hm & -> & ->).
  exists m. now rewrite take_prefix.
Qed.

Lemma lastOr_None (pre : string) : lastOr None pre = None -> pre = "".
Proof.
  destruct pre as [|c pre]; [reflexivity|]. cbn [lastOr].
  generalize c. induction pre as [|d pre IH]; intros a H; [discriminate|].
  now apply IH in H.
Qed.

Lemma search_parts (r : regex) (s : string) (f : found) :
  search r s = Some f ->
  s = f_pre f ++ f_text f ++ f_post f /\
  matches r (lastOr None (f_pre f)) (f_text f ++ f_post f) []
    (f_last f) (f_post f) (f_caps f).
Proof.
  intro H. apply searchFrom_sound in H as (pre & Hs & Hpre & HM).
  change (rev "" ++ pre) with pre in Hpre. rewrite Hpre. now split.
Qed.

End MatchingFacts.

(* ================================================================= *)
(** ** The conditional-expression rule *)

Module TernaryFacts.
Import Str Regex Transpiler Notions Matching RegexFacts MatchingFacts.

Lemma standsAlone_app_r (w x y : string) :
  standsAlone w y = true -> standsAlone w (x ++ y) = true.
Proof.
  intro H. induction x as [|c x IH]; [exact H|].
  cbn [append standsAlone]. rewrite IH. apply orb_true_r.
Qed.

Lemma aloneAt_app (w : string) : forall (c : ascii) (tail : string),
  isSpace c = true -> aloneAt w (w ++ String c tail) = true.
Proof.
  induction w as [|a w IH]; intros c tail Hc; [exact Hc|].
  cbn [append aloneAt]. rewrite Ascii.eqb_refl. now apply IH.
Qed.

(** A word without blanks that is found in front of [x], a blank and more
    text, with a blank behind it, is found so in front of [x] and the
    blank. *)
Lemma aloneAt_front (w : string) : forall (x : string) (sp : ascii) (rest : string),
  allChars (fun c => negb (isSpace c)) w = true -> isSpace sp = true ->
  aloneAt w (x ++ String sp rest) = true ->
  aloneAt w (x ++ String sp "") = true.
Proof.
  induction w as [|a w IH]; intros x sp rest Hw Hsp H.
  - destruct x as [|c x]; exact H.
  - cbn [allChars] in Hw. apply andb_true_iff in Hw as [Ha Hw].
    destruct x as [|c x]; cbn [append aloneAt] in *.
    + apply andb_true_iff in H as [E _]. apply Ascii.eqb_eq in E. subst sp.
      rewrite Hsp in Ha. discriminate.
    + apply andb_true_iff in H as [E H]. rewrite E. cbn [andb].
      now apply (IH x sp rest).
Qed.

(** When [x], which ends with no blank, and the text behind it start with
    blanks, the word and a blank, the word stands between blanks in [x]
    followed by a blank. *)
Lemma alone_after_blanks (w : string) :
  allChars (fun c => negb (isSpace c)) w = true ->
  forall (sp x : string) (sp0 : ascii) (rest : string) (c : ascii) (tail : string),
    sp <> "" -> allChars isSpace sp = true -> isSpace c = true ->
    isSpace sp0 = true -> notBlank (lastOr None x) = true ->
    x ++ String sp0 rest = sp ++ w ++ String c tail ->
    standsAlone w (x ++ String sp0 "") = true.
Proof.
  intro Hw. induction sp as [|s0 sp IH];
    intros x sp0 rest c tail Hne Hsp Hc Hsp0 Hlast E; [congruence|].
  cbn [allChars] in Hsp. apply andb_true_iff in Hsp as [Hs0 Hsp].
  destruct x as [|x0 x]; [discriminate|].
  cbn [append] in E. injection E as -> E.
  cbn [append standsAlone]. rewrite Hs0. cbn [andb].
  destruct sp as [|s1 sp].
  - cbn [append] in E.
    assert (H : aloneAt w (x ++ String sp0 rest) = true)
      by (rewrite E; now apply aloneAt_app).
    now rewrite (aloneAt_front w x sp0 rest Hw Hsp0 H).
  - assert (Hx : notBlank (lastOr None x) = true).
    { destruct x as [|x1 x]; [|exact Hlast].
      cbn in Hlast. rewrite Hs0 in Hlast. discriminate. }
    rewrite (IH x sp0 rest c tail); [apply orb_true_r|discriminate|exact Hsp
      |exact Hc|exact Hsp0|exact Hx|exact E].
Qed.

(** Blanks, a word and blanks are not found in front of a text that does
    not start with them. *)
Lemma split_refused {A : Type} (w : string) (r : regex) (k : cont A)
    prev (s : string) cs :
  (forall sp c tail, sp <> "" -> allChars isSpace sp = true ->
     isSpace c = true -> s <> sp ++ w ++ String c tail) ->
  rmatch (Seq (plus ws) (Seq (lit w) (Seq (plus ws) r))) prev s cs k = None.
Proof.
  intro H.
  destruct (rmatch (Seq (plus ws) (Seq (lit w) (Seq (plus ws) r))) prev s cs k)
    as [x|] eqn:E; [exfalso|reflexivity].
  apply rmatch_sound in E as (p' & s' & cs' & HM & _).
  destruct HM as (p1 & s1 & c1 & Hsp & HM).
  apply plus_class in Hsp as (sp & Hne & Hsp & -> & ->).
  destruct HM as (p2 & s2 & c2 & Hl & HM).
  apply matches_lit in Hl as [-> ->].
  destruct HM as (p3 & s3 & c3 & Hsp2 & _).
  apply plus_class in Hsp2 as (sp2 & Hne2 & Hsp2 & -> & _).
  destruct sp2 as [|c tail]; [congruence|].
  cbn [allChars] in Hsp2. apply andb_true_iff in Hsp2 as [Hc _].
  now apply (H sp c (tail ++ s3) Hne Hsp Hc).
Qed.

Lemma operand_split (w a x1 x2 : string) (sp0 : ascii) (rest : string) :
  allChars (fun c => negb (isSpace c)) w = true ->
  isSpace sp0 = true ->
  notBlank (lastOr None a) = true ->
  standsAlone w (a ++ String sp0 "") = false ->
  a = x1 ++ x2 -> x2 <> "" ->
  forall sp c tail, sp <> "" -> allChars isSpace sp = true ->
    isSpace c = true -> x2 ++ String sp0 rest <> sp ++ w ++ String c tail.
Proof.
  intros Hw Hsp0 Hlast Hno -> N2 sp c tail Hne Hsp Hc E.
  assert (H : standsAlone w (x2 ++ String sp0 "") = true).
  { apply (alone_after_blanks w Hw sp x2 sp0 rest c tail); try assumption.
    now apply (notBlank_last_suffix x1 x2). }
  apply (standsAlone_app_r w x1) in H.
  rewrite <- app_assoc in H. congruence.
Qed.

(** The groups that the conditional-expression pattern captures: the
    expression is split at the first [if] between blanks and at the first
    [else] between blanks behind it. *)
Lemma ternaryRe_groups (a cond b : string) :
  operand a = true -> operand cond = true -> operand b = true ->
  standsAlone "if" (a ++ " ") = false ->
  standsAlone "else" (cond ++ " ") = false ->
  exists f : found,
    search ternaryRe (a ++ " if " ++ cond ++ " else " ++ b) = Some f /\
    group 1 f = a /\ group 2 f = cond /\ group 3 f = b.
Proof.
  intros Ha Hc Hb Hif Helse.
  apply operand_parts in Ha as (Na & Ha1 & Ha2 & Ha3).
  apply operand_parts in Hc as (Nc & Hc1 & Hc2 & Hc3).
  apply operand_parts in Hb as (Nb & Hb1 & Hb2 & Hb3).
  set (T := a ++ " if " ++ cond ++ " else " ++ b).
  assert (M : rmatch ternaryRe None T []
                (fun p s' cs => Some (p, s', cs)) =
              Some (lastOr (Some " "%char) b, "", [(3, b); (2, cond); (1, a)])).
  { unfold ternaryRe, T. cbn [seqs]. unfold dot.
    rewrite rmatch_Seq, rmatch_Bol_start.
    apply group_lazy_plus; [exact Na|exact Ha3| |].
    - intros x1 x2 q cs' E N1 N2.
      apply split_refused.
      change (" if " ++ cond ++ " else " ++ b)
        with (String " " ("if " ++ cond ++ " else " ++ b)).
      now apply (operand_split "if" a x1 x2).
    - change (" if " ++ cond ++ " else " ++ b)
        with (String " " ("if" ++ String " " (cond ++ " else " ++ b))).
      rewrite plus_ws_single by reflexivity.
      rewrite rmatch_Seq, rmatch_lit.
      rewrite plus_ws_single; [|reflexivity|rewrite head_app by exact Nc; exact Hc1].
      apply group_lazy_plus; [exact Nc|exact Hc3| |].
      + intros x1 x2 q cs' E N1 N2.
        apply split_refused.
        change (" else " ++ b) with (String " " ("else " ++ b)).
        now apply (operand_split "else" cond x1 x2).
      + change (" else " ++ b) with (String " " ("else" ++ String " " b)).
        rewrite plus_ws_single by reflexivity.
        rewrite rmatch_Seq, rmatch_lit.
        rewrite plus_ws_single; [|reflexivity|exact Hb1].
        apply group_greedy_plus_eol; [exact Nb|exact Hb3|reflexivity]. }
  eexists. split.
  - unfold search. rewrite searchFrom_eq, M. reflexivity.
  - repeat split; reflexivity.
Qed.

Lemma operands_trimmed (a cond b : string) :
  operand a = true -> operand b = true ->
  trim (String " " (a ++ " if " ++ cond ++ " else " ++ b)) =
  a ++ " if " ++ cond ++ " else " ++ b.
Proof.
  intros Ha Hb. set (T := a ++ " if " ++ cond ++ " else " ++ b).
  apply operand_parts in Ha as (Na & Ha1 & Ha2 & Ha3).
  apply operand_parts in Hb as (Nb & Hb1 & Hb2 & Hb3).
  transitivity (trim T); [reflexivity|].
  apply trim_id.
  - unfold T. rewrite head_app by exact Na. exact Ha1.
  - unfold T. repeat apply notBlank_last_app. exact Hb2.
Qed.

(** The rule for a line that reads [return a if cond else b] between the
    blanks at its ends. *)
Lemma ternary_of_return (jsLine a cond b : string) :
  trim jsLine = "return " ++ a ++ " if " ++ cond ++ " else " ++ b ->
  operand a = true -> operand cond = true -> operand b = true ->
  standsAlone "if" (a ++ " ") = false ->
  standsAlone "else" (cond ++ " ") = false ->
  ternary jsLine =
  "return (" ++ cond ++ ") ? (" ++ a ++ ") : (" ++ b ++ ")".
Proof.
  intros Hj Ha Hc Hb Hif Helse.
  destruct (ternaryRe_groups a cond b Ha Hc Hb Hif Helse) as (f & Hf & G1 & G2 & G3).
  pose proof (operands_trimmed a cond b Ha Hb) as E.
  set (T := a ++ " if " ++ cond ++ " else " ++ b) in *.
  unfold ternary. rewrite Hj.
  change (startsWith "return" ("return " ++ T)) with true.
  change (drop 6 ("return " ++ T)) with (String " " T).
  cbv iota. rewrite E, Hf, G1, G2, G3. reflexivity.
Qed.

Lemma startsWith_app_self (w x : string) : startsWith w (w ++ x) = true.
Proof.
  induction w as [|a w IH]; [reflexivity|].
  cbn [append startsWith]. now rewrite Ascii.eqb_refl, IH.
Qed.

(** A pattern tied to the start of the text and to a word finds nothing in
    a text that starts otherwise. *)
Lemma anchored_word_fails (kw : string) (r : regex) (s : string) :
  startsWith kw s = false -> test (Seq Bol (Seq (lit kw) r)) s = false.
Proof.
  intro H. unfold test.
  destruct (search (Seq Bol (Seq (lit kw) r)) s) as [f|] eqn:E; [exfalso|reflexivity].
  apply search_parts in E as [Hs HM].
  destruct HM as (p1 & s1 & c1 & (Hbol & -> & -> & ->) & HM).
  apply lastOr_None in Hbol. rewrite Hbol in Hs. cbn [append] in Hs.
  destruct HM as (p2 & s2 & c2 & Hl & _).
  apply matches_lit in Hl as [Hl _].
  rewrite Hs, Hl, startsWith_app_self in H. discriminate.
Qed.

(** A line that starts with [return] is no header of a block. *)
Lemma controlFlow_return (jsLine T : string) (relativeIndent : Z)
    (stack : list Z) :
  search forLoopRe jsLine = None ->
  trim jsLine = "return " ++ T ->
  controlFlow jsLine relativeIndent stack = (jsLine, stack).
Proof.
  intros Hfor Htrim. unfold controlFlow. rewrite Hfor, Htrim.
  unfold blockTestRe, elseTestRe. cbn [seqs].
  now rewrite !anchored_word_fails by reflexivity.
Qed.

(** The translation of a line that the keyword and membership rules leave
    as [return a if cond else b], whatever the blanks around it. *)
Lemma translateLine_ternary (line a cond b : string) (relativeIndent : Z)
    (stack : list Z) :
  trim (membership (basicConversions line)) =
    "return " ++ a ++ " if " ++ cond ++ " else " ++ b ->
  search forLoopRe (membership (basicConversions line)) = None ->
  operand a = true -> operand cond = true -> operand b = true ->
  standsAlone "if" (a ++ " ") = false ->
  standsAlone "else" (cond ++ " ") = false ->
  translateLine line relativeIndent stack =
    (builtins ("return (" ++ cond ++ ") ? (" ++ a ++ ") : (" ++ b ++ ")"),
     stack).
Proof.
  intros Hj Hfor Ha Hc Hb Hif Helse.
  unfold translateLine.
  rewrite (controlFlow_return _ _ relativeIndent stack Hfor Hj).
  now rewrite (ternary_of_return _ a cond b Hj).
Qed.

End TernaryFacts.

(* ================================================================= *)
(** ** Properties of the transpiler *)

Module TranspilerFacts.
Import Str Regex Transpiler Harness Notions RegexFacts.

(** C6.  The three-level nesting if / for / if is translated to the three
    opening lines and the [return], followed by exactly three closing
    braces, the innermost block closed first (at depth 3, then 2, then
    1); the braces of the body nest as three blocks inside one another and
    the emitted text is read as a function by the host fragment. *)
Theorem nested_blocks_are_closed :
  translateBody Sources.nested =
    "if (x > 0) {" ++ nl ++
    "for (const i of x) {" ++ nl ++
    "        if (i > 1) {" ++ nl ++
    "            return i" ++ nl ++
    closeBrace 3 ++ closeBrace 2 ++ closeBrace 1 /\
  count "}" (translateBody Sources.nested) = 3 /\
  count "{" (translateBody Sources.nested) = 3 /\
  braces (translateBody Sources.nested) = "{{{}}}" /\
  balanced (translateBody Sources.nested) = true /\
  emit Sources.nested =
    Ok (mkEmitted "f" "x" (translateBody Sources.nested)
          (wrap "f" "x" (translateBody Sources.nested))) /\
  exists fn : CompiledFunction,
    evaluateUserCode Runtime.host Sources.nested = Ok fn /\
    fn_name fn = "f" /\ fn_params fn = "x" /\
    fn_call fn [JSNumber 0] = Returns JSUndefined.
Proof.
  repeat (split; [vm_compute; reflexivity|]).
  eexists. split; [vm_compute; reflexivity|].
  repeat split; vm_compute; reflexivity.
Qed.

(** C7, on the code as it is.  The [else:] line becomes [} else {] and
    pushes no level, whatever the stack; but the dedent that precedes it
    has already closed the block of the [if], so the body of an if/else
    carries the braces [{ } } {]: its second closing brace has no block to
    close and its last block is never closed.  The host refuses the
    emitted text. *)
Theorem else_branch_breaks_nesting :
  (forall (relativeIndent : Z) (stack : list Z),
     controlFlow "else:" relativeIndent stack = ("} else {", stack)) /\
  translateBody Sources.ifElse =
    "if (x > 0) {" ++ nl ++
    "    return 1" ++ nl ++
    closeBrace 1 ++
    "} else {" ++ nl ++
    "    return 2" ++ nl /\
  braces (translateBody Sources.ifElse) = "{}}{" /\
  balanced (translateBody Sources.ifElse) = false /\
  evaluateUserCode Runtime.host Sources.ifElse =
    Err "Compilation error: Python transpilation error: SyntaxError: text outside the modelled fragment".
Proof.
  split; [intros; vm_compute; reflexivity|].
  repeat split; vm_compute; reflexivity.
Qed.

(** C8, as the code has it.  A body line that the keyword and membership
    rules leave as [return a if cond else b], whatever the blanks around
    it, and that is not taken for the header of a [for] loop is translated
    to [return (cond) ? (a) : (b)], to which the rules for the built-in
    functions are then applied; this for operands that stand on one line
    without blanks at their ends, [a] holding no [if] between blanks and
    [cond] no [else] between blanks (each with a blank put behind it).
    The stack of levels is left alone.
    The function whose body is [return x if x > 0 else -x] is emitted with
    the body [return (x > 0) ? (x) : (-x)] and, run by the host fragment,
    returns the absolute value of its integer argument. *)
Theorem ternary_return :
  (forall (line a cond b : string) (relativeIndent : Z) (stack : list Z),
     trim (membership (basicConversions line)) =
       "return " ++ a ++ " if " ++ cond ++ " else " ++ b ->
     search forLoopRe (membership (basicConversions line)) = None ->
     operand a = true -> operand cond = true -> operand b = true ->
     standsAlone "if" (a ++ " ") = false ->
     standsAlone "else" (cond ++ " ") = false ->
     translateLine line relativeIndent stack =
       (builtins ("return (" ++ cond ++ ") ? (" ++ a ++ ") : (" ++ b ++ ")"),
        stack)) /\
  translateBody Sources.absolute = "return (x > 0) ? (x) : (-x)" ++ nl /\
  exists fn : CompiledFunction,
    evaluateUserCode Runtime.host Sources.absolute = Ok fn /\
    forall z : Z,
      fn_call fn [JSNumber z] = Returns (JSNumber (Z.abs z)) /\
      fn_call fn [JSNumber z] = Returns (JSNumber (if Z.gtb z 0 then z else (- z)%Z)).
Proof.
  split; [exact TernaryFacts.translateLine_ternary|].
  split; [vm_compute; reflexivity|].
  exists (mkCompiled "f" "x"
            (JSFragment.callProgram
               (JSFragment.mkProgram "f" ["x"]
                  [JSFragment.SReturn
                     (Some (JSFragment.ECond
                              (JSFragment.EGt (JSFragment.EVar "x") (JSFragment.ENum 0))
                              (JSFragment.EVar "x")
                              (JSFragment.ENeg (JSFragment.EVar "x"))))]))).
  split; [vm_compute; reflexivity|].
  intro z.
  assert (E : JSFragment.callProgram
                (JSFragment.mkProgram "f" ["x"]
                   [JSFragment.SReturn
                      (Some (JSFragment.ECond
                               (JSFragment.EGt (JSFragment.EVar "x") (JSFragment.ENum 0))
                               (JSFragment.EVar "x")
                               (JSFragment.ENeg (JSFragment.EVar "x"))))])
                [JSNumber z]
              = Returns (JSNumber (if Z.gtb z 0 then z else (- z)%Z))).
  { unfold JSFragment.callProgram. simpl. destruct (Z.gtb z 0); reflexivity. }
  simpl fn_call. rewrite E. split; [|reflexivity].
  do 2 f_equal. destruct z; reflexivity.
Qed.

(** The rule at the line of the absolute-value function. *)
Lemma ternary_return_witness :
  translateLine "    return x if x > 0 else -x" 4 [0%Z; 4%Z] =
  ("return (x > 0) ? (x) : (-x)", [0%Z; 4%Z]).
Proof.
  exact (proj1 ternary_return "    return x if x > 0 else -x" "x" "x > 0" "-x"
           4%Z [0%Z; 4%Z]
           eq_refl eq_refl eq_refl eq_refl eq_refl eq_refl eq_refl).
Defined.

(** C8 as stated fails: with the conditional expression [1 if p else 2],
    in parentheses, for [a], the line [return a if q else 3] is split at
    the [if] inside [a], and what is emitted is not
    [return (q) ? (a) : (3)]. *)
Lemma ternary_return_counterexample :
  let a := "(1 if p else 2)" in
  let cond := "q" in
  let b := "3" in
  operand a = true /\ operand cond = true /\ operand b = true /\
  fst (translateLine ("return " ++ a ++ " if " ++ cond ++ " else " ++ b) 0 [0%Z])
    = "return (p) ? ((1) : (2) if q else 3)" /\
  fst (translateLine ("return " ++ a ++ " if " ++ cond ++ " else " ++ b) 0 [0%Z])
    <> "return (" ++ cond ++ ") ? (" ++ a ++ ") : (" ++ b ++ ")" /\
  standsAlone "if" (a ++ " ") = true /\
  translateBody Sources.nestedConditional =
    "return (p) ? ((1) : (2) if q else 3)" ++ nl.
Proof.
  cbv zeta. repeat split; try (vm_compute; reflexivity).
  vm_compute. discriminate.
Qed.

End TranspilerFacts.

(* ================================================================= *)
(** ** Two compilations of one text, and user code with effects *)

Module SharedFacts.
Import Harness Notions Shared.

Lemma seenAfterAll_same (vs : list JSValue) : seenAfterAll vs vs = vs.
Proof.
  induction vs as [|v vs IH]; [reflexivity|].
  cbn [seenAfterAll]. rewrite IH. unfold seenAfter. now destruct (isObject v).
Qed.

(** Arguments that are left as they were leave the input as it was. *)
Lemma inputAfter_kept (problem : LeetCodeProblem) (testCase : TestCase)
    (argsAfter : list JSValue) :
  seenAfterAll (callArgs problem testCase) argsAfter = callArgs problem testCase ->
  inputAfter problem testCase argsAfter = tc_input testCase.
Proof.
  assert (One : forall v, seenAfterAll [v] argsAfter = [v] ->
                          seenAfter v (hd v argsAfter) = v).
  { intros v H. destruct argsAfter as [|v' rest]; cbn [hd].
    - unfold seenAfter. now destruct (isObject v).
    - cbn [seenAfterAll] in H. now injection H. }
  unfold callArgs, inputAfter.
  destruct (tc_input testCase) as [ | | b | z | s | elems | fields ];
    try (now apply One).
  destruct (Nat.eqb (List.length elems) (List.length (parameters problem)));
    [|now apply One].
  now intros ->.
Qed.

Section Runs.
Variable Ambient : Type.
Variable h : Host.
Variable f : EffectfulCallable Ambient.
Variable problem : LeetCodeProblem.
Hypothesis Hargs : leavesArguments f.
Hypothesis Hamb : ignoresAmbient f.

Lemma runCase_kept (st : World * Ambient) (testCase : TestCase) :
  snd (runCase h f problem st testCase) = testCase.
Proof.
  unfold runCase. destruct st as [w ambient].
  pose proof (Hargs ambient (callArgs problem testCase)) as H.
  destruct (f ambient (callArgs problem testCase)) as [[outcome argsAfter] ambient1].
  cbn [fst snd] in H. rewrite (inputAfter_kept _ _ _ H).
  destruct outcome; cbn [snd]; now destruct testCase.
Qed.

Lemma runCase_agree (clock1 clock2 : nat -> Z) (st1 st2 : World * Ambient)
    (testCase : TestCase) :
  verdict (fst (fst (runCase (withClock h clock1) f problem st1 testCase))) =
  verdict (fst (fst (runCase (withClock h clock2) f problem st2 testCase))).
Proof.
  unfold runCase. destruct st1 as [w1 ambient1], st2 as [w2 ambient2].
  pose proof (Hamb ambient1 ambient2 (callArgs problem testCase)) as H.
  destruct (f ambient1 (callArgs problem testCase)) as [[o1 a1] b1].
  destruct (f ambient2 (callArgs problem testCase)) as [[o2 a2] b2].
  cbn [fst] in H. subst o2. destruct o1; reflexivity.
Qed.

Lemma runCases_kept (cases : list TestCase) : forall st : World * Ambient,
  snd (runCases h f problem st cases) = cases.
Proof.
  induction cases as [|testCase rest IH]; intro st; [reflexivity|].
  cbn [runCases].
  pose proof (runCase_kept st testCase) as H1.
  destruct (runCase h f problem st testCase) as [[r st1] testCase1].
  pose proof (IH st1) as H2.
  destruct (runCases h f problem st1 rest) as [[rs st2] rest1].
  cbn [snd] in *. congruence.
Qed.

End Runs.

Lemma runCases_agree (Ambient : Type) (h : Host) (f : EffectfulCallable Ambient)
    (problem : LeetCodeProblem) (clock1 clock2 : nat -> Z)
    (cases : list TestCase) :
  ignoresAmbient f ->
  forall st1 st2 : World * Ambient,
    map verdict (fst (fst (runCases (withClock h clock1) f problem st1 cases))) =
    map verdict (fst (fst (runCases (withClock h clock2) f problem st2 cases))).
Proof.
  intro Hamb. induction cases as [|testCase rest IH]; intros st1 st2;
    [reflexivity|].
  cbn [runCases].
  pose proof (runCase_agree Ambient h f problem Hamb clock1 clock2 st1 st2 testCase) as H1.
  destruct (runCase (withClock h clock1) f problem st1 testCase) as [[r1 s1] t1].
  destruct (runCase (withClock h clock2) f problem st2 testCase) as [[r2 s2] t2].
  pose proof (IH s1 s2) as H2.
  destruct (runCases (withClock h clock1) f problem s1 rest) as [[rs1 u1] v1].
  destruct (runCases (withClock h clock2) f problem s2 rest) as [[rs2 u2] v2].
  cbn [fst map] in *. congruence.
Qed.

(** On a function without effects the harness is the one of
    [Harness.runCases], and the cases stay as they are. *)
Lemma runCases_lift (Ambient : Type) (h : Host) (f : Callable)
    (problem : LeetCodeProblem) (cases : list TestCase) :
  forall (w : World) (ambient : Ambient),
    runCases h (lift f) problem (w, ambient) cases =
    (fst (Harness.runCases h f problem w cases),
     (snd (Harness.runCases h f problem w cases), ambient), cases).
Proof.
  induction cases as [|testCase rest IH]; intros w ambient; [reflexivity|].
  cbn [runCases Harness.runCases].
  assert (H1 : runCase h (lift f) problem (w, ambient) testCase =
               (fst (Harness.runCase h f problem w testCase),
                (snd (Harness.runCase h f problem w testCase), ambient),
                testCase)).
  { unfold runCase, Harness.runCase, lift.
    rewrite inputAfter_kept by apply seenAfterAll_same.
    destruct (f (callArgs problem testCase)); now destruct testCase. }
  rewrite H1.
  destruct (Harness.runCase h f problem w testCase) as [r w1]. cbn [fst snd].
  rewrite IH.
  destruct (Harness.runCases h f problem w1 rest) as [rs w2]. reflexivity.
Qed.


(** The function compiled from [Sources.counter] has no effects. *)
Lemma counter_has_no_effects :
  let f := JSMutation.callProgram
             (JSMutation.mkProgram "f" ["nums"]
                [JSMutation.SReturn (JSMutation.ELength "nums")]) in
  leavesArguments f /\ ignoresAmbient f.
Proof.
  split.
  - intros ambient args. destruct args as [|v rest]; [reflexivity|].
    cbn. unfold seenAfter.
    rewrite seenAfterAll_same. now destruct (isObject v).
  - intros ambient1 ambient2 args. reflexivity.
Qed.



End SharedFacts.


(* ================================================================= *)
(** ** More on the harness: calls, timing, trial run against submission *)

Module HarnessMore.
Import Harness Scene Notions HarnessFacts.

Section Lemmas.
Variable h : Host.
Variable userFunction : Callable.
Variable problem : LeetCodeProblem.

Lemma runCases_calls (cases : list TestCase) : forall w : World,
  calls (snd (runCases h userFunction problem w cases)) =
  (calls w ++ map (callArgs problem) cases)%list.
Proof.
  induction cases as [|c cases IH]; intro w.
  - simpl. now rewrite app_nil_r.
  - rewrite runCases_cons. simpl snd. rewrite IH, runCase_calls.
    rewrite <- app_assoc. reflexivity.
Qed.

Lemma runCase_reads (w : World) (c : TestCase) :
  reads (snd (runCase h userFunction problem w c)) =
  match error (fst (runCase h userFunction problem w c)) with
  | None => S (S (reads w))
  | Some _ => S (reads w)
  end.
Proof.
  unfold runCase. destruct (userFunction (callArgs problem c)); reflexivity.
Qed.

Lemma runCase_time (w : World) (c : TestCase) :
  (forall n, (now h n <= now h (S n))%Z) ->
  (0 <= executionTime (fst (runCase h userFunction problem w c)))%Z.
Proof.
  intro Hm. unfold runCase.
  destruct (userFunction (callArgs problem c)); simpl; [|lia].
  specialize (Hm (reads w)). lia.
Qed.

(** The verdict of a case does not depend on the state it is run in. *)
Lemma runCase_verdict (w1 w2 : World) (c : TestCase) :
  verdict (fst (runCase h userFunction problem w1 c)) =
  verdict (fst (runCase h userFunction problem w2 c)).
Proof.
  unfold runCase. destruct (userFunction (callArgs problem c)); reflexivity.
Qed.

Lemma runCases_verdict (cases : list TestCase) : forall w1 w2 : World,
  map verdict (fst (runCases h userFunction problem w1 cases)) =
  map verdict (fst (runCases h userFunction problem w2 cases)).
Proof.
  induction cases as [|c cases IH]; intros w1 w2; [reflexivity|].
  rewrite !runCases_cons. simpl. f_equal; [apply runCase_verdict|apply IH].
Qed.

Lemma forallb_passed_verdict (rs1 rs2 : list TestResult) :
  map verdict rs1 = map verdict rs2 ->
  forallb passed rs1 = forallb passed rs2.
Proof.
  revert rs2. induction rs1 as [|r rs1 IH]; intros [|r2 rs2] H;
    try discriminate; [reflexivity|].
  simpl in H. unfold verdict at 1 2 in H. inversion H as [[Hp Ha He Hrest]].
  simpl. rewrite Hp. f_equal. now apply IH.
Qed.

Lemma not_self_app {A : Type} (l : list A) (x : A) : l <> (l ++ [x])%list.
Proof.
  intro E. apply (f_equal (@List.length A)) in E.
  rewrite length_app in E. simpl in E. lia.
Qed.

End Lemmas.

(** X1.  The user function is called once for every case, in the order
    of the list and with the arguments of the arity rule, whether earlier
    calls returned or threw; nothing else is called. *)
Theorem every_case_called_once (h : Host) (userFunction : Callable)
    (problem : LeetCodeProblem) (w : World) (cases : list TestCase) :
  calls (snd (runCases h userFunction problem w cases)) =
  (calls w ++ map (callArgs problem) cases)%list.
Proof. apply runCases_calls. Qed.

(** X2.  With a clock that never runs backwards, no result carries a
    negative execution time. *)
Theorem execution_time_nonnegative (h : Host) (userFunction : Callable)
    (problem : LeetCodeProblem) (cases : list TestCase) :
  (forall n, (now h n <= now h (S n))%Z) ->
  forall w : World,
    Forall (fun r => (0 <= executionTime r)%Z)
      (fst (runCases h userFunction problem w cases)).
Proof.
  intro Hm. induction cases as [|c cases IH]; intro w.
  - constructor.
  - rewrite runCases_cons. simpl. constructor.
    + now apply runCase_time.
    + apply IH.
Qed.

Lemma execution_time_nonnegative_witness :
  Forall (fun r => (0 <= executionTime r)%Z)
    (fst (runCases Runtime.host (fun _ => Returns (JSNumber 3))
            (mkProblem ["n"] [] None) (mkWorld 0 [])
            [mkTestCase (JSNumber 7) (JSNumber 3)])).
Proof.
  apply (execution_time_nonnegative Runtime.host).
  intro n. change (Runtime.ticking n <= Runtime.ticking (S n))%Z.
  unfold Runtime.ticking. lia.
Defined.

End HarnessMore.

(* ================================================================= *)
(** ** The results overlay *)

Module OverlayFacts.
Import Harness Scene Notions Overlay SceneFacts.

Lemma filter_length_le {A : Type} (f : A -> bool) (l : list A) :
  List.length (List.filter f l) <= List.length l.
Proof.
  induction l as [|a l IH]; simpl; [lia|]. destruct (f a); simpl; lia.
Qed.

Lemma all_counted {A : Type} (f : A -> bool) (l : list A) :
  Nat.eqb (List.length (List.filter f l)) (List.length l) = forallb f l.
Proof.
  induction l as [|a l IH]; [reflexivity|].
  simpl. destruct (f a); simpl.
  - exact IH.
  - apply Nat.eqb_neq. pose proof (filter_length_le f l). lia.
Qed.

Lemma resultLines_layout (h : Host) (rs : list TestResult) :
  forall (y : Z) (i : nat),
    List.length (List.filter isTestLine (fst (resultLines h y i rs))) = List.length rs /\
    (y + 30 * Z.of_nat (List.length rs) <= snd (resultLines h y i rs)
       <= y + 60 * Z.of_nat (List.length rs))%Z /\
    Forall (fun x => (y <= itemY x /\ itemY x + 40 <= y + 60 * Z.of_nat (List.length rs))%Z)
      (fst (resultLines h y i rs)).
Proof.
  induction rs as [|r rs IH]; intros y i.
  - cbn [resultLines fst snd List.length List.filter]. repeat split; try lia. constructor.
  - cbn [resultLines]. change (List.length (r :: rs)) with (S (List.length rs)).
    rewrite Nat2Z.inj_succ. destruct (passed r).
    + specialize (IH (y + 30)%Z (S i)).
      destruct (resultLines h (y + 30) (S i) rs) as [more y'].
      cbn [fst snd] in IH |- *. destruct IH as (IH1 & IH2 & IH3).
      cbn [List.filter isTestLine List.length].
      split; [lia|]. split; [lia|].
      constructor; [cbn [itemY]; lia|].
      eapply Forall_impl; [|exact IH3]. cbv beta. intros x Hx. lia.
    + specialize (IH (y + 30 + 30)%Z (S i)).
      destruct (resultLines h (y + 30 + 30) (S i) rs) as [more y'].
      cbn [fst snd] in IH |- *. destruct IH as (IH1 & IH2 & IH3).
      split.
      { destruct (errorShown (error r));
          cbn [List.filter isTestLine List.length]; lia. }
      split; [lia|].
      constructor; [cbn [itemY]; lia|].
      constructor; [destruct (errorShown (error r)); cbn [itemY]; lia|].
      eapply Forall_impl; [|exact IH3]. cbv beta. intros x Hx. lia.
Qed.

Lemma submitSolution_shown (h : Host) (s : LeetCodeChallenge) (code : string) :
  counterInvariant s -> phase s = Running ->
  shown (submitSolution h s code) = shown s \/
  exists x, shown (submitSolution h s code) = (shown s ++ [x])%list /\ wellShown x.
Proof.
  intros [Hb Hp] Ph. unfold MAX_ATTEMPTS in *.
  assert (Hlt : (failedAttempts s < 3)%Z).
  { destruct (Z.eq_dec (failedAttempts s) 3) as [E|E]; [|lia].
    apply Hp in E. congruence. }
  unfold submitSolution. destruct (evaluateUserCode h code) as [fn|m].
  - destruct (runCases h (fn_call fn) (problem s) (world s) (allTests (problem s)))
      as [results w].
    destruct (forallb passed results) eqn:P.
    + right. exists ShowSuccess. split; [reflexivity|exact I].
    + cbn [failedAttempts setWorld]. unfold MAX_ATTEMPTS.
      destruct (Z.geb (failedAttempts s + 1) 3) eqn:G; [left; reflexivity|].
      right. eexists. split; [reflexivity|].
      rewrite Z.geb_leb in G. apply Z.leb_gt in G.
      split; [exact P|].
      assert (failedAttempts s = 0 \/ failedAttempts s = 1)%Z as [-> | ->] by lia;
        [right|left]; reflexivity.
  - right. exists (ShowError m). split; [reflexivity|exact I].
Qed.

Lemma step_wellShown (h : Host) (s : LeetCodeChallenge) (e : Event) :
  counterInvariant s -> Forall wellShown (shown s) ->
  Forall wellShown (shown (step h s e)).
Proof.
  intros Hi Hs.
  destruct e as [data|code|code|confirmSkip|]; unfold step; lazy beta iota.
  - exact Hs.
  - destruct (phase s); try exact Hs.
    unfold runTests. destruct (evaluateUserCode h code) as [fn|m].
    + destruct (runCases h (fn_call fn) (problem s) (world s) (testCases (problem s))).
      simpl. apply Forall_app. split; [exact Hs|]. repeat constructor.
    + simpl. apply Forall_app. split; [exact Hs|]. repeat constructor.
  - destruct (phase s) eqn:Ph; try exact Hs.
    destruct (submitSolution_shown h s code Hi Ph) as [E | (x & E & Hx)]; rewrite E.
    + exact Hs.
    + apply Forall_app. split; [exact Hs|]. now constructor.
  - destruct (phase s); try exact Hs.
    unfold skipProblem. destruct confirmSkip; [|exact Hs].
    simpl. apply Forall_app. split; [exact Hs|]. repeat constructor.
  - destruct (phase s); try exact Hs. destruct (closePending s); exact Hs.
Qed.

Lemma run_wellShown (h : Host) (es : list Event) : forall s : LeetCodeChallenge,
  counterInvariant s -> Forall wellShown (shown s) ->
  Forall wellShown (shown (run h s es)).
Proof.
  induction es as [|e es IH]; intros s Hi Hs; [exact Hs|].
  simpl. apply IH; [now apply step_invariant|now apply step_wellShown].
Qed.

(** X3.  Along every run of the scene, a results overlay asked for by a
    submission holds at least one failed test and announces one or two
    attempts as remaining; it is drawn with the title "> SOME TESTS
    FAILED", a red border and that warning.  The title "> ALL TESTS
    PASSED" is never drawn. *)
Theorem submission_overlay_shows_failure (h : Host) (p : LeetCodeProblem)
    (es : list Event) :
  Forall wellShown (shown (run h (fresh p) es)) /\
  forall results isSubmission attemptsRemaining,
    In (ShowTestResults results isSubmission attemptsRemaining)
       (shown (run h (fresh p) es)) ->
    title (showTestResults h results isSubmission attemptsRemaining)
      <> "> ALL TESTS PASSED" /\
    (isSubmission = true ->
     title (showTestResults h results true attemptsRemaining) = "> SOME TESTS FAILED" /\
     borderColor (showTestResults h results true attemptsRemaining) = red /\
     warning (showTestResults h results true attemptsRemaining) = attemptsRemaining /\
     (attemptsRemaining = Some 1%Z \/ attemptsRemaining = Some 2%Z)).
Proof.
  assert (W : Forall wellShown (shown (run h (fresh p) es))).
  { apply run_wellShown; [apply fresh_invariant|constructor]. }
  split; [exact W|].
  intros results isSubmission ar Hin.
  rewrite Forall_forall in W. specialize (W _ Hin).
  destruct isSubmission.
  - simpl in W. destruct W as [P Har].
    assert (T : title (showTestResults h results true ar) = "> SOME TESTS FAILED").
    { unfold showTestResults. rewrite all_counted, P.
      destruct (resultLines h (-80) 0 _). reflexivity. }
    split; [rewrite T; discriminate|]. intros _.
    split; [exact T|].
    unfold showTestResults. rewrite all_counted, P.
    destruct (resultLines h (-80) 0 _). simpl.
    split; [reflexivity|]. split; [|exact Har].
    destruct Har as [-> | ->]; reflexivity.
  - split; [|discriminate].
    unfold showTestResults. destruct (resultLines h (-80) 0 _).
    simpl. discriminate.
Qed.

(** A failed submission of the identity against a case that expects 0 for
    the input 5: its overlay is the red one, with two attempts left. *)
Lemma submission_overlay_shows_failure_witness :
  let results := [mkTestResult false (JSNumber 5) (JSNumber 0) (JSNumber 5) None 3] in
  title (showTestResults Runtime.host results true (Some 2%Z)) = "> SOME TESTS FAILED" /\
  borderColor (showTestResults Runtime.host results true (Some 2%Z)) = red.
Proof.
  intro results.
  pose proof (proj2 (submission_overlay_shows_failure Runtime.host
                (mkProblem ["n"] [mkTestCase (JSNumber 5) (JSNumber 0)] None)
                [Launch (mkProblem ["n"] [mkTestCase (JSNumber 5) (JSNumber 0)] None);
                 PressSubmit Sources.identity])
              results true (Some 2%Z)) as H.
  destruct H as [_ H]; [vm_compute; left; reflexivity|].
  destruct (H eq_refl) as (T & B & _). now split.
Defined.

(** X4.  The overlay lists at most five results, one line each, and adds
    the line that counts the others exactly when there are more; every
    text it adds for them is anchored between -80 and 220, inside the panel
    of height 450; its two counts are equal exactly when every result
    passed. *)
Theorem overlay_layout (h : Host) (results : list TestResult)
    (isSubmission : bool) (attemptsRemaining : option Z) :
  let o := showTestResults h results isSubmission attemptsRemaining in
  List.length (List.filter isTestLine (items o)) = Nat.min 5 (List.length results) /\
  Forall (fun x => (-80 <= itemY x <= 220)%Z) (items o) /\
  (forall y n, In (MoreLine y n) (items o) <->
     5 < List.length results /\ n = List.length results - 5 /\
     y = snd (resultLines h (-80) 0 (firstn 5 results))) /\
  (passedCount o = totalCount o <-> forallb passed results = true) /\
  totalCount o = List.length results.
Proof.
  cbv zeta. unfold showTestResults.
  assert (Hfirst : firstn (Nat.min 5 (List.length results)) results = firstn 5 results).
  { destruct (Nat.le_ge_cases 5 (List.length results)) as [H5|H5].
    - now rewrite Nat.min_l.
    - rewrite Nat.min_r by exact H5. rewrite !firstn_all2; [reflexivity|lia|lia]. }
  rewrite <- Hfirst.
  remember (Nat.min 5 (List.length results)) as m eqn:Hm.
  assert (Hm5 : m <= 5) by lia.
  assert (Hml : m <= List.length results) by lia.
  assert (Hmm : 5 <= List.length results -> m = 5) by lia.
  assert (Hms : List.length results <= 5 -> m = List.length results) by lia.
  clear Hm Hfirst.
  pose proof (resultLines_layout h (firstn m results) (-80)%Z 0) as (L1 & L2 & L3).
  assert (Hlen : List.length (firstn m results) = m)
    by (rewrite length_firstn; lia).
  rewrite Hlen in L1, L2, L3.
  destruct (resultLines h (-80) 0 (firstn m results)) as [lines y'] eqn:R.
  cbn [fst snd] in L1, L2, L3. cbn [items passedCount totalCount].
  split.
  { rewrite filter_app, length_app, L1.
    destruct (Nat.ltb _ _); cbn [List.filter isTestLine List.length]; lia. }
  split.
  { apply Forall_app. split.
    - eapply Forall_impl; [|exact L3]. cbv beta. intros x Hx. lia.
    - destruct (Nat.ltb _ _); repeat constructor; cbn [itemY]; lia. }
  split.
  { intros y n. rewrite in_app_iff. split.
    - intros [Hin | Hin].
      + exfalso. clear - R Hin.
        revert lines y' R Hin.
        generalize (firstn m results) as rs.
        generalize (-80)%Z as y0. generalize 0 as i.
        intros i y0 rs. revert i y0.
        induction rs as [|r rs IH]; intros i y0 lines y' R Hin.
        * simpl in R. injection R as <- <-. destruct Hin.
        * cbn [resultLines] in R. destruct (passed r).
          -- destruct (resultLines h (y0 + 30) (S i) rs) as [more y2] eqn:R2.
             injection R as <- <-. destruct Hin as [Hin|Hin]; [discriminate|].
             eapply IH; eassumption.
          -- destruct (resultLines h (y0 + 30 + 30) (S i) rs) as [more y2] eqn:R2.
             injection R as <- <-. destruct Hin as [Hin|[Hin|Hin]].
             ++ discriminate.
             ++ destruct (errorShown (error r)); discriminate.
             ++ eapply IH; eassumption.
      + destruct (Nat.ltb m (List.length results)) eqn:G; [|destruct Hin].
        apply Nat.ltb_lt in G. destruct Hin as [Hin|[]].
        injection Hin as <- <-.
        repeat split; try reflexivity; lia.
    - intros (H5 & -> & ->). right.
      assert (G : Nat.ltb m (List.length results) = true)
        by (apply Nat.ltb_lt; lia).
      rewrite G. left. f_equal. lia. }
  split; [|reflexivity].
  rewrite <- all_counted. symmetry. apply Nat.eqb_eq.
Qed.

End OverlayFacts.

(* ================================================================= *)
(** ** Problems made from challenges *)

Module GameDataFacts.
Import Harness Scene Notions GameData.

Lemma extractParameters_length (input : option JSValue) :
  List.length (extractParameters input) =
  match input with
  | Some (JSArray elems) => List.length elems
  | _ => 1
  end.
Proof.
  destruct input as [[ | | b | z | s | elems | fields ]|]; try reflexivity.
  unfold extractParameters. now rewrite length_map, length_seq.
Qed.

(** X5.  A problem made from a challenge declares as many parameters as
    the input of the challenge's first test case has elements (one when
    that input is no array or there is no case).  So the first case, when
    its input is an array, is always spread into positional arguments; any
    other case is spread exactly when its array input has that length.
    Such a problem has no hidden case: a submission runs the cases of the
    challenge and no other. *)
Theorem arity_comes_from_first_case (challenge : Challenge) (tier : string) :
  let p := launched (convertChallengeToProblem challenge tier) in
  List.length (parameters p) =
    match ch_testCases challenge with
    | c0 :: _ =>
        match tc_input c0 with
        | JSArray elems => List.length elems
        | _ => 1
        end
    | [] => 1
    end /\
  (forall c0 rest elems,
     ch_testCases challenge = c0 :: rest -> tc_input c0 = JSArray elems ->
     callArgs p c0 = elems) /\
  (forall c0 rest c elems0 elems,
     ch_testCases challenge = c0 :: rest -> tc_input c0 = JSArray elems0 ->
     tc_input c = JSArray elems ->
     callArgs p c =
       if Nat.eqb (List.length elems) (List.length elems0) then elems
       else [JSArray elems]) /\
  allTests p = ch_testCases challenge.
Proof.
  cbv zeta.
  assert (L : List.length (parameters (launched (convertChallengeToProblem challenge tier)))
              = match ch_testCases challenge with
                | c0 :: _ =>
                    match tc_input c0 with
                    | JSArray elems => List.length elems
                    | _ => 1
                    end
                | [] => 1
                end).
  { unfold launched, convertChallengeToProblem. cbn [parameters p_parameters].
    rewrite extractParameters_length.
    destruct (ch_testCases challenge) as [|c0 rest]; [reflexivity|].
    simpl. destruct (tc_input c0); reflexivity. }
  split; [exact L|].
  split.
  { intros c0 rest elems Hc Hi. unfold callArgs. rewrite Hi, L, Hc, Hi.
    now rewrite Nat.eqb_refl. }
  split.
  { intros c0 rest c elems0 elems Hc Hi0 Hi. unfold callArgs.
    rewrite Hi, L, Hc, Hi0. reflexivity. }
  unfold allTests, launched, convertChallengeToProblem. simpl. apply app_nil_r.
Qed.

(** A challenge whose single input is a list of four numbers: the list is
    spread into four arguments. *)
Lemma arity_comes_from_first_case_witness :
  callArgs
    (launched (convertChallengeToProblem
       (mkChallenge "white_01" "contains_duplicate"
          [mkTestCase (JSArray [JSNumber 1; JSNumber 2; JSNumber 3; JSNumber 1])
             (JSBool true)] 50) "white"))
    (mkTestCase (JSArray [JSNumber 1; JSNumber 2; JSNumber 3; JSNumber 1]) (JSBool true))
  = [JSNumber 1; JSNumber 2; JSNumber 3; JSNumber 1].
Proof.
  exact (proj1 (proj2 (arity_comes_from_first_case
                         (mkChallenge "white_01" "contains_duplicate"
                            [mkTestCase (JSArray [JSNumber 1; JSNumber 2; JSNumber 3; JSNumber 1])
                               (JSBool true)] 50) "white"))
           _ _ _ eq_refl eq_refl).
Defined.

(** X6.  Whatever the tier, the badge of a converted problem is green,
    yellow or red: the orange of difficulties 7 and 8 is never used.  The
    tiers white, blue and black give green, yellow and red. *)
Theorem badge_is_never_orange (challenge : Challenge) (tier : string) :
  let color := getDifficultyColor (p_difficulty (convertChallengeToProblem challenge tier)) in
  (color = "#4CAF50" \/ color = "#FFC107" \/ color = "#f44336") /\
  color <> "#FF9800" /\
  getDifficultyColor (p_difficulty (convertChallengeToProblem challenge "white")) = "#4CAF50" /\
  getDifficultyColor (p_difficulty (convertChallengeToProblem challenge "blue")) = "#FFC107" /\
  getDifficultyColor (p_difficulty (convertChallengeToProblem challenge "black")) = "#f44336".
Proof.
  cbv zeta. unfold convertChallengeToProblem. cbn [p_difficulty]. unfold difficultyLevel.
  split; [|split; [|repeat split]].
  - destruct (String.eqb tier "white"); [left; reflexivity|].
    destruct (String.eqb tier "blue"); [right; left; reflexivity|].
    destruct (String.eqb tier "black"); [right; right; reflexivity|].
    destruct (existsb (String.eqb tier) inheritedKeys);
      [right; right; reflexivity|left; reflexivity].
  - destruct (String.eqb tier "white"); [discriminate|].
    destruct (String.eqb tier "blue"); [discriminate|].
    destruct (String.eqb tier "black"); [discriminate|].
    destruct (existsb (String.eqb tier) inheritedKeys); discriminate.
Qed.

End GameDataFacts.

(* ================================================================= *)
(** ** The score *)

Module ScoreFacts.
Import QArith_base Qround Qminmax Score.
Local Open Scope Q_scope.

Lemma Qmax_0_l (x : Q) : 0 <= Qmax 0 x.
Proof. apply Q.le_max_l. Qed.

Lemma Qmax_0_le (x y : Q) : 0 <= y -> x <= y -> Qmax 0 x <= y.
Proof. intros H0 Hx. apply Q.max_lub; assumption. Qed.

Lemma step_bounded (g : Game) (e : Event) :
  fair e -> bounded g -> bounded (step g e).
Proof.
  intros He (H0 & H1 & H2). destruct e as [d| |points]; unfold step.
  - unfold update. destruct (Z.ltb_spec 0 (d - lastDistanceScore g)) as [L|L].
    + unfold bounded. cbn [score lastDistanceScore].
      assert (E : inject_Z d == inject_Z (d - lastDistanceScore g) + inject_Z (lastDistanceScore g)).
      { rewrite <- inject_Z_plus. apply inject_Z_injective. ring. }
      assert (P : 0 <= inject_Z (d - lastDistanceScore g)).
      { change 0 with (inject_Z 0). rewrite <- Zle_Qle. lia. }
      split; [|split].
      * Lqa.lra.
      * rewrite E. Lqa.lra.
      * lia.
    + now repeat split.
  - unfold laserHit, bounded. cbn [score lastDistanceScore].
    split; [apply Qmax_0_l|]. split; [|exact H2].
    apply Qmax_0_le; [Lqa.lra|].
    apply Qle_trans with (score g / 2); [apply Qfloor_le|].
    apply Qle_trans with (score g); [|exact H1].
    apply Qle_shift_div_r; [reflexivity|]. Lqa.lra.
  - unfold deductScore, bounded. cbn [score lastDistanceScore].
    unfold fair in He.
    assert (P : 0 <= inject_Z points)
      by (change 0 with (inject_Z 0); rewrite <- Zle_Qle; exact He).
    split; [apply Qmax_0_l|]. split; [|exact H2].
    apply Qmax_0_le; Lqa.lra.
Qed.

Lemma play_bounded (es : list Event) : forall g : Game,
  Forall fair es -> bounded g -> bounded (fold_left step es g).
Proof.
  induction es as [|e es IH]; intros g Hf Hg; [exact Hg|].
  inversion Hf as [|? ? He Hes]; subst. simpl. apply IH; [exact Hes|].
  now apply step_bounded.
Qed.

End ScoreFacts.

Module ScoreMore.
Import QArith_base Qround Qminmax Score ScoreFacts.
Local Open Scope Q_scope.

(** X7.  Whatever the frames, laser hits and penalties, the score is never
    negative and never exceeds a quarter of the distance counted so far,
    and the number on screen is not negative; a laser hit leaves a whole
    number that is at most half of the score. *)
Theorem score_stays_bounded (es : list Event) :
  Forall fair es ->
  0 <= score (play es) /\
  score (play es) <= inject_Z (lastDistanceScore (play es)) * (1 # 4) /\
  (0 <= shownScore (play es))%Z /\
  score (laserHit (play es)) <= score (play es) / 2 /\
  inject_Z (Qfloor (score (laserHit (play es)))) == score (laserHit (play es)).
Proof.
  intro Hf.
  assert (B : bounded (play es)).
  { apply play_bounded; [exact Hf|].
    unfold bounded, create. cbn [score lastDistanceScore].
    split; [apply Qle_refl|]. split; [|lia]. unfold Qle. simpl. lia. }
  destruct B as (H0 & H1 & H2).
  split; [exact H0|]. split; [exact H1|].
  assert (Hh : 0 <= score (play es) / 2).
  { apply Qle_shift_div_l; [reflexivity|]. Lqa.lra. }
  assert (Hfl : (0 <= Qfloor (score (play es) / 2))%Z).
  { change 0%Z with (Qfloor 0). now apply Qfloor_resp_le. }
  split.
  { unfold shownScore. change 0%Z with (Qfloor 0). now apply Qfloor_resp_le. }
  unfold laserHit. cbn [score].
  split.
  - apply Q.max_lub; [exact Hh|apply Qfloor_le].
  - unfold Qmax, GenericMinMax.gmax.
    destruct (0 ?= inject_Z (Qfloor (score (play es) / 2))).
    + change 0 with (inject_Z 0). rewrite Qfloor_Z. apply Qeq_refl.
    + rewrite Qfloor_Z. apply Qeq_refl.
    + change 0 with (inject_Z 0). rewrite Qfloor_Z. apply Qeq_refl.
Qed.

Lemma score_stays_bounded_witness :
  0 <= score (play [Frame 40; LaserHit; Deduct 100; Frame 48]).
Proof.
  apply (score_stays_bounded [Frame 40; LaserHit; Deduct 100; Frame 48]).
  repeat constructor. unfold fair. lia.
Defined.

End ScoreMore.

(* ================================================================= *)
(** ** The player's jumps *)

Module PlayerFacts.
Import Player.

Lemma update_double_jump (p : RunnerPlayer) (f : Frame) :
  In DoubleJump (snd (update p f)) ->
  jumpCount (fst (update p f)) = 2%Z /\ isOnGround f = false.
Proof.
  destruct p as [sl jc wg], f as [k sp jp hb td an].
  unfold update, handleInput, isOnGround. cbn [hasKeys slidePressed jumpPressed
    hasBody touchingDown slideAnimExists isSliding jumpCount wasOnGround].
  destruct k, sp, jp, hb, td, an, sl; cbn; try tauto;
    destruct (Z.ltb jc MAX_JUMPS); cbn; intuition discriminate.
Qed.

Lemma step_airborne (p : RunnerPlayer) (e : Event) :
  jumpCount p = 2%Z -> airborne e ->
  jumpCount (fst (step p e)) = 2%Z /\
  ~ In Jump (snd (step p e)) /\ ~ In DoubleJump (snd (step p e)).
Proof.
  intros Hc Ha. destruct e as [f|]; [|simpl; tauto].
  simpl in Ha. destruct p as [sl jc wg], f as [k sp jp hb td an].
  simpl in Hc. subst jc.
  unfold step, update, handleInput, isOnGround in *. cbn [hasKeys slidePressed
    jumpPressed hasBody touchingDown slideAnimExists isSliding jumpCount
    wasOnGround] in *.
  destruct k, sp, jp, hb, td, an, sl; cbn in *; try discriminate;
    intuition discriminate.
Qed.

Lemma step_count (p : RunnerPlayer) (e : Event) :
  (jumpCount p = 0 \/ jumpCount p = 1 \/ jumpCount p = 2)%Z ->
  (jumpCount (fst (step p e)) = 0 \/ jumpCount (fst (step p e)) = 1 \/
   jumpCount (fst (step p e)) = 2)%Z.
Proof.
  intro Hc. destruct e as [f|]; [|exact Hc].
  destruct p as [sl jc wg], f as [k sp jp hb td an].
  unfold step, update, handleInput, isOnGround. cbn [hasKeys slidePressed
    jumpPressed hasBody touchingDown slideAnimExists isSliding jumpCount
    wasOnGround] in *.
  destruct k, sp, jp, hb, td, an, sl, wg; cbn; try tauto;
    destruct (Z.ltb jc MAX_JUMPS); cbn; tauto.
Qed.

(** X8.  After a double jump, no jump of either kind is started for as
    long as the player stays in the air; and the jump counter is always
    0, 1 or 2. *)
Theorem no_jump_after_double_jump (p : RunnerPlayer) (f : Frame)
    (es : list Event) :
  (In DoubleJump (snd (update p f)) -> Forall airborne es ->
   Forall (fun acts => ~ In Jump acts /\ ~ In DoubleJump acts)
     (snd (run (fst (update p f)) es))) /\
  (jumpCount (fst (run initial es)) = 0 \/
   jumpCount (fst (run initial es)) = 1 \/
   jumpCount (fst (run initial es)) = 2)%Z.
Proof.
  split.
  - intros Hd Ha. apply update_double_jump in Hd as [Hc _].
    revert Hc Ha. generalize (fst (update p f)) as q. clear p f.
    induction es as [|e es IH]; intros q Hc Ha; [constructor|].
    inversion Ha as [|? ? He Hes]; subst.
    destruct (step_airborne q e Hc He) as (Hc' & Hj & Hdj).
    cbn [run]. destruct (step q e) as [q1 acts] eqn:S1.
    specialize (IH q1 Hc' Hes). destruct (run q1 es) as [q2 more].
    simpl in *. constructor; [split; assumption|exact IH].
  - assert (G : forall q,
               (jumpCount q = 0 \/ jumpCount q = 1 \/ jumpCount q = 2)%Z ->
               (jumpCount (fst (run q es)) = 0 \/ jumpCount (fst (run q es)) = 1 \/
                jumpCount (fst (run q es)) = 2)%Z).
    { induction es as [|e es IH]; intros q Hq; [exact Hq|].
      cbn [run]. pose proof (step_count q e Hq) as H1.
      destruct (step q e) as [q1 acts]. specialize (IH q1 H1).
      destruct (run q1 es) as [q2 more]. exact IH. }
    apply G. left. reflexivity.
Qed.

(** A jump from the ground, a double jump, then two more presses in the
    air. *)
Lemma no_jump_after_double_jump_witness :
  let air := mkFrame true false true true false true in
  Forall (fun acts => ~ In Jump acts /\ ~ In DoubleJump acts)
    (snd (run (fst (update (mkPlayer false 1 false) air)) [Update air; Update air])).
Proof.
  intro air.
  apply (proj1 (no_jump_after_double_jump (mkPlayer false 1 false) air
                  [Update air; Update air])).
  - simpl. left. reflexivity.
  - repeat constructor.
Defined.

End PlayerFacts.

(* ================================================================= *)
(** ** The block structure of the emitted body *)

Module BlockFacts.
Import Str Regex Transpiler Notions Blocks RegexFacts.

Lemma braces_app (x y : string) : braces (x ++ y) = braces x ++ braces y.
Proof.
  unfold braces. induction x as [|c x IH]; [reflexivity|].
  simpl. destruct (Ascii.eqb c "{" || Ascii.eqb c "}"); simpl; now rewrite IH.
Qed.

Lemma balancedFrom_braces (x rest : string) : forall d : nat,
  balancedFrom d (x ++ rest) = balancedFrom d (braces x ++ rest).
Proof.
  unfold braces. induction x as [|c x IH]; intro d; [reflexivity|].
  simpl. destruct (Ascii.eqb c "{") eqn:Eo; simpl.
  - rewrite Eo. apply IH.
  - destruct (Ascii.eqb c "}") eqn:Ec; simpl.
    + rewrite Eo, Ec. destruct d; [reflexivity|apply IH].
    + apply IH.
Qed.

Lemma braces_repeat_blank (n : nat) : braces (repeat "    " n) = "".
Proof. induction n as [|n IH]; [reflexivity|]. simpl. exact IH. Qed.

Lemma braces_closeBrace (n : nat) : braces (closeBrace n) = "}".
Proof.
  unfold closeBrace. rewrite braces_app, braces_repeat_blank. reflexivity.
Qed.

Lemma balancedFrom_close (n : nat) (rest : string) (d : nat) :
  balancedFrom (S d) (closeBrace n ++ rest) = balancedFrom d rest.
Proof. rewrite balancedFrom_braces, braces_closeBrace. reflexivity. Qed.

Lemma length_removelast {A : Type} (l : list A) :
  List.length (removelast l) = List.length l - 1.
Proof.
  rewrite removelast_firstn_len, length_firstn. lia.
Qed.

(** The dedent loop keeps the invariant. *)
Lemma closeBlocks_invariant (fuel : nat) (relativeIndent : Z) :
  forall (stack : list Z) (out : string),
    scanInvariant (mkScan out stack false "") ->
    scanInvariant
      (mkScan (snd (closeBlocks fuel relativeIndent stack out))
         (fst (closeBlocks fuel relativeIndent stack out)) false "").
Proof.
  induction fuel as [|fuel IH]; intros stack out Hinv; [exact Hinv|].
  cbn [closeBlocks].
  destruct (Nat.ltb 1 (List.length stack) && Z.ltb relativeIndent (last stack 0%Z)) eqn:C;
    [|exact Hinv].
  apply andb_true_iff in C as [C _]. apply Nat.ltb_lt in C.
  apply IH. destruct Hinv as [Hne Hb]. unfold scanInvariant.
  cbn [indentStack body] in *.
  split.
  - intro E. apply (f_equal (@List.length Z)) in E.
    rewrite length_removelast in E. cbn [List.length] in E. lia.
  - intros d rest. rewrite app_assoc, Hb, length_removelast.
    replace (d + (List.length stack - 1)) with (S (d + (List.length stack - 1 - 1))) by lia.
    apply balancedFrom_close.
Qed.

(** The flush closes one block for every level above the base,
    innermost first: a stack of n+1 levels gets the closing braces of the
    depths n, ..., 1, each on its line. *)
Lemma flush_closes_every_level (stack : list Z) (out : string) :
  stack <> [] ->
  closeAll (List.length stack) stack out = out ++ closers (List.length stack - 1).
Proof.
  remember (List.length stack) as n eqn:Hn.
  assert (G : forall fuel stack out,
             stack <> [] -> List.length stack <= fuel ->
             closeAll fuel stack out = out ++ closers (List.length stack - 1)).
  { clear. induction fuel as [|fuel IH]; intros stack out Hne Hf.
    - destruct stack; [congruence|simpl in Hf; lia].
    - cbn [closeAll]. destruct (Nat.ltb 1 (List.length stack)) eqn:C.
      + apply Nat.ltb_lt in C. rewrite IH.
        * rewrite length_removelast, app_assoc.
          destruct (List.length stack) as [|[|m]]; try lia.
          simpl Nat.sub. rewrite Nat.sub_0_r. reflexivity.
        * intro E. apply (f_equal (@List.length Z)) in E.
          rewrite length_removelast in E. cbn [List.length] in E. lia.
        * rewrite length_removelast. lia.
      + apply Nat.ltb_ge in C.
        destruct stack as [|a [|b l]]; try congruence; [|simpl in C; lia].
        simpl. now rewrite app_nil_r. }
  intro Hne. subst n. apply G; [exact Hne|lia].
Qed.

Lemma balancedFrom_closers (n : nat) (rest : string) (d : nat) :
  balancedFrom (d + n) (closers n ++ rest) = balancedFrom d rest.
Proof.
  induction n as [|n IH]; [simpl; now rewrite Nat.add_0_r|].
  cbn [closers]. rewrite app_assoc.
  replace (d + S n) with (S (d + n)) by lia.
  rewrite balancedFrom_close. apply IH.
Qed.

Lemma controlFlow_shape (jsLine : string) (relativeIndent : Z) (stack : list Z) :
  controlFlow jsLine relativeIndent stack =
  (fst (controlFlow jsLine 0 []),
   if negb (Nat.eqb (List.length (snd (controlFlow jsLine 0 []))) 0)
   then push stack (relativeIndent + 4) else stack).
Proof.
  unfold controlFlow.
  destruct (search forLoopRe jsLine); [reflexivity|].
  destruct (test (blockTestRe "if") (trim jsLine)); [reflexivity|].
  destruct (test (blockTestRe "elif") (trim jsLine)); [reflexivity|].
  destruct (test elseTestRe (trim jsLine)); [reflexivity|].
  destruct (test (blockTestRe "while") (trim jsLine)); reflexivity.
Qed.

Lemma translateLine_shape (dedented : string) (relativeIndent : Z) (stack : list Z) :
  translateLine dedented relativeIndent stack =
  (fst (translateLine dedented 0 []),
   if opens dedented then push stack (relativeIndent + 4) else stack).
Proof.
  unfold opens, translateLine.
  rewrite (controlFlow_shape _ relativeIndent stack).
  destruct (controlFlow (membership (basicConversions dedented)) 0 []) as [js st].
  reflexivity.
Qed.

Lemma scanInvariant_fields (st : scan) (flag : bool) (delimiter : string) :
  scanInvariant st ->
  scanInvariant (mkScan (body st) (indentStack st) flag delimiter).
Proof. intro H. exact H. Qed.

Lemma balancedFrom_nl (d : nat) (rest : string) :
  balancedFrom d (nl ++ rest) = balancedFrom d rest.
Proof. reflexivity. Qed.

Lemma length_push (stack : list Z) (x : Z) :
  List.length (push stack x) = S (List.length stack).
Proof. unfold push. rewrite List.length_app. simpl. lia. Qed.

Lemma scanInvariant_line (body1 : string) (stack1 : list Z) (jsLine : string)
    (o : bool) (x : Z) (flag : bool) (delimiter : string) :
  stack1 <> [] ->
  (forall d rest, balancedFrom d (body1 ++ rest) =
                  balancedFrom (d + (List.length stack1 - 1)) rest) ->
  braces jsLine = (if o then "{" else "") ->
  scanInvariant (mkScan (body1 ++ jsLine ++ nl)
                   (if o then push stack1 x else stack1) flag delimiter).
Proof.
  intros Hne Hb Hk. unfold scanInvariant. cbn [indentStack body].
  destruct o.
  - split.
    + unfold push. intro E. apply app_eq_nil in E as [_ E]. discriminate.
    + intros d rest. rewrite !app_assoc, Hb, balancedFrom_braces, Hk.
      rewrite length_push. cbn [append balancedFrom Ascii.eqb Bool.eqb].
      rewrite balancedFrom_nl. f_equal.
      destruct stack1; [congruence|simpl; lia].
  - split; [exact Hne|].
    intros d rest. rewrite !app_assoc, Hb, balancedFrom_braces, Hk.
    apply balancedFrom_nl.
Qed.

(** One turn of the loop either keeps the body and the stack or adds the
    translated line behind the blocks that the dedent closes. *)
Lemma processLine_cases (minIndent : nat) (st : scan) (line : string) :
  (exists flag delimiter,
     processLine minIndent st line =
     mkScan (body st) (indentStack st) flag delimiter) \/
  (skipped line = false /\
   processLine minIndent st line =
   let relativeIndent := (Z.of_nat (indentOf line) - Z.of_nat minIndent)%Z in
   let closed := closeBlocks (List.length (indentStack st)) relativeIndent
                   (indentStack st) (body st) in
   mkScan (snd closed ++ fst (translateLine (drop minIndent line) 0 []) ++ nl)
     (if opens (drop minIndent line)
      then push (fst closed) (relativeIndent + 4) else fst closed)
     (inDocstring st) (docstringDelimiter st)).
Proof.
  unfold processLine, skipped.
  destruct (String.eqb (trim line) "" || startsWith "#" (trim line)).
  { left. exists (inDocstring st), (docstringDelimiter st). now destruct st. }
  destruct (inDocstring st) eqn:Hd.
  { left. destruct (_ || _).
    - now exists false, "".
    - exists true, (docstringDelimiter st). destruct st. cbn in *. now subst. }
  destruct (startsWith tripleDouble (trim line) || startsWith tripleSingle (trim line)).
  { left. destruct (_ && _).
    - exists false, (docstringDelimiter st). destruct st. cbn in *. now subst.
    - now eexists _, _. }
  destruct (String.eqb (trim line) "pass").
  { left. exists false, (docstringDelimiter st). destruct st. cbn in *. now subst. }
  right. split; [reflexivity|].
  cbv zeta.
  destruct (closeBlocks _ _ _ _) as [stack1 body1]. cbn [fst snd].
  rewrite translateLine_shape. reflexivity.
Qed.

Lemma keepsBraces_eq (dedented : string) :
  keepsBraces dedented = true ->
  braces (fst (translateLine dedented 0 [])) =
  if opens dedented then "{" else "".
Proof. unfold keepsBraces. intro H. apply String.eqb_eq. exact H. Qed.

Lemma processLine_invariant (minIndent : nat) (st : scan) (line : string) :
  skipped line || keepsBraces (drop minIndent line) = true ->
  scanInvariant st -> scanInvariant (processLine minIndent st line).
Proof.
  intros Hline Hinv.
  destruct (processLine_cases minIndent st line)
    as [(flag & delimiter & E)|[Hsk E]].
  - rewrite E. exact Hinv.
  - rewrite E. clear E.
    apply orb_true_iff in Hline as [Hline|Hline]; [congruence|].
    apply keepsBraces_eq in Hline.
    destruct (closeBlocks_invariant (List.length (indentStack st))
              (Z.of_nat (indentOf line) - Z.of_nat minIndent)
              (indentStack st) (body st) Hinv) as [Hne Hb].
    exact (scanInvariant_line _ _ _ _ _ _ _ Hne Hb Hline).
Qed.

Lemma scan_invariant (minIndent : nat) (lines : list string) :
  forall st : scan,
    Forall (fun line => skipped line || keepsBraces (drop minIndent line) = true) lines ->
    scanInvariant st ->
    scanInvariant (fold_left (processLine minIndent) lines st).
Proof.
  induction lines as [|line lines IH]; intros st Hf Hinv; [exact Hinv|].
  inversion Hf as [|? ? Hl Hls]; subst. simpl.
  apply IH; [exact Hls|]. now apply processLine_invariant.
Qed.

Lemma initialScan_invariant : scanInvariant initialScan.
Proof.
  split; [discriminate|]. intros d rest. simpl. now rewrite Nat.add_0_r.
Qed.

(** The body is balanced as soon as every line that is translated carries
    the opening brace of the level it pushes and no other brace. *)
Lemma balanced_when_lines_keep_braces (pythonCode : string) :
  Forall (fun line =>
            skipped line
            || keepsBraces (drop (minIndentOf (tl (splitOn newline pythonCode))) line)
            = true)
    (tl (splitOn newline pythonCode)) ->
  balanced (translateBody pythonCode) = true.
Proof.
  intro Hf. unfold translateBody.
  pose proof (scan_invariant _ _ initialScan Hf initialScan_invariant) as [Hne Hb].
  set (st := fold_left _ _ initialScan) in *.
  destruct (String.eqb (trim _) ""); [reflexivity|].
  rewrite (flush_closes_every_level _ _ Hne).
  unfold balanced. rewrite Hb.
  rewrite <- (app_nil_r (closers _)). apply (balancedFrom_closers _ "" 0).
Qed.

End BlockFacts.

(* ================================================================= *)
(** ** The braces of a translated line *)

Module LineFacts.
Import Str Regex Transpiler Notions Matching Blocks RegexFacts MatchingFacts
       BlockFacts.

Lemma app_eq_empty (x y : string) : x ++ y = "" -> x = "" /\ y = "".
Proof. destruct x; [now split|discriminate]. Qed.

Lemma braces_cons (c : ascii) (x : string) :
  braces (String c x) = braces (String c "") ++ braces x.
Proof. exact (braces_app (String c "") x). Qed.

Lemma braces_lit_app (t x : string) :
  braces t = "" -> braces (t ++ x) = braces x.
Proof. intro H. now rewrite braces_app, H. Qed.

Lemma braces_app_lit (x t : string) :
  braces t = "" -> braces (x ++ t) = braces x.
Proof. intro H. now rewrite braces_app, H, app_nil_r. Qed.

Lemma clean_app (x y : string) :
  braces (x ++ y) = "" -> braces x = "" /\ braces y = "".
Proof. rewrite braces_app. apply app_eq_empty. Qed.

Lemma braces_blank (w : string) : allChars isSpace w = true -> braces w = "".
Proof.
  induction w as [|c w IH]; [reflexivity|].
  intro H. cbn [allChars] in H. apply andb_true_iff in H as [Hc Hw].
  rewrite braces_cons, (IH Hw), app_nil_r. unfold braces. cbn [filter].
  destruct (Ascii.eqb_spec c "{") as [->|_]; [discriminate|].
  destruct (Ascii.eqb_spec c "}") as [->|_]; [discriminate|reflexivity].
Qed.

Lemma drop_clean (n : nat) : forall s : string,
  braces s = "" -> braces (drop n s) = "".
Proof.
  induction n as [|n IH]; intros s H; [destruct s; exact H|].
  destruct s as [|c s]; [exact H|]. cbn [drop]. apply IH.
  rewrite braces_cons in H. now apply app_eq_empty in H.
Qed.

Lemma splitOn_clean (sep : ascii) (s : string) :
  braces s = "" -> Forall (fun line => braces line = "") (splitOn sep s).
Proof.
  induction s as [|c s IH]; intro H; [now repeat constructor|].
  rewrite braces_cons in H. apply app_eq_empty in H as [Hc Hs].
  specialize (IH Hs). cbn [splitOn].
  destruct (Ascii.eqb c sep); [now constructor|].
  destruct (splitOn sep s) as [|w ws]; [now repeat constructor|].
  inversion IH as [|? ? Hw Hws]; subst. constructor; [|exact Hws].
  now rewrite braces_cons, Hc, Hw.
Qed.

(** *** Groups of a text without braces *)

Lemma iter_clean
    (R : option ascii -> string -> captures ->
         option ascii -> string -> captures -> Prop) :
  (forall prev s cs p' s' cs', R prev s cs p' s' cs' ->
     exists m, s = m ++ s' /\ p' = lastOr prev m) ->
  (forall prev s cs p' s' cs', R prev s cs p' s' cs' ->
     braces s = "" -> cleanCaps cs -> cleanCaps cs') ->
  forall prev s cs p' s' cs', iter R prev s cs p' s' cs' ->
    braces s = "" -> cleanCaps cs -> cleanCaps cs'.
Proof.
  intros Hsuf HR prev s cs p' s' cs' Hi.
  induction Hi as [prev s cs|prev s cs p1 s1 c1 p2 s2 c2 H1 _ _ IH];
    intros Hs Hcs; [exact Hcs|].
  apply IH.
  - apply Hsuf in H1 as (m & -> & _). now apply clean_app in Hs.
  - now apply (HR _ _ _ _ _ _ H1).
Qed.

Lemma matches_clean (r : regex) :
  forall prev s cs p' s' cs', matches r prev s cs p' s' cs' ->
    braces s = "" -> cleanCaps cs -> cleanCaps cs'.
Proof.
  induction r as [|p|r1 IH1 r2 IH2|g r1 IH1|n r1 IH1| | |];
    intros prev s cs p' s' cs' H Hs Hcs.
  - now destruct H as (_ & _ & ->).
  - now destruct H as (c & _ & _ & _ & ->).
  - destruct H as (p1 & s1 & c1 & H1 & H2).
    apply (IH2 _ _ _ _ _ _ H2).
    + apply matches_suffix in H1 as (m & -> & _). now apply clean_app in Hs.
    + now apply (IH1 _ _ _ _ _ _ H1).
  - exact (iter_clean (matches r1) (matches_suffix r1) IH1 _ _ _ _ _ _ H Hs Hcs).
  - destruct H as (c1 & H & ->). constructor.
    + apply matches_suffix in H as (m & -> & _). cbn [snd].
      rewrite take_prefix. now apply clean_app in Hs.
    + now apply (IH1 _ _ _ _ _ _ H).
  - now destruct H as (_ & _ & _ & ->).
  - now destruct H as (_ & _ & _ & ->).
  - now destruct H as (_ & _ & _ & ->).
Qed.

Lemma cap_clean (n : nat) (cs : captures) :
  cleanCaps cs -> braces (cap n cs) = "".
Proof.
  induction 1 as [|[m g] cs Hg _ IH]; [reflexivity|].
  cbn [cap]. destruct (Nat.eqb n m); [exact Hg|exact IH].
Qed.

Lemma search_clean (r : regex) (s : string) (f : found) :
  search r s = Some f -> braces s = "" ->
  braces (f_pre f) = "" /\ braces (f_text f) = "" /\ braces (f_post f) = "" /\
  forall n, braces (group n f) = "".
Proof.
  intros H Hs. apply search_parts in H as [E HM].
  rewrite E in Hs. apply clean_app in Hs as [Hpre Hrest].
  pose proof (clean_app _ _ Hrest) as [Ht Hp].
  repeat split; try assumption.
  intro n. apply cap_clean.
  apply (matches_clean _ _ _ _ _ _ _ HM Hrest). constructor.
Qed.

(** *** Replacements that keep the braces *)

Lemma replaceAllFrom_braces (r : regex) (tpl : found -> string) :
  (forall prev s f, searchFrom r prev "" s = Some f ->
     braces (tpl f) = braces (f_text f)) ->
  forall fuel prev s, braces (replaceAllFrom fuel r tpl prev s) = braces s.
Proof.
  intro Ht. induction fuel as [|fuel IH]; intros prev s; [reflexivity|].
  cbn [replaceAllFrom].
  destruct (searchFrom r prev "" s) as [f|] eqn:E; [|reflexivity].
  pose proof (Ht _ _ _ E) as Hb.
  apply searchFrom_sound in E as (pre & Hs & Hpre & _).
  change (rev "" ++ pre) with pre in Hpre.
  rewrite Hpre, Hs, !braces_app, Hb. f_equal. f_equal.
  destruct (f_text f) as [|a t].
  - destruct (f_post f) as [|c rest]; [reflexivity|].
    now rewrite braces_cons, IH, <- braces_cons.
  - apply IH.
Qed.

Lemma replaceAll_braces (r : regex) (tpl : found -> string) (s : string) :
  (forall prev s f, searchFrom r prev "" s = Some f ->
     braces (tpl f) = braces (f_text f)) ->
  braces (replaceAll r tpl s) = braces s.
Proof. intro Ht. now apply replaceAllFrom_braces. Qed.

Lemma keyword_text (w : string) prev s f :
  searchFrom (keywordRe w) prev "" s = Some f -> f_text f = w.
Proof.
  intro H. apply searchFrom_sound in H as (pre & _ & _ & HM).
  destruct HM as (p1 & s1 & c1 & (_ & -> & -> & ->) & HM).
  destruct HM as (p2 & s2 & c2 & Hl & (_ & _ & <- & _)).
  apply matches_lit in Hl as [Hl _]. now apply app_inv_tail in Hl.
Qed.

Lemma prefix_text (w : string) prev s f :
  searchFrom (prefixRe w) prev "" s = Some f -> f_text f = w.
Proof.
  intro H. apply searchFrom_sound in H as (pre & _ & _ & HM).
  destruct HM as (p1 & s1 & c1 & (_ & -> & -> & ->) & Hl).
  apply matches_lit in Hl as [Hl _]. now apply app_inv_tail in Hl.
Qed.

Lemma lit_text (w : string) prev s f :
  searchFrom (lit w) prev "" s = Some f -> f_text f = w.
Proof.
  intro H. apply searchFrom_sound in H as (pre & _ & _ & Hl).
  apply matches_lit in Hl as [Hl _]. now apply app_inv_tail in Hl.
Qed.

Lemma len_text prev s f :
  searchFrom lenRe prev "" s = Some f ->
  f_text f = "len(" ++ group 1 f ++ ")".
Proof.
  intro H. apply searchFrom_sound in H as (pre & _ & _ & HM).
  destruct HM as (p1 & s1 & c1 & Hl & HM).
  apply matches_lit in Hl as [Hl ->].
  destruct HM as (p2 & s2 & c2 & Hg & (c & -> & E & _ & Hcaps)).
  apply group_plus_class in Hg as (m & _ & _ & -> & ->).
  apply Ascii.eqb_eq in E as <-. unfold group. rewrite Hcaps. cbn [cap Nat.eqb].
  apply (app_inv_tail _ _ (f_post f)). rewrite Hl, !app_assoc. reflexivity.
Qed.

Lemma replaceAll_keyword (w t s : string) :
  braces w = "" -> braces t = "" ->
  braces (replaceAll (keywordRe w) (const t) s) = braces s.
Proof.
  intros Hw Ht. apply replaceAll_braces. intros prev s0 f H.
  apply keyword_text in H. unfold const. congruence.
Qed.

Lemma replaceAll_prefix (w t s : string) :
  braces w = "" -> braces t = "" ->
  braces (replaceAll (prefixRe w) (const t) s) = braces s.
Proof.
  intros Hw Ht. apply replaceAll_braces. intros prev s0 f H.
  apply prefix_text in H. unfold const. congruence.
Qed.

Lemma replaceAll_lit (w t s : string) :
  braces w = "" -> braces t = "" ->
  braces (replaceAll (lit w) (const t) s) = braces s.
Proof.
  intros Hw Ht. apply replaceAll_braces. intros prev s0 f H.
  apply lit_text in H. unfold const. congruence.
Qed.

Lemma replaceAll_len (s : string) :
  braces (replaceAll lenRe (fun f => group 1 f ++ ".length") s) = braces s.
Proof.
  apply replaceAll_braces. intros prev s0 f H. apply len_text in H.
  rewrite H, braces_app_lit by reflexivity.
  now rewrite braces_lit_app, braces_app_lit by reflexivity.
Qed.

(** The keyword rewrites and the built-in rewrites add and remove no
    brace. *)
Lemma basicConversions_braces (dedented : string) :
  braces (basicConversions dedented) = braces dedented.
Proof.
  unfold basicConversions.
  now rewrite !replaceAll_prefix, !replaceAll_keyword by reflexivity.
Qed.

Lemma builtins_braces (jsLine : string) :
  braces (builtins jsLine) = braces jsLine.
Proof.
  unfold builtins. rewrite !replaceAll_lit by reflexivity.
  destruct (includes "len(" _); [rewrite replaceAll_len|];
    now rewrite !replaceAll_prefix by reflexivity.
Qed.

Lemma replaceFirst_clean (pat by_ : string) : forall s : string,
  braces by_ = "" -> braces s = "" -> braces (replaceFirst pat by_ s) = "".
Proof.
  induction s as [|c s IH]; intros Hb Hs.
  - cbn [replaceFirst]. destruct (startsWith pat ""); [|reflexivity].
    rewrite braces_app, Hb. now apply drop_clean.
  - cbn [replaceFirst]. destruct (startsWith pat (String c s)).
    + rewrite braces_app, Hb. now apply drop_clean.
    + rewrite braces_cons in Hs |- *. apply app_eq_empty in Hs as [Hc Hs].
      now rewrite Hc, IH.
Qed.

Lemma membership_clean (jsLine : string) :
  braces jsLine = "" -> braces (membership jsLine) = "".
Proof.
  intro H. unfold membership.
  destruct (search inCheckRe jsLine) as [f|] eqn:E; [|exact H].
  destruct (negb (includes "for" jsLine)); [|exact H].
  destruct (search_clean _ _ _ E H) as (_ & _ & _ & Hg).
  apply replaceFirst_clean; [|exact H].
  rewrite braces_app, Hg, braces_lit_app, braces_app, Hg by reflexivity.
  reflexivity.
Qed.

(** *** [trim] takes blanks off both ends *)

Lemma allChars_app (p : ascii -> bool) (x y : string) :
  allChars p (x ++ y) = allChars p x && allChars p y.
Proof.
  induction x as [|c x IH]; [reflexivity|].
  cbn [append allChars]. now rewrite IH, andb_assoc.
Qed.

Lemma allChars_rev (p : ascii -> bool) (x : string) :
  allChars p (rev x) = allChars p x.
Proof.
  induction x as [|c x IH]; [reflexivity|].
  rewrite rev_cons, allChars_app, IH. cbn [allChars].
  now rewrite andb_true_r, andb_comm.
Qed.

Lemma dropWhile_split (p : ascii -> bool) (s : string) :
  exists w, s = w ++ dropWhile p s /\ allChars p w = true.
Proof.
  induction s as [|c s (w & Hs & Hw)]; [now exists ""|].
  cbn [dropWhile]. destruct (p c) eqn:Hc; [|now exists ""].
  exists (String c w). cbn [append allChars]. rewrite Hc, Hw.
  now rewrite <- Hs.
Qed.

Lemma trim_parts (s : string) :
  exists w1 w2, s = w1 ++ trim s ++ w2 /\
    allChars isSpace w1 = true /\ allChars isSpace w2 = true.
Proof.
  destruct (dropWhile_split isSpace s) as (w1 & Hs & Hw1).
  destruct (dropWhile_split isSpace (rev (dropWhile isSpace s)))
    as (w2 & Hr & Hw2).
  exists w1, (rev w2). repeat split; [|exact Hw1|now rewrite allChars_rev].
  rewrite Hs at 1. f_equal. unfold trim.
  rewrite <- rev_app, <- Hr. now rewrite rev_involutive.
Qed.

Lemma braces_trim (s : string) : braces (trim s) = braces s.
Proof.
  destruct (trim_parts s) as (w1 & w2 & Hs & H1 & H2).
  rewrite Hs at 2.
  now rewrite !braces_app, (braces_blank _ H1), (braces_blank _ H2), app_nil_r.
Qed.

Lemma startsWith_drop (w : string) : forall s : string,
  startsWith w s = true -> s = w ++ drop (String.length w) s.
Proof.
  induction w as [|a w IH]; intros s H; [now destruct s|].
  destruct s as [|c s]; [discriminate|]. cbn [startsWith] in H.
  apply andb_true_iff in H as [E H]. apply Ascii.eqb_eq in E as ->.
  cbn [String.length drop append]. now rewrite <- IH.
Qed.

(** *** A header that passes the test is found by the rewrite *)

Lemma block_found (kw jsLine : string) :
  test (blockTestRe kw) (trim jsLine) = true ->
  search (blockRe kw) jsLine <> None.
Proof.
  unfold test. intro H.
  destruct (search (blockTestRe kw) (trim jsLine)) as [f|] eqn:E;
    [clear H|discriminate].
  apply search_parts in E as [Ht HM].
  destruct HM as (p1 & s1 & c1 & (Hbol & -> & -> & ->) & HM).
  apply lastOr_None in Hbol. rewrite Hbol in Ht. cbn [append] in Ht.
  destruct HM as (p2 & s2 & c2 & Hl & HM).
  apply matches_lit in Hl as [Hl ->].
  destruct HM as (p3 & s3 & c3 & Hsp & HM).
  apply plus_class in Hsp as (sp & Hne1 & Hsp & -> & ->).
  destruct HM as (p4 & s4 & c4 & Hx & HM).
  apply plus_class in Hx as (x & Hne2 & Hx & -> & ->).
  destruct HM as (p5 & s5 & c5 & (c & -> & Hc & -> & ->) & HM).
  destruct HM as (p6 & s6 & c6 & Hw & (-> & _ & Hpost & _)).
  apply iter_class in Hw as (w & Hw & -> & ->).
  destruct (trim_parts jsLine) as (w1 & w2 & Hs & Hw1 & Hw2).
  rewrite Ht, Hl in Hs.
  assert (Hs' : jsLine =
    w1 ++ (kw ++ sp ++ x ++ String c ((w ++ w2) ++ ""))).
  { rewrite Hs at 1. f_equal. rewrite !app_assoc. cbn [append].
    now rewrite !app_assoc, !app_nil_r. }
  rewrite Hs'. unfold search.
  eapply searchFrom_complete with (c0 := []).
  unfold blockRe. cbn [seqs].
  eexists _, _, _. split; [apply lit_matches|].
  eexists _, _, _. split; [apply class_plus; assumption|].
  eexists _, _, _. split.
  { eexists. split; [apply class_plus; assumption|reflexivity]. }
  eexists _, _, _. split; [exists c; repeat split; exact Hc|].
  eexists _, _, _. split.
  { apply class_iter. now rewrite allChars_app, Hw, Hw2. }
  repeat split.
Qed.

(** The header rewrite writes the one opening brace of its block. *)
Lemma block_replace (kw opener jsLine : string) :
  test (blockTestRe kw) (trim jsLine) = true ->
  braces jsLine = "" -> braces opener = "" ->
  braces (replace (blockRe kw) (fun f => opener ++ group 1 f ++ ") {") jsLine)
  = "{".
Proof.
  intros Ht Hs Ho. apply block_found in Ht. unfold replace.
  destruct (search (blockRe kw) jsLine) as [f|] eqn:E; [|congruence].
  destruct (search_clean _ _ _ E Hs) as (Hpre & _ & Hpost & Hg).
  rewrite !braces_app, Hpre, Ho, Hg, Hpost. reflexivity.
Qed.

Lemma controlFlow_braces (jsLine : string) :
  braces jsLine = "" ->
  match search forLoopRe jsLine with
  | Some _ => false
  | None =>
      negb (test (blockTestRe "if") (trim jsLine))
      && (test (blockTestRe "elif") (trim jsLine)
          || test elseTestRe (trim jsLine))
  end = false ->
  braces (fst (controlFlow jsLine 0 [])) =
  if negb (Nat.eqb (List.length (snd (controlFlow jsLine 0 []))) 0)
  then "{" else "".
Proof.
  intros Hs He. unfold controlFlow.
  destruct (search forLoopRe jsLine) as [f|] eqn:E.
  { destruct (search_clean _ _ _ E Hs) as (_ & _ & _ & Hg).
    cbn [fst snd]. rewrite braces_lit_app by reflexivity.
    rewrite braces_app, Hg, braces_lit_app by reflexivity.
    rewrite braces_app, Hg. reflexivity. }
  destruct (test (blockTestRe "if") (trim jsLine)) eqn:Eif.
  { cbn [fst snd]. now rewrite (block_replace "if" "if (" jsLine). }
  cbn [negb andb] in He. apply orb_false_elim in He as [-> ->].
  destruct (test (blockTestRe "while") (trim jsLine)) eqn:Ew.
  { cbn [fst snd]. now rewrite (block_replace "while" "while (" jsLine). }
  exact Hs.
Qed.

(** *** The conditional expression moves its operands, braces and all *)

Lemma ternary_groups (l : string) (f : found) :
  search ternaryRe l = Some f ->
  braces l = braces (group 1 f) ++ braces (group 2 f) ++ braces (group 3 f).
Proof.
  intro H. apply search_parts in H as [Hl HM].
  destruct HM as (p1 & s1 & c1 & (Hbol & -> & -> & ->) & HM).
  apply lastOr_None in Hbol. rewrite Hbol in Hl. cbn [append] in Hl.
  destruct HM as (p2 & s2 & c2 & Hg1 & HM).
  apply group_plus_class in Hg1 as (g1 & _ & _ & Hs1 & ->).
  destruct HM as (p3 & s3 & c3 & Hw1 & HM).
  apply plus_class in Hw1 as (w1 & _ & Hw1 & -> & ->).
  destruct HM as (p4 & s4 & c4 & Hif & HM).
  apply matches_lit in Hif as [-> ->].
  destruct HM as (p5 & s5 & c5 & Hw2 & HM).
  apply plus_class in Hw2 as (w2 & _ & Hw2 & -> & ->).
  destruct HM as (p6 & s6 & c6 & Hg2 & HM).
  apply group_plus_class in Hg2 as (g2 & _ & _ & -> & ->).
  destruct HM as (p7 & s7 & c7 & Hw3 & HM).
  apply plus_class in Hw3 as (w3 & _ & Hw3 & -> & ->).
  destruct HM as (p8 & s8 & c8 & Helse & HM).
  apply matches_lit in Helse as [-> ->].
  destruct HM as (p9 & s9 & c9 & Hw4 & HM).
  apply plus_class in Hw4 as (w4 & _ & Hw4 & -> & ->).
  destruct HM as (p10 & s10 & c10 & Hg3 & (-> & _ & Hpost & Hcaps)).
  apply group_plus_class in Hg3 as (g3 & _ & _ & -> & ->).
  unfold group. rewrite Hcaps. cbn [cap Nat.eqb].
  rewrite Hl, Hs1.
  rewrite !braces_app, (braces_blank _ Hw1), (braces_blank _ Hw2),
    (braces_blank _ Hw3), (braces_blank _ Hw4).
  cbn. now rewrite !app_nil_r.
Qed.

Lemma swap_single (x y z b : string) :
  x ++ y ++ z = b -> b = "" \/ b = "{" -> y ++ x ++ z = b.
Proof.
  intros H Hb. destruct x as [|c x]; [exact H|].
  destruct Hb as [->| ->]; [discriminate|].
  injection H as -> H. apply app_eq_empty in H as [-> H].
  apply app_eq_empty in H as [-> ->]. reflexivity.
Qed.

Lemma ternary_braces (jsLine b : string) :
  braces jsLine = b -> b = "" \/ b = "{" -> braces (ternary jsLine) = b.
Proof.
  intros Hs Hb. unfold ternary.
  set (l := if startsWith "return" (trim jsLine)
            then trim (drop 6 (trim jsLine)) else trim jsLine).
  assert (Hl : braces l = b).
  { unfold l. destruct (startsWith "return" (trim jsLine)) eqn:E.
    - rewrite braces_trim. apply startsWith_drop in E.
      rewrite <- Hs, <- (braces_trim jsLine). symmetry.
      etransitivity; [exact (f_equal braces E)|].
      now apply braces_lit_app.
    - now rewrite braces_trim. }
  destruct (search ternaryRe l) as [f|] eqn:E; [|exact Hs].
  apply ternary_groups in E. rewrite Hl in E. symmetry in E.
  apply swap_single in E; [|exact Hb].
  assert (Hexpr : braces ("(" ++ group 2 f ++ ") ? (" ++ group 1 f ++ ") : ("
                            ++ group 3 f ++ ")") = b).
  { rewrite braces_lit_app by reflexivity.
    rewrite braces_app, braces_lit_app by reflexivity.
    rewrite braces_app, braces_lit_app by reflexivity.
    now rewrite braces_app_lit by reflexivity. }
  destruct (startsWith "return" (trim jsLine)); [|exact Hexpr].
  now rewrite braces_lit_app by reflexivity.
Qed.

Lemma translateLine_fst (dedented : string) :
  fst (translateLine dedented 0 []) =
  builtins (ternary (fst (controlFlow (membership (basicConversions dedented)) 0 []))).
Proof. unfold translateLine. now destruct (controlFlow _ 0 []). Qed.

Lemma opens_eq (dedented : string) :
  opens dedented =
  negb (Nat.eqb (List.length
                   (snd (controlFlow (membership (basicConversions dedented)) 0 []))) 0).
Proof. unfold opens, translateLine. now destruct (controlFlow _ 0 []). Qed.

Lemma takenForElse_eq (dedented : string) :
  takenForElse dedented =
  match search forLoopRe (membership (basicConversions dedented)) with
  | Some _ => false
  | None =>
      negb (test (blockTestRe "if") (trim (membership (basicConversions dedented))))
      && (test (blockTestRe "elif") (trim (membership (basicConversions dedented)))
          || test elseTestRe (trim (membership (basicConversions dedented))))
  end.
Proof. reflexivity. Qed.

(** A line without braces that is not taken for an [elif] or [else]
    header is translated with the opening brace of the block it opens and
    with no other brace. *)
Lemma plain_keeps (dedented : string) :
  braces dedented = "" -> takenForElse dedented = false ->
  keepsBraces dedented = true.
Proof.
  intros Hs He. rewrite takenForElse_eq in He.
  assert (Hj : braces (membership (basicConversions dedented)) = "").
  { apply membership_clean. now rewrite basicConversions_braces. }
  pose proof (controlFlow_braces (membership (basicConversions dedented)) Hj He)
    as Hc.
  unfold keepsBraces. apply String.eqb_eq.
  rewrite translateLine_fst, opens_eq, builtins_braces.
  apply ternary_braces; [exact Hc|].
  destruct (negb (Nat.eqb (List.length
      (snd (controlFlow (membership (basicConversions dedented)) 0 []))) 0));
    [now right|now left].
Qed.

Lemma balancedFrom_inner (out rest : string) : forall k d : nat,
  balancedFrom k out = true ->
  balancedFrom (d + k) (out ++ rest) = balancedFrom d rest.
Proof.
  induction out as [|c out IH]; intros k d H.
  - cbn [balancedFrom] in H. apply Nat.eqb_eq in H as ->.
    now rewrite Nat.add_0_r.
  - cbn [balancedFrom append] in *.
    destruct (Ascii.eqb c "{").
    + rewrite <- (IH (S k) d H). f_equal. lia.
    + destruct (Ascii.eqb c "}"); [|now apply IH].
      destruct k as [|k]; [discriminate|].
      rewrite Nat.add_succ_r. now apply IH.
Qed.

Lemma balancedFrom_skip (t x : string) (d : nat) :
  braces t = "" -> balancedFrom d (t ++ x) = balancedFrom d x.
Proof. intro H. now rewrite balancedFrom_braces, H. Qed.

(** X9.  A function whose text holds no brace and whose body has no line
    taken for an [elif] or [else] header is translated into a body, and
    into a function text, in which every block that is opened is closed
    again and nothing else is closed. *)
Theorem code_without_else_is_balanced (pythonCode : string) (e : emitted) :
  emit pythonCode = Ok e ->
  braces pythonCode = "" ->
  noElseHeaders pythonCode = true ->
  balanced (e_body e) = true /\ balanced (e_jsCode e) = true.
Proof.
  intros He Hs Hn. unfold emit in He.
  destruct (search functionRe pythonCode) as [f|] eqn:E; [|discriminate].
  injection He as <-. cbn [e_body e_jsCode].
  destruct (search_clean _ _ _ E Hs) as (_ & _ & _ & Hg).
  assert (Hb : balanced (translateBody pythonCode) = true).
  { apply balanced_when_lines_keep_braces.
    unfold noElseHeaders in Hn. rewrite forallb_forall in Hn.
    pose proof (splitOn_clean newline pythonCode Hs) as Hc.
    apply Forall_forall. intros line Hin.
    specialize (Hn line Hin). apply orb_true_iff in Hn as [->|Hn];
      [reflexivity|].
    apply orb_true_iff. right. apply plain_keeps.
    - apply drop_clean.
      rewrite Forall_forall in Hc. apply Hc.
      destruct (splitOn newline pythonCode); [destruct Hin|now right].
    - now apply negb_true_iff in Hn. }
  split; [exact Hb|].
  unfold balanced, wrap.
  rewrite (balancedFrom_skip nl), (balancedFrom_skip (repeat " " 16)),
    (balancedFrom_skip "return function "), (balancedFrom_skip (group 1 f)),
    (balancedFrom_skip "("), (balancedFrom_skip (group 2 f))
    by (reflexivity || apply Hg).
  rewrite (balancedFrom_braces ") {").
  change (braces ") {") with "{". cbn [append balancedFrom Ascii.eqb Bool.eqb].
  rewrite (balancedFrom_skip nl), (balancedFrom_skip (repeat " " 20))
    by reflexivity.
  rewrite (balancedFrom_inner (translateBody pythonCode) _ 0 1 Hb).
  reflexivity.
Qed.

Lemma code_without_else_is_balanced_witness :
  let pythonCode :=
    "def total(xs):" ++ nl ++
    "    t = 0" ++ nl ++
    "    for x in xs:" ++ nl ++
    "        if x > 0:" ++ nl ++
    "            t = t + x" ++ nl ++
    "    while t > 100:" ++ nl ++
    "        t = t - 1" ++ nl ++
    "    return t" in
  exists e, emit pythonCode = Ok e /\ balanced (e_jsCode e) = true.
Proof.
  intro pythonCode.
  destruct (emit pythonCode) as [e|msg] eqn:E; [|vm_compute in E; discriminate].
  exists e. split; [reflexivity|].
  apply (code_without_else_is_balanced pythonCode e E); reflexivity.
Defined.

End LineFacts.

(* ================================================================= *)
(** ** Bodies without statements, and the starter code *)

Module StarterFacts.
Import Str Regex Transpiler Notions Matching Blocks GameData RegexFacts
       MatchingFacts BlockFacts LineFacts.

Lemma processLine_skipped (minIndent : nat) (st : scan) (line : string) :
  skipped line = true -> inDocstring st = false ->
  processLine minIndent st line = st.
Proof.
  unfold skipped, processLine. intros H Hd.
  destruct (String.eqb (trim line) "" || startsWith "#" (trim line));
    [reflexivity|].
  cbn [orb] in H. rewrite Hd. apply String.eqb_eq in H. rewrite H. reflexivity.
Qed.

Lemma scan_skipped (minIndent : nat) (lines : list string) (st : scan) :
  forallb skipped lines = true -> inDocstring st = false ->
  fold_left (processLine minIndent) lines st = st.
Proof.
  induction lines as [|line lines IH]; intros H Hd; [reflexivity|].
  cbn [forallb] in H. apply andb_true_iff in H as [Hl Hr].
  cbn [fold_left]. rewrite processLine_skipped by assumption. now apply IH.
Qed.

(** X10.  A function whose body holds nothing but blank lines, comments
    and [pass] is translated into a function whose body is
    [return undefined;]. *)
Theorem body_without_statements (pythonCode : string) (e : emitted) :
  emit pythonCode = Ok e ->
  forallb skipped (tl (splitOn newline pythonCode)) = true ->
  e_body e = "return undefined;" /\
  e_jsCode e = wrap (e_functionName e) (e_params e) "return undefined;".
Proof.
  intros He Hs. unfold emit in He.
  destruct (search functionRe pythonCode) as [f|]; [|discriminate].
  injection He as <-. cbn [e_body e_jsCode e_functionName e_params].
  assert (Hb : translateBody pythonCode = "return undefined;").
  { unfold translateBody. now rewrite scan_skipped. }
  now rewrite Hb.
Qed.

Lemma body_without_statements_witness :
  let pythonCode :=
    "def solve(a, b):" ++ nl ++
    "    # nothing yet" ++ nl ++
    "" ++ nl ++
    "    pass" in
  exists e, emit pythonCode = Ok e /\ e_body e = "return undefined;".
Proof.
  intro pythonCode.
  destruct (emit pythonCode) as [e|msg] eqn:E; [|vm_compute in E; discriminate].
  exists e. split; [reflexivity|].
  apply (body_without_statements pythonCode e E). reflexivity.
Defined.

(** *** The header of the starter code *)

Lemma allChars_impl (p q : ascii -> bool) (s : string) :
  (forall c, p c = true -> q c = true) ->
  allChars p s = true -> allChars q s = true.
Proof.
  intro Hpq. induction s as [|c s IH]; [reflexivity|].
  cbn [allChars]. intros [Hc Hs]%andb_true_iff.
  now rewrite (Hpq c Hc), IH.
Qed.

Lemma word_not_space (c : ascii) : isWord c = true -> isSpace c = false.
Proof.
  destruct c as [[] [] [] [] [] [] [] []]; vm_compute; congruence.
Qed.

Lemma word_not_newline (c : ascii) :
  isWord c = true -> negb (Ascii.eqb c newline) = true.
Proof.
  destruct c as [[] [] [] [] [] [] [] []]; vm_compute; congruence.
Qed.

Lemma dot_not_newline (c : ascii) :
  negb (isLineTerminator c) && negb (Ascii.eqb c ")") = true ->
  negb (Ascii.eqb c newline) = true.
Proof.
  destruct c as [[] [] [] [] [] [] [] []]; vm_compute; congruence.
Qed.

(** Two runs of characters of one kind that stop at the same place are
    the same run. *)
Lemma span_unique (p : ascii -> bool) : forall a b x y : string,
  allChars p a = true -> allChars p b = true -> a ++ x = b ++ y ->
  match x with String c _ => p c = false | "" => True end ->
  match y with String c _ => p c = false | "" => True end ->
  a = b /\ x = y.
Proof.
  induction a as [|c a IH]; intros b x y Ha Hb E Hx Hy.
  - destruct b as [|d b]; [now split|].
    cbn [append] in E. subst x. cbn [allChars] in Hb.
    apply andb_true_iff in Hb as [Hd _]. congruence.
  - destruct b as [|d b].
    + cbn [append] in E. subst y. cbn [allChars] in Ha.
      apply andb_true_iff in Ha as [Hc _]. congruence.
    + cbn [append allChars] in *. injection E as -> E.
      apply andb_true_iff in Ha as [_ Ha]. apply andb_true_iff in Hb as [_ Hb].
      destruct (IH b x y Ha Hb E Hx Hy) as [-> ->]. now split.
Qed.

(** The lazy parameter group stops at the first [):], which on the header
    line is the one that ends it. *)
Lemma params_unique : forall params g rest s' : string,
  allChars (fun c => negb (isLineTerminator c) && negb (Ascii.eqb c ")"))
    params = true ->
  allChars (fun c => negb (isLineTerminator c)) g = true ->
  params ++ "):" ++ nl ++ rest = g ++ "):" ++ s' ->
  g = params.
Proof.
  induction params as [|c params IH]; intros g rest s' Hp Hg E.
  - destruct g as [|a g]; [reflexivity|]. exfalso.
    cbn [append] in E. injection E as <- E.
    destruct g as [|b g]; [discriminate|].
    cbn [append] in E. injection E as <- E.
    destruct g as [|d g]; [discriminate|].
    cbn [append] in E. injection E as <- E.
    cbn [allChars] in Hg. vm_compute in Hg. discriminate.
  - cbn [allChars] in Hp. apply andb_true_iff in Hp as [Hc Hp].
    destruct g as [|a g].
    + cbn [append] in E. injection E as -> _. vm_compute in Hc. discriminate.
    + cbn [append allChars] in *. injection E as <- E.
      apply andb_true_iff in Hg as [_ Hg].
      now rewrite (IH g rest s' Hp Hg E).
Qed.

Lemma search_at_start (r : regex) (s : string) c0 p' s' c0' :
  matches r None s c0 p' s' c0' ->
  exists p t cs,
    search r s = Some (mkFound "" (take (String.length s - String.length t) s) cs p t)
    /\ matches r None s [] p t cs.
Proof.
  intro H. unfold search. rewrite searchFrom_eq.
  pose proof (rmatch_complete r _ None s c0 p' s' c0'
                (fun p t cs => Some (p, t, cs)) H ltac:(discriminate) []) as Hc.
  destruct (rmatch r None s [] _) as [[[p t] cs]|] eqn:E; [|congruence].
  exists p, t, cs. split; [reflexivity|]. now apply rmatch_found in E.
Qed.

Lemma header_found (name params rest : string) :
  name <> "" -> allChars isWord name = true ->
  allChars (fun c => negb (isLineTerminator c) && negb (Ascii.eqb c ")"))
    params = true ->
  exists f,
    search functionRe ("def " ++ name ++ "(" ++ params ++ "):" ++ nl ++ rest)
      = Some f /\
    group 1 f = name /\ group 2 f = params.
Proof.
  intros Hne Hname Hparams.
  assert (Hdots : allChars (fun c => negb (isLineTerminator c)) params = true).
  { revert Hparams. apply allChars_impl. now intros c [H _]%andb_true_iff. }
  set (code := "def " ++ name ++ "(" ++ params ++ "):" ++ nl ++ rest).
  assert (Hshape : code =
    "def" ++ " " ++ name ++ "" ++ String "(" (params ++ "):" ++ nl ++ rest))
    by reflexivity.
  assert (HM : exists c0 p' s' c0', matches functionRe None code c0 p' s' c0').
  { exists [], (lastOr (lastOr (Some "("%char) params) "):"), (nl ++ rest).
    rewrite Hshape. unfold functionRe. cbn [seqs].
    eexists. eexists _, _, _. split; [apply lit_matches|].
    eexists _, _, _. split; [apply class_plus; [discriminate|reflexivity]|].
    eexists _, _, _. split.
    { eexists. split; [apply class_plus; assumption|reflexivity]. }
    eexists _, _, _. split; [apply class_iter; reflexivity|].
    eexists _, _, _. split; [exists "("%char; repeat split|].
    eexists _, _, _. split.
    { eexists. split; [apply class_iter; exact Hdots|reflexivity]. }
    apply lit_matches. }
  destruct HM as (c0 & p' & s' & c0' & HM).
  apply search_at_start in HM as (p & t & cs & Hs & HM).
  eexists. split; [exact Hs|]. unfold group. cbn [f_caps]. clear Hs.
  destruct HM as (p1 & s1 & c1 & Hl & HM).
  apply matches_lit in Hl as [Hl ->].
  destruct HM as (p2 & s2 & c2 & Hsp & HM).
  apply plus_class in Hsp as (sp & _ & Hsp & -> & ->).
  destruct HM as (p3 & s3 & c3 & Hg1 & HM).
  apply group_plus_class in Hg1 as (g1 & Hg1ne & Hg1 & -> & ->).
  destruct HM as (p4 & s4 & c4 & Hsp2 & HM).
  apply iter_class in Hsp2 as (sp2 & Hsp2 & -> & ->).
  destruct HM as (p5 & s5 & c5 & (c & -> & Hc & -> & ->) & HM).
  apply Ascii.eqb_eq in Hc as <-.
  destruct HM as (p6 & s6 & c6 & (c7 & Hg2 & ->) & Hl2).
  apply iter_class in Hg2 as (g2 & Hg2 & -> & ->).
  apply matches_lit in Hl2 as [-> ->].
  rewrite take_prefix. cbn [cap Nat.eqb].
  rewrite Hshape in Hl. apply (f_equal (drop 3)) in Hl. cbn [drop append] in Hl.
  destruct name as [|n0 name]; [congruence|].
  destruct g1 as [|h0 g1]; [congruence|].
  cbn [allChars] in Hname, Hg1.
  apply andb_true_iff in Hname as [Hn0 Hname].
  apply andb_true_iff in Hg1 as [Hh0 Hg1].
  destruct (span_unique isSpace " " sp _ _ eq_refl Hsp Hl
              (word_not_space _ Hn0) (word_not_space _ Hh0)) as [<- Hl1].
  cbn [append] in Hl1. injection Hl1 as <- Hl1.
  assert (Hstop : match sp2 ++ String "(" (g2 ++ "):" ++ t) with
                  | String c _ => isWord c = false
                  | "" => True
                  end).
  { destruct sp2 as [|w sp2]; [reflexivity|]. cbn [append allChars] in *.
    apply andb_true_iff in Hsp2 as [Hw _].
    destruct (isWord w) eqn:Ew; [|reflexivity].
    apply word_not_space in Ew. congruence. }
  destruct (span_unique isWord name g1 _ _ Hname Hg1 Hl1 eq_refl Hstop)
    as [<- Hl2].
  destruct (span_unique isSpace "" sp2 _ _ eq_refl Hsp2 Hl2 eq_refl eq_refl)
    as [<- Hl3].
  cbn [append] in Hl3. injection Hl3 as Hl3. split; [reflexivity|].
  now apply (params_unique params g2 rest t).
Qed.

Lemma splitOn_first (sep : ascii) (x rest : string) :
  allChars (fun c => negb (Ascii.eqb c sep)) x = true ->
  splitOn sep (x ++ String sep rest) = x :: splitOn sep rest.
Proof.
  induction x as [|c x IH]; intro H.
  - cbn [append splitOn]. now rewrite Ascii.eqb_refl.
  - cbn [allChars] in H. apply andb_true_iff in H as [Hc Hx].
    cbn [append splitOn]. apply negb_true_iff in Hc. now rewrite Hc, IH.
Qed.

Lemma letters_fit (n : nat) :
  n <= 26 ->
  allChars (fun c => negb (isLineTerminator c) && negb (Ascii.eqb c ")"))
    (joinParameters (map (fun index => fromCharCode (97 + index)) (seq 0 n)))
  = true.
Proof.
  intro H.
  assert (Hall : forallb (fun n =>
            allChars (fun c => negb (isLineTerminator c) && negb (Ascii.eqb c ")"))
              (joinParameters (map (fun index => fromCharCode (97 + index)) (seq 0 n))))
            (seq 0 27) = true) by (vm_compute; reflexivity).
  rewrite forallb_forall in Hall. apply Hall. apply in_seq. lia.
Qed.

Lemma parameters_fit (input : option JSValue) :
  List.length (extractParameters input) <= 26 ->
  allChars (fun c => negb (isLineTerminator c) && negb (Ascii.eqb c ")"))
    (joinParameters (extractParameters input)) = true.
Proof.
  destruct input as [[ | | b | z | s | elems | fields ]|]; try reflexivity.
  unfold extractParameters. rewrite length_map, length_seq.
  apply letters_fit.
Qed.



End StarterFacts.

(* ================================================================= *)
(** ** The two spellings of a function name *)

Module NameFacts.
Import Str Regex Transpiler Notions Matching GameData RegexFacts MatchingFacts.

Lemma searchFrom_acc (r : regex) : forall s prev acc,
  searchFrom r prev acc s =
  match searchFrom r prev "" s with
  | Some f =>
      Some (mkFound (rev acc ++ f_pre f) (f_text f) (f_caps f) (f_last f)
              (f_post f))
  | None => None
  end.
Proof.
  induction s as [|c s IH]; intros prev acc.
  - rewrite (searchFrom_eq r prev acc), (searchFrom_eq r prev "").
    destruct (rmatch r prev "" [] _) as [[[p s'] cs]|]; [|reflexivity].
    cbn [f_pre f_text f_caps f_last f_post]. now rewrite app_nil_r.
  - rewrite (searchFrom_eq r prev acc), (searchFrom_eq r prev "").
    destruct (rmatch r prev (String c s) [] _) as [[[p s'] cs]|].
    + cbn [f_pre f_text f_caps f_last f_post]. now rewrite app_nil_r.
    + rewrite (IH (Some c) (String c acc)), (IH (Some c) (String c "")).
      destruct (searchFrom r (Some c) "" s) as [f|]; [|reflexivity].
      cbn [f_pre f_text f_caps f_last f_post].
      now rewrite rev_cons, app_assoc.
Qed.

(** Where the expression does not match at the front, the replacement
    keeps the first character and goes on behind it. *)
Lemma replaceAllFrom_skip (r : regex) (tpl : found -> string) (fuel : nat)
    (prev : option ascii) (a : ascii) (s : string) :
  (forall f pre,
     tpl (mkFound pre (f_text f) (f_caps f) (f_last f) (f_post f)) = tpl f) ->
  rmatch r prev (String a s) [] (fun p s' cs => Some (p, s', cs)) = None ->
  replaceAllFrom (S fuel) r tpl prev (String a s) =
  String a (replaceAllFrom (S fuel) r tpl (Some a) s).
Proof.
  intros Ht Hn. cbn [replaceAllFrom]. rewrite searchFrom_eq, Hn.
  rewrite searchFrom_acc.
  destruct (searchFrom r (Some a) "" s) as [f|]; [|reflexivity].
  cbn [f_pre f_text f_caps f_last f_post]. rewrite Ht.
  change (rev (String a "")) with (String a ""). reflexivity.
Qed.

(** Where it matches some text at the front, the replacement writes the
    template and goes on behind the match. *)
Lemma replaceAllFrom_here (r : regex) (tpl : found -> string) (fuel : nat)
    (prev : option ascii) (s : string) p s' cs :
  rmatch r prev s [] (fun p s' cs => Some (p, s', cs)) = Some (p, s', cs) ->
  take (String.length s - String.length s') s <> "" ->
  replaceAllFrom (S fuel) r tpl prev s =
  tpl (mkFound "" (take (String.length s - String.length s') s) cs p s')
  ++ replaceAllFrom fuel r tpl p s'.
Proof.
  intros Hm Hne. cbn [replaceAllFrom]. rewrite searchFrom_eq, Hm.
  cbn [f_pre f_text f_caps f_last f_post].
  change (rev "") with "". cbn [append].
  destruct (take (String.length s - String.length s') s); [congruence|].
  reflexivity.
Qed.

Lemma replaceAllFrom_empty (r : regex) (tpl : found -> string) (fuel : nat)
    (prev : option ascii) :
  rmatch r prev "" [] (fun p s' cs => Some (p, s', cs)) = None ->
  replaceAllFrom fuel r tpl prev "" = "".
Proof.
  intro Hn. destruct fuel; [reflexivity|].
  cbn [replaceAllFrom]. now rewrite searchFrom_eq, Hn.
Qed.

Lemma sub_succ_same (n : nat) : S n - n = 1.
Proof. lia. Qed.

Lemma camelOf_cons (u : ascii) (s : string) :
  match s with
  | String c _ => Ascii.eqb u "_" && isLower c = false
  | "" => True
  end ->
  camelOf (String u s) = String u (camelOf s).
Proof.
  destruct s as [|c rest]; [reflexivity|]. intro H.
  cbn [camelOf]. now rewrite H.
Qed.

Lemma snakeRe_none (prev : option ascii) :
  rmatch snakeRe prev "" [] (fun p s' cs => Some (p, s', cs)) = None.
Proof. reflexivity. Qed.

Lemma snakeRe_here (prev : option ascii) (c : ascii) (rest : string) :
  isLower c = true ->
  rmatch snakeRe prev (String "_" (String c rest)) []
    (fun p s' cs => Some (p, s', cs)) =
  Some (Some c, rest, [(1, String c "")]).
Proof.
  intro Hc. unfold snakeRe. cbn [seqs].
  rewrite rmatch_Seq. unfold chr. rewrite rmatch_Class_cons.
  cbn [Ascii.eqb Bool.eqb]. rewrite rmatch_Group, rmatch_Class_cons, Hc.
  cbn [String.length]. now rewrite sub_succ_same.
Qed.

Lemma snakeRe_skip (prev : option ascii) (u : ascii) (s : string) :
  match s with
  | String c _ => Ascii.eqb u "_" && isLower c = false
  | "" => True
  end ->
  rmatch snakeRe prev (String u s) [] (fun p s' cs => Some (p, s', cs)) = None.
Proof.
  intro H. unfold snakeRe. cbn [seqs].
  rewrite rmatch_Seq. unfold chr. rewrite rmatch_Class_cons.
  rewrite (Ascii.eqb_sym "_" u).
  destruct (Ascii.eqb u "_"); [|reflexivity].
  rewrite rmatch_Group.
  destruct s as [|c rest]; [reflexivity|].
  rewrite rmatch_Class_cons. cbn [andb] in H. now rewrite H.
Qed.

Lemma snakeToCamel_chars : forall (n : nat) (s : string) (fuel : nat) prev,
  String.length s <= n -> String.length s < fuel ->
  replaceAllFrom fuel snakeRe (fun f => toUpperWord (group 1 f)) prev s
  = camelOf s.
Proof.
  induction n as [|n IH]; intros s fuel prev Hn Hf.
  - destruct s; [|cbn in Hn; lia].
    apply replaceAllFrom_empty, snakeRe_none.
  - destruct s as [|u s]; [apply replaceAllFrom_empty, snakeRe_none|].
    destruct fuel as [|fuel]; [lia|]. cbn [String.length] in Hn, Hf.
    destruct s as [|c rest].
    + rewrite replaceAllFrom_skip;
        [|reflexivity|now apply snakeRe_skip].
      rewrite replaceAllFrom_empty by apply snakeRe_none. reflexivity.
    + destruct (Ascii.eqb u "_" && isLower c) eqn:E.
      * pose proof E as E0.
        apply andb_true_iff in E as [Eu Ec]. apply Ascii.eqb_eq in Eu. subst u.
        rewrite (replaceAllFrom_here _ _ fuel prev _ (Some c) rest
                   [(1, String c "")] (snakeRe_here prev c rest Ec)).
        -- cbn [String.length].
           replace (S (S (String.length rest)) - String.length rest) with 2 by lia.
           unfold group. cbn [f_caps cap Nat.eqb toUpperWord append camelOf].
           rewrite E0. f_equal. apply IH; cbn [String.length] in *; lia.
        -- cbn [String.length].
           replace (S (S (String.length rest)) - String.length rest) with 2 by lia.
           discriminate.
      * rewrite replaceAllFrom_skip;
          [|reflexivity|now apply snakeRe_skip].
        rewrite camelOf_cons by exact E. f_equal.
        apply IH; cbn [String.length] in *; lia.
Qed.

Lemma capitalRe_none (prev : option ascii) :
  rmatch capitalRe prev "" [] (fun p s' cs => Some (p, s', cs)) = None.
Proof. reflexivity. Qed.

Lemma capitalRe_here (prev : option ascii) (c : ascii) (rest : string) :
  isUpper c = true ->
  rmatch capitalRe prev (String c rest) [] (fun p s' cs => Some (p, s', cs)) =
  Some (Some c, rest, [(1, String c "")]).
Proof.
  intro Hc. unfold capitalRe.
  rewrite rmatch_Group, rmatch_Class_cons, Hc.
  cbn [String.length]. now rewrite sub_succ_same.
Qed.

Lemma capitalRe_skip (prev : option ascii) (c : ascii) (rest : string) :
  isUpper c = false ->
  rmatch capitalRe prev (String c rest) [] (fun p s' cs => Some (p, s', cs)) = None.
Proof.
  intro Hc. unfold capitalRe. now rewrite rmatch_Group, rmatch_Class_cons, Hc.
Qed.

Lemma underscored_chars : forall (s : string) (fuel : nat) prev,
  String.length s < fuel ->
  replaceAllFrom fuel capitalRe (fun f => "_" ++ group 1 f) prev s
  = underscored s.
Proof.
  induction s as [|c rest IH]; intros fuel prev Hf.
  - apply replaceAllFrom_empty, capitalRe_none.
  - destruct fuel as [|fuel]; [lia|]. cbn [String.length] in Hf.
    cbn [underscored]. destruct (isUpper c) eqn:Hc.
    + rewrite (replaceAllFrom_here _ _ fuel prev _ (Some c) rest
                 [(1, String c "")] (capitalRe_here prev c rest Hc)).
      * cbn [String.length]. rewrite sub_succ_same.
        unfold group. cbn [f_caps cap Nat.eqb append take].
        do 2 f_equal. apply IH. lia.
      * cbn [String.length]. rewrite sub_succ_same. discriminate.
    + rewrite replaceAllFrom_skip;
        [|reflexivity|now apply capitalRe_skip].
      f_equal. apply IH. lia.
Qed.

Lemma upper_lower (c : ascii) :
  isLower c = true -> isUpper (upper c) = true /\ lower (upper c) = c.
Proof.
  destruct c as [[] [] [] [] [] [] [] []]; vm_compute; intro H;
    (discriminate || (split; reflexivity)).
Qed.

Lemma lower_fixed (c : ascii) : lower c = c -> isUpper c = false.
Proof.
  destruct c as [[] [] [] [] [] [] [] []]; vm_compute; intro H;
    (reflexivity || discriminate).
Qed.

(** A name without capital letters comes back from its camel-case
    spelling. *)
Lemma snake_round_trip : forall (n : nat) (s : string),
  String.length s <= n -> toLowerCase s = s ->
  toLowerCase (underscored (camelOf s)) = s.
Proof.
  induction n as [|n IH]; intros s Hn Hs.
  - destruct s; [reflexivity|cbn in Hn; lia].
  - destruct s as [|u s]; [reflexivity|].
    cbn [toLowerCase String.length] in Hs, Hn. injection Hs as Hu Hs.
    destruct s as [|c rest].
    + cbn [camelOf underscored]. rewrite (lower_fixed u Hu).
      cbn [toLowerCase]. now rewrite Hu.
    + destruct (Ascii.eqb u "_" && isLower c) eqn:E.
      * cbn [camelOf]. rewrite E.
        apply andb_true_iff in E as [Eu Ec]. apply Ascii.eqb_eq in Eu. subst u.
        destruct (upper_lower c Ec) as [U L].
        cbn [underscored]. rewrite U. cbn [toLowerCase]. rewrite L.
        cbn [toLowerCase] in Hs. injection Hs as _ Hs.
        rewrite (IH rest); [reflexivity|cbn [String.length] in Hn; lia|exact Hs].
      * rewrite camelOf_cons by exact E.
        cbn [underscored]. rewrite (lower_fixed u Hu).
        cbn [toLowerCase]. rewrite Hu.
        rewrite (IH (String c rest)); [reflexivity|lia|exact Hs].
Qed.

Lemma pythonFunctionName_snakeToCamel (name : string) :
  toLowerCase name = name -> pythonFunctionName (snakeToCamel name) = name.
Proof.
  intro H. unfold pythonFunctionName, snakeToCamel, replaceAll.
  rewrite (snakeToCamel_chars (String.length name)) by lia.
  rewrite underscored_chars by lia.
  now apply (snake_round_trip (String.length name)).
Qed.

(** X12.  For a challenge whose function name holds no capital letter,
    the Python name that the challenge scene derives from the camel-case
    name of the converted problem is the challenge's own name again, and
    the default starter code of the scene is the starter code of the
    converted problem followed by a line break. *)
Theorem default_starter_code_agrees (challenge : Challenge) (tier : string) :
  toLowerCase (ch_functionName challenge) = ch_functionName challenge ->
  let p := convertChallengeToProblem challenge tier in
  pythonFunctionName (p_functionName p) = ch_functionName challenge /\
  getDefaultStarterCode (p_functionName p) (p_parameters p) =
    p_starterCodePython p ++ nl.
Proof.
  intros H p.
  assert (N : pythonFunctionName (p_functionName p) = ch_functionName challenge)
    by (apply pythonFunctionName_snakeToCamel; exact H).
  split; [exact N|].
  unfold getDefaultStarterCode. rewrite N.
  unfold p, convertChallengeToProblem. cbn [p_starterCodePython p_parameters].
  now rewrite !app_assoc.
Qed.

Lemma default_starter_code_agrees_witness :
  pythonFunctionName (snakeToCamel "contains_duplicate") = "contains_duplicate".
Proof.
  exact (proj1 (default_starter_code_agrees
                  (mkChallenge "white_01" "contains_duplicate" [] 50) "white"
                  eq_refl)).
Defined.

End NameFacts.
